(** * Quantum random walk robot: the decision engine of [src/utils/quantum_math.py]

    A shallow embedding of the wavefunction, the walk simulator and the
    randomness analyzer, followed by the properties of the specification.

    Number model.  Python [float] and [complex] values are read as real
    numbers and pairs of real numbers: rounding is not modelled.
    [math.sqrt], [math.exp], [math.log2], [math.pi] and [cmath.exp] are the
    functions of the real-number library; [math.erf] is defined from the
    Riemann integral.  Every division, logarithm and square root of the
    source sits behind a guard that keeps its argument in the domain of the
    operation.

    Overflow and underflow are modelled where the source computes powers,
    exponentials and quotients of unbounded arguments: [normalize],
    [apply_decoherence], [initialize] and [evolve_quantum_state] give the
    state a call reaches when every float it computes is zero or of normal
    magnitude, and [normalize_checked], [apply_decoherence_checked],
    [initialize_checked] and [evolve_checked] say for every argument
    whether the call completes with that state, raises [OverflowError], or
    leaves the normal range without an exception.

    Pseudo-random and clock readings ([random.random], [random.gauss],
    [random.getrandbits], [time.time], [hash]) are explicit arguments of the
    functions that consume them. *)

From Stdlib Require Import Reals Lra Lia ZArith List String Bool.
Import ListNotations.
Local Open Scope R_scope.

(** ** Complex numbers, as Python's [complex] *)

Module PyComplex.

Record complex : Type := mkC { real : R; imag : R }.

(** [complex(x, 0)]: how Python promotes a float operand. *)
Definition of_float (x : R) : complex := mkC x 0.

(** [1j] *)
Definition Ci : complex := mkC 0 1.

Definition Cadd (a b : complex) : complex :=
  mkC (real a + real b) (imag a + imag b).

Definition Cmul (a b : complex) : complex :=
  mkC (real a * real b - imag a * imag b)
      (real a * imag b + imag a * real b).

(** Quotient of two complex numbers (only used behind a nonzero guard). *)
Definition Cdiv (a b : complex) : complex :=
  let d := real b * real b + imag b * imag b in
  mkC ((real a * real b + imag a * imag b) / d)
      ((imag a * real b - real a * imag b) / d).

(** [z.conjugate()] *)
Definition Cconj (a : complex) : complex := mkC (real a) (- imag a).

(** [abs(z)] *)
Definition Cabs (a : complex) : R := sqrt (real a * real a + imag a * imag a).

(** [cmath.exp(z)] *)
Definition Cexp (a : complex) : complex :=
  mkC (exp (real a) * cos (imag a)) (exp (real a) * sin (imag a)).

End PyComplex.
Import PyComplex.

(** [math.log2] *)
Definition log2 (x : R) : R := ln x / ln 2.

(** ** QuantumWavefunction *)

Record QuantumWavefunction : Type := mkWavefunction {
  alpha : complex;
  beta : complex
}.

(** [abs(self.alpha)**2 + abs(self.beta)**2] *)
Definition norm_squared (w : QuantumWavefunction) : R :=
  Cabs (alpha w) ^ 2 + Cabs (beta w) ^ 2.

(** [normalize()], for squares and a sum of squares inside the float range
    (see [normalize_checked]). *)
Definition normalize (w : QuantumWavefunction) : QuantumWavefunction :=
  let norm := sqrt (Cabs (alpha w) ^ 2 + Cabs (beta w) ^ 2) in
  if Rlt_dec 0 norm then
    mkWavefunction (Cdiv (alpha w) (of_float norm))
                   (Cdiv (beta w) (of_float norm))
  else w.

(** [QuantumWavefunction(alpha, beta)]: the constructor normalizes. *)
Definition new_wavefunction (a b : complex) : QuantumWavefunction :=
  normalize (mkWavefunction a b).

(** [QuantumWavefunction()] with the default arguments. *)
Definition default_wavefunction : QuantumWavefunction :=
  new_wavefunction (mkC 0.707 0) (mkC 0.707 0).

Definition get_probabilities (w : QuantumWavefunction) : R * R :=
  let left_prob := Cabs (alpha w) ^ 2 in
  let right_prob := Cabs (beta w) ^ 2 in
  (left_prob, right_prob).

(** What [_quantum_random] reads from its environment: the integer parts of
    the three entropy sources before they are reduced. *)
Record entropy_reading : Type := mkEntropy {
  clock_micros : Z;   (* int(time.time() * 1000000) *)
  clock_hash : Z;     (* hash(str(time.time())) *)
  random_bits : Z     (* random.getrandbits(32) *)
}.

Definition entropy_sources (e : entropy_reading) : list Z :=
  [clock_micros e; (clock_hash e mod 1000000)%Z; random_bits e].

Definition quantum_random (e : entropy_reading) : R :=
  let combined :=
    fold_left (fun combined source => Z.lxor combined (source mod 1000000)%Z)
              (entropy_sources e) 0%Z in
  IZR (combined mod 1000000)%Z / 1000000.

Definition collapse (w : QuantumWavefunction) (e : entropy_reading)
  : string * QuantumWavefunction :=
  let '(left_prob, right_prob) := get_probabilities w in
  let random_val := quantum_random e in
  if Rlt_dec random_val left_prob then
    ("LEFT"%string, mkWavefunction (mkC 1 0) (mkC 0 0))
  else
    ("RIGHT"%string, mkWavefunction (mkC 0 0) (mkC 1 0)).

(** [apply_decoherence]; [u] is the value of [random.random()].  For a
    decay factor and products inside the float range (see
    [apply_decoherence_checked]). *)
Definition apply_decoherence (w : QuantumWavefunction)
    (decoherence_rate dt u : R) : QuantumWavefunction :=
  let decay_factor := exp (- decoherence_rate * dt) in
  let phase_noise := 2 * PI * u * decoherence_rate * dt in
  let factor :=
    Cmul (Cexp (Cmul Ci (of_float phase_noise))) (of_float decay_factor) in
  normalize (mkWavefunction (Cmul (alpha w) factor) (Cmul (beta w) factor)).

(** ** EntangledState *)

Record EntangledState : Type := mkEntangled {
  wf1 : QuantumWavefunction;
  wf2 : QuantumWavefunction;
  entanglement_strength : R
}.

Definition entangle_with (w other : QuantumWavefunction) : EntangledState :=
  mkEntangled w other 1.

Definition measure_both (s : EntangledState) (e : entropy_reading)
  : string * string :=
  let random_val := quantum_random e in
  if Rlt_dec random_val 0.5 then ("LEFT"%string, "RIGHT"%string)
  else ("RIGHT"%string, "LEFT"%string).


(** ** QuantumWalkSimulator *)

Inductive QuantumState : Type :=
  | SUPERPOSITION
  | LEFT_COLLAPSED
  | RIGHT_COLLAPSED
  | ENTANGLED.

Record QuantumDecision : Type := mkDecision {
  direction : string;
  probability : R;
  amplitude_left : complex;
  amplitude_right : complex;
  entropy : R;
  coherence : R;
  timestamp : R
}.

Record QuantumWalkSimulator : Type := mkSimulator {
  wavefunction : QuantumWavefunction;
  current_state : QuantumState;
  decision_history : list QuantumDecision;
  entropy_history : list R;
  coherence_history : list R;
  decoherence_rate : R;
  coherence_time : R;
  noise_level : R;
  last_decision_time : R;
  total_decisions : Z
}.

(** [QuantumWalkSimulator()] *)
Definition new_simulator : QuantumWalkSimulator :=
  mkSimulator default_wavefunction SUPERPOSITION [] [] [] 0.1 1.0 0.1 0 0.

(** [initialize(...)], for amplitudes and a coherence time inside the float
    range (see [initialize_checked]). *)
Definition initialize (sim : QuantumWalkSimulator)
    (left_amplitude right_amplitude coherence_time' noise_level' : R)
  : QuantumWalkSimulator :=
  let w := normalize (mkWavefunction (mkC left_amplitude 0)
                                     (mkC right_amplitude 0)) in
  let rate := if Rlt_dec 0 coherence_time' then 1.0 / coherence_time' else 0 in
  mkSimulator w SUPERPOSITION [] [] [] rate coherence_time' noise_level'
              (last_decision_time sim) (total_decisions sim).

Definition calculate_entropy (sim : QuantumWalkSimulator) : R :=
  let '(left_prob, right_prob) := get_probabilities (wavefunction sim) in
  let entropy0 := 0.0 in
  let entropy1 :=
    if Rlt_dec 0 left_prob then entropy0 - left_prob * log2 left_prob
    else entropy0 in
  let entropy2 :=
    if Rlt_dec 0 right_prob then entropy1 - right_prob * log2 right_prob
    else entropy1 in
  entropy2.

Definition calculate_coherence (sim : QuantumWalkSimulator) : R :=
  let a := alpha (wavefunction sim) in
  let b := beta (wavefunction sim) in
  Cabs (Cmul (Cconj a) b).

Definition with_wavefunction (sim : QuantumWalkSimulator)
    (w : QuantumWavefunction) : QuantumWalkSimulator :=
  mkSimulator w (current_state sim) (decision_history sim)
              (entropy_history sim) (coherence_history sim)
              (decoherence_rate sim) (coherence_time sim) (noise_level sim)
              (last_decision_time sim) (total_decisions sim).

Definition reset_to_superposition (sim : QuantumWalkSimulator)
  : QuantumWalkSimulator :=
  mkSimulator (mkWavefunction (mkC 0.707 0) (mkC 0.707 0)) SUPERPOSITION
              (decision_history sim)
              (entropy_history sim) (coherence_history sim)
              (decoherence_rate sim) (coherence_time sim) (noise_level sim)
              (last_decision_time sim) (total_decisions sim).

Definition max_history : nat := 1000.

(** [h.append(x)] followed by [if len(h) > max_history: h.pop(0)]. *)
Definition append_capped {A : Type} (h : list A) (x : A) : list A :=
  let h' := h ++ [x] in
  if (max_history <? List.length h')%nat then tl h' else h'.

Definition update_histories (sim : QuantumWalkSimulator)
  : QuantumWalkSimulator :=
  let entropy := calculate_entropy sim in
  let coherence := calculate_coherence sim in
  mkSimulator (wavefunction sim) (current_state sim) (decision_history sim)
              (append_capped (entropy_history sim) entropy)
              (append_capped (coherence_history sim) coherence)
              (decoherence_rate sim) (coherence_time sim) (noise_level sim)
              (last_decision_time sim) (total_decisions sim).

(** The pseudo-random values one evolution step may consume:
    [random.random()] for the phase, and the four standard normal deviates
    behind the four [random.gauss] calls. *)
Record evolution_draws : Type := mkDraws {
  phase_draw : R;
  gauss_draw1 : R;
  gauss_draw2 : R;
  gauss_draw3 : R;
  gauss_draw4 : R
}.

(** [random.gauss(mu, sigma)] returns [mu + z * sigma] for a standard normal
    deviate [z]. *)
Definition gauss (mu sigma z : R) : R := mu + z * sigma.

Definition evolve_quantum_state (sim : QuantumWalkSimulator) (dt : R)
    (d : evolution_draws) : QuantumWalkSimulator :=
  let w := apply_decoherence (wavefunction sim) (decoherence_rate sim) dt
                             (phase_draw d) in
  if Rlt_dec 0 (noise_level sim) then
    let noise_alpha := mkC (gauss 0 (noise_level sim * dt) (gauss_draw1 d))
                           (gauss 0 (noise_level sim * dt) (gauss_draw2 d)) in
    let noise_beta := mkC (gauss 0 (noise_level sim * dt) (gauss_draw3 d))
                          (gauss 0 (noise_level sim * dt) (gauss_draw4 d)) in
    with_wavefunction sim
      (normalize (mkWavefunction (Cadd (alpha w) noise_alpha)
                                 (Cadd (beta w) noise_beta)))
  else with_wavefunction sim w.

Definition with_last_decision_time (sim : QuantumWalkSimulator) (t : R)
  : QuantumWalkSimulator :=
  mkSimulator (wavefunction sim) (current_state sim) (decision_history sim)
              (entropy_history sim) (coherence_history sim)
              (decoherence_rate sim) (coherence_time sim) (noise_level sim)
              t (total_decisions sim).

(** [step()]; [current_time] is the value of [time.time()]. *)
Definition step (sim : QuantumWalkSimulator) (current_time : R)
    (d : evolution_draws) : QuantumWalkSimulator :=
  if Rlt_dec 0 (last_decision_time sim) then
    let dt := current_time - last_decision_time sim in
    let sim1 := evolve_quantum_state sim dt d in
    let sim2 := update_histories sim1 in
    with_last_decision_time sim2 current_time
  else with_last_decision_time sim current_time.

(** [make_quantum_decision()]; [e] feeds the collapse and [now] is the
    value of [time.time()] stored as the timestamp. *)
Definition make_quantum_decision (sim : QuantumWalkSimulator)
    (e : entropy_reading) (now : R)
  : QuantumDecision * QuantumWalkSimulator :=
  let '(left_prob, right_prob) := get_probabilities (wavefunction sim) in
  let entropy := calculate_entropy sim in
  let coherence := calculate_coherence sim in
  let '(direction, w) := collapse (wavefunction sim) e in
  let decision :=
    mkDecision direction
               (if String.eqb direction "LEFT" then left_prob else right_prob)
               (alpha w) (beta w) entropy coherence now in
  let state :=
    if String.eqb direction "LEFT" then LEFT_COLLAPSED else RIGHT_COLLAPSED in
  let sim1 :=
    mkSimulator w state (decision_history sim ++ [decision])
                (entropy_history sim) (coherence_history sim)
                (decoherence_rate sim) (coherence_time sim) (noise_level sim)
                (last_decision_time sim) (total_decisions sim + 1) in
  (decision, reset_to_superposition sim1).

(** A caller's use of the engine: a sequence of calls on one simulator. *)
Inductive engine_call : Type :=
  | CallInitialize (left_amplitude right_amplitude coherence_time' noise_level' : R)
  | CallStep (current_time : R) (d : evolution_draws)
  | CallMakeDecision (e : entropy_reading) (now : R).

Definition perform (sim : QuantumWalkSimulator) (c : engine_call)
  : QuantumWalkSimulator :=
  match c with
  | CallInitialize l r ct nl => initialize sim l r ct nl
  | CallStep t d => step sim t d
  | CallMakeDecision e now => snd (make_quantum_decision sim e now)
  end.

Definition run (sim : QuantumWalkSimulator) (calls : list engine_call)
  : QuantumWalkSimulator :=
  fold_left perform calls sim.

(** ** QuantumStateAnalyzer *)

(** The values the reports are made of, and reports as Python dictionaries
    (keys in insertion order). *)
#[local] Unset Elimination Schemes.
Inductive pyvalue : Type :=
  | PyInt (z : Z)
  | PyFloat (x : R)
  | PyStr (s : string)
  | PyList (l : list pyvalue)
  | PyDict (d : list (string * pyvalue)).
#[local] Set Elimination Schemes.

Definition pydict : Type := list (string * pyvalue).

Fixpoint dict_get (d : pydict) (key : string) : option pyvalue :=
  match d with
  | [] => None
  | (k, v) :: rest => if String.eqb k key then Some v else dict_get rest key
  end.

(** The number a numeric value stands for in a comparison. *)
Definition to_real (v : pyvalue) : R :=
  match v with
  | PyInt z => IZR z
  | PyFloat x => x
  | _ => 0
  end.

(** [abs(v)] on a number. *)
Definition pyabs (v : pyvalue) : pyvalue :=
  match v with
  | PyInt z => PyInt (Z.abs z)
  | PyFloat x => PyFloat (Rabs x)
  | _ => v
  end.

(** [max(values)]: the first of the largest elements. *)
Definition pymax (first : pyvalue) (others : list pyvalue) : pyvalue :=
  fold_left (fun best v => if Rlt_dec (to_real best) (to_real v) then v else best)
            others first.

(** [sum(sequence)] on integers. *)
Definition sum_ints (sequence : list Z) : Z := fold_left Z.add sequence 0%Z.

(** [sum(values)] on floats. *)
Definition sum_floats (values : list R) : R := fold_left Rplus values 0.

(** The loop of [_runs_test]: [runs = 1], then one more for every index
    [i] in [range(1, n)] with [sequence[i] != sequence[i-1]]. *)
Definition count_runs (sequence : list Z) : Z :=
  fold_left
    (fun runs i =>
       if (nth i sequence 0 =? nth (i - 1) sequence 0)%Z then runs
       else (runs + 1)%Z)
    (seq 1 (List.length sequence - 1)) 1%Z.

(** The bigram counter of [_entropy_rate]:
    [counts[bigram] = counts.get(bigram, 0) + 1]. *)
Fixpoint count_bigram (counts : list ((Z * Z) * Z)) (bigram : Z * Z)
  : list ((Z * Z) * Z) :=
  match counts with
  | [] => [(bigram, 1%Z)]
  | (k, c) :: rest =>
      if ((fst k =? fst bigram) && (snd k =? snd bigram))%Z
      then (k, (c + 1)%Z) :: rest
      else (k, c) :: count_bigram rest bigram
  end.

(** [math.erf]: the error function, [2/sqrt(pi)] times the integral of
    [exp(-t^2)] from 0 to [x]. *)
Definition erf_integrand (t : R) : R := exp (- (t * t)).

Definition erf_integrable (a b : R) : Riemann_integrable erf_integrand a b.
Proof.
  assert (Hc : continuity erf_integrand).
  { apply derivable_continuous. unfold erf_integrand. reg. }
  destruct (Rle_dec a b) as [Hab | Hab].
  - apply continuity_implies_RiemannInt; [exact Hab | intros x _; apply Hc].
  - apply RiemannInt_P1.
    apply continuity_implies_RiemannInt; [lra | intros x _; apply Hc].
Defined.

Definition erf (x : R) : R :=
  2 / sqrt PI * RiemannInt (erf_integrable 0 x).

Definition standard_normal_cdf (x : R) : R :=
  0.5 * (1 + erf (x / sqrt 2)).

Definition runs_test (sequence : list Z) : pydict :=
  let n := Z.of_nat (List.length sequence) in
  if (n <? 2)%Z then
    [("test", PyStr "runs"); ("result", PyStr "insufficient_data")]%string
  else
    let runs := count_runs sequence in
    let ones := sum_ints sequence in
    let zeros := (n - ones)%Z in
    if ((ones =? 0) || (zeros =? 0))%Z then
      [("test", PyStr "runs"); ("result", PyStr "degenerate")]%string
    else
      let expected_runs := IZR (2 * ones * zeros) / IZR n + 1 in
      let variance :=
        IZR (2 * ones * zeros * (2 * ones * zeros - n)) / IZR (n * n * (n - 1)) in
      let '(z_stat, p_value) :=
        if Rlt_dec 0 variance then
          let z := (IZR runs - expected_runs) / sqrt variance in
          (PyFloat z, PyFloat (2 * (1 - standard_normal_cdf (Rabs z))))
        else (PyInt 0, PyInt 1) in
      [("test", PyStr "runs");
       ("runs_observed", PyInt runs);
       ("runs_expected", PyFloat expected_runs);
       ("z_statistic", z_stat);
       ("p_value", p_value);
       ("result", if Rlt_dec 0.05 (to_real p_value) then PyStr "random"
                  else PyStr "non_random")]%string.

Definition frequency_test (sequence : list Z) : pydict :=
  let n := Z.of_nat (List.length sequence) in
  if (n =? 0)%Z then
    [("test", PyStr "frequency"); ("result", PyStr "insufficient_data")]%string
  else
    let ones := sum_ints sequence in
    let proportion := IZR ones / IZR n in
    let expected_proportion := 0.5 in
    let z_stat :=
      (proportion - expected_proportion)
      / sqrt (expected_proportion * (1 - expected_proportion) / IZR n) in
    let p_value := 2 * (1 - standard_normal_cdf (Rabs z_stat)) in
    [("test", PyStr "frequency");
     ("proportion_ones", PyFloat proportion);
     ("expected_proportion", PyFloat expected_proportion);
     ("z_statistic", PyFloat z_stat);
     ("p_value", PyFloat p_value);
     ("result", if Rlt_dec 0.05 p_value then PyStr "random"
                else PyStr "biased")]%string.

Definition autocorrelation_test (sequence : list Z) (max_lag : nat) : pydict :=
  let n := List.length sequence in
  if (n <? max_lag * 2)%nat then
    [("test", PyStr "autocorrelation");
     ("result", PyStr "insufficient_data")]%string
  else
    let mean_val := IZR (sum_ints sequence) / INR n in
    let centered := map (fun x => IZR x - mean_val) sequence in
    let autocorrs :=
      map (fun lag =>
             let numerator :=
               sum_floats (map (fun i => nth i centered 0 * nth (i + lag) centered 0)
                               (seq 0 (n - lag))) in
             let denominator := sum_floats (map (fun x => x * x) centered) in
             if Rlt_dec 0 denominator then PyFloat (numerator / denominator)
             else PyInt 0)
          (seq 1 (Nat.min (max_lag + 1) (n / 2) - 1)) in
    let max_autocorr :=
      match map pyabs autocorrs with
      | [] => PyInt 0
      | first :: others => pymax first others
      end in
    [("test", PyStr "autocorrelation");
     ("autocorrelations", PyList autocorrs);
     ("max_autocorrelation", max_autocorr);
     ("result", if Rlt_dec (to_real max_autocorr) 0.2 then PyStr "random"
                else PyStr "correlated")]%string.

Definition entropy_rate (sequence : list Z) : pyvalue :=
  if (List.length sequence <? 2)%nat then PyInt 0
  else
    let bigram_counts :=
      fold_left
        (fun counts i => count_bigram counts (nth i sequence 0%Z, nth (i + 1) sequence 0%Z))
        (seq 0 (List.length sequence - 1)) [] in
    let total_bigrams := Z.of_nat (List.length sequence - 1) in
    fold_left
      (fun rate count =>
         if (0 <? count)%Z then
           let prob := IZR count / IZR total_bigrams in
           PyFloat (to_real rate - prob * log2 prob)
         else rate)
      (map snd bigram_counts) (PyInt 0).

Definition analyze_randomness_quality (decisions : list QuantumDecision)
  : pydict :=
  if (List.length decisions <? 2)%nat then []
  else
    let binary_sequence :=
      map (fun d => if String.eqb (direction d) "LEFT" then 1%Z else 0%Z)
          decisions in
    [("sequence_length", PyInt (Z.of_nat (List.length binary_sequence)));
     ("runs_test", PyDict (runs_test binary_sequence));
     ("frequency_test", PyDict (frequency_test binary_sequence));
     ("autocorrelation", PyDict (autocorrelation_test binary_sequence 10));
     ("entropy_rate", entropy_rate binary_sequence)]%string.


(** ** Reference notions used to state the properties *)

(** Repeated [collapse()] calls on one wavefunction object: the directions
    returned, one per entropy reading. *)
Fixpoint collapse_all (w : QuantumWavefunction) (es : list entropy_reading)
  : list string :=
  match es with
  | [] => []
  | e :: rest =>
      let '(d, w') := collapse w e in d :: collapse_all w' rest
  end.

(** The decomposition of a sequence into its maximal constant runs, as the
    specification words the runs test. *)
Fixpoint maximal_runs (l : list Z) : list (list Z) :=
  match l with
  | [] => []
  | x :: rest =>
      match maximal_runs rest with
      | (y :: run) :: runs =>
          if (x =? y)%Z then (x :: y :: run) :: runs
          else [x] :: (y :: run) :: runs
      | _ => [[x]]
      end
  end.

Definition all_identical (l : list Z) : Prop :=
  forall x y, In x l -> In y l -> x = y.

(** Both capped histories are within capacity. *)
Definition histories_capped (sim : QuantumWalkSimulator) : Prop :=
  (List.length (entropy_history sim) <= max_history)%nat
  /\ (List.length (coherence_history sim) <= max_history)%nat.

(** A binary sequence, as the analyzer builds it from the directions. *)
Definition binary (l : list Z) : Prop :=
  Forall (fun x => x = 0%Z \/ x = 1%Z) l.

Definition decision_bit (d : QuantumDecision) : Z :=
  if String.eqb (direction d) "LEFT" then 1%Z else 0%Z.

(** A Decision record of each direction, as [make_quantum_decision] builds
    them at equal probabilities. *)
Definition left_decision : QuantumDecision :=
  mkDecision "LEFT" 0.5 (mkC 1 0) (mkC 0 0) 1 0.5 0.

Definition right_decision : QuantumDecision :=
  mkDecision "RIGHT" 0.5 (mkC 0 0) (mkC 1 0) 1 0.5 0.

(** Successive runs take different values. *)
Fixpoint runs_alternate (runs : list (list Z)) : Prop :=
  match runs with
  | run1 :: rest =>
      match rest with
      | run2 :: _ => hd_error run1 <> hd_error run2 /\ runs_alternate rest
      | [] => True
      end
  | [] => True
  end.

(** The number of places where a sequence changes value. *)
Fixpoint value_changes (l : list Z) : Z :=
  match l with
  | x :: rest =>
      match rest with
      | y :: _ => ((if (x =? y)%Z then 0 else 1) + value_changes rest)%Z
      | [] => 0%Z
      end
  | [] => 0%Z
  end.

(** The step function as the specification words it: the elapsed time [dt]
    is an argument, the state is evolved over it and the histories are
    appended to. *)
Definition step_with_dt (sim : QuantumWalkSimulator) (dt : R)
    (d : evolution_draws) : QuantumWalkSimulator :=
  update_histories (evolve_quantum_state sim dt d).

(** The length [decision_history] is expected to have after a call, from
    its length before: cleared by [initialize], untouched by [step], one
    longer after [make_quantum_decision]. *)
Definition decisions_after (n : nat) (c : engine_call) : nat :=
  match c with
  | CallInitialize _ _ _ _ => 0%nat
  | CallStep _ _ => n
  | CallMakeDecision _ _ => S n
  end.

(** ** Further functions of the module and of its callers *)

(** [np.mean] and [np.std] on a list of floats. *)
Definition np_mean (values : list R) : R :=
  sum_floats values / INR (List.length values).

Definition np_std (values : list R) : R :=
  let m := np_mean values in
  sqrt (np_mean (map (fun x => Rabs (x - m) ^ 2) values)).

(** [sum(1 for d in self.decision_history if d.direction == "LEFT")] *)
Definition count_left (history : list QuantumDecision) : Z :=
  sum_ints (map (fun _ => 1%Z)
                (filter (fun d => String.eqb (direction d) "LEFT") history)).

(** [QuantumWalkSimulator.get_statistics] *)
Definition get_statistics (sim : QuantumWalkSimulator) : pydict :=
  match decision_history sim with
  | [] => []
  | _ :: _ =>
      let total := Z.of_nat (List.length (decision_history sim)) in
      let left_count := count_left (decision_history sim) in
      let right_count := (total - left_count)%Z in
      [("total_decisions", PyInt total);
       ("left_decisions", PyInt left_count);
       ("right_decisions", PyInt right_count);
       ("left_fraction", PyFloat (IZR left_count / IZR total));
       ("right_fraction", PyFloat (IZR right_count / IZR total));
       ("mean_entropy",
        match entropy_history sim with
        | [] => PyInt 0
        | _ :: _ => PyFloat (np_mean (entropy_history sim))
        end);
       ("mean_coherence",
        match coherence_history sim with
        | [] => PyInt 0
        | _ :: _ => PyFloat (np_mean (coherence_history sim))
        end);
       ("entropy_std",
        match entropy_history sim with
        | [] => PyInt 0
        | _ :: _ => PyFloat (np_std (entropy_history sim))
        end);
       ("coherence_std",
        match coherence_history sim with
        | [] => PyInt 0
        | _ :: _ => PyFloat (np_std (coherence_history sim))
        end)]%string
  end.

(** [EntangledRobotPair] of [examples/multi_robot_entanglement.py]. *)
Record EntangledRobotPair : Type := mkRobotPair {
  robot1_name : string;
  robot2_name : string;
  pair_wf1 : QuantumWavefunction;
  pair_wf2 : QuantumWavefunction;
  entangled_state : EntangledState;
  measurements : list (string * string);
  correlation_count : Z;
  total_measurements : Z
}.

(** [EntangledRobotPair(robot1_name, robot2_name)] *)
Definition new_robot_pair (name1 name2 : string) : EntangledRobotPair :=
  let w1 := default_wavefunction in
  let w2 := default_wavefunction in
  mkRobotPair name1 name2 w1 w2 (entangle_with w1 w2) [] 0 0.

Definition measure_both_robots (p : EntangledRobotPair) (e : entropy_reading)
  : (string * string) * EntangledRobotPair :=
  let '(result1, result2) := measure_both (entangled_state p) e in
  let count :=
    if negb (String.eqb result1 result2) then (correlation_count p + 1)%Z
    else correlation_count p in
  ((result1, result2),
   mkRobotPair (robot1_name p) (robot2_name p) (pair_wf1 p) (pair_wf2 p)
               (entangled_state p) (measurements p ++ [(result1, result2)])
               count (total_measurements p + 1)).

Definition get_correlation_coefficient (p : EntangledRobotPair) : pyvalue :=
  if (total_measurements p =? 0)%Z then PyInt 0
  else if (correlation_count p =? total_measurements p)%Z then PyFloat (-1.0)
       else PyFloat 0.0.

(** A series of [measure_both_robots()] calls on one pair. *)
Definition measure_series (p : EntangledRobotPair) (es : list entropy_reading)
  : EntangledRobotPair :=
  fold_left (fun q e => snd (measure_both_robots q e)) es p.

(** The number of [make_quantum_decision] calls in a sequence of calls. *)
Definition decisions_made (calls : list engine_call) : Z :=
  sum_ints (map (fun c => match c with
                          | CallMakeDecision _ _ => 1%Z
                          | _ => 0%Z
                          end) calls).

(** The clock reading of the last [step] call of a sequence of calls, or
    [start] when there is none. *)
Definition last_step_time (start : R) (calls : list engine_call) : R :=
  fold_left (fun t c => match c with
                        | CallStep current_time _ => current_time
                        | _ => t
                        end) calls start.

(** The complemented binary sequence: LEFT and RIGHT exchanged. *)
Definition complement (l : list Z) : list Z := map (fun x => (1 - x)%Z) l.

(** ** The range of binary64

    [normalize], [apply_decoherence], [initialize] and
    [evolve_quantum_state] above give the state the source reaches when every
    float it computes is zero or of normal magnitude.  The checked functions
    below say what a call does in general: it completes with that state; or a
    float power or exponential exceeds the largest float and the call raises
    [OverflowError], leaving the object as it is at that point; or some float
    is, or becomes, infinite, subnormal or zero by underflow without an
    exception, in which case the real-number reading does not apply and the
    outcome is [OutsideModel]. *)

Definition float_max : R := IZR ltac:(let z := eval vm_compute in (2 ^ 1024 - 2 ^ 971)%Z in exact z).

Definition float_min_normal : R := / IZR ltac:(let z := eval vm_compute in (2 ^ 1022)%Z in exact z).

(** The exact value lies beyond the largest float. *)
Definition overflows (x : R) : bool :=
  if Rlt_dec float_max (Rabs x) then true else false.

(** The exact value is nonzero and below the smallest normal float. *)
Definition underflows (x : R) : bool :=
  if Rlt_dec 0 (Rabs x) then
    if Rlt_dec (Rabs x) float_min_normal then true else false
  else false.

(** A component lies beyond the largest float. *)
Definition complex_overflows (z : complex) : bool :=
  overflows (real z) || overflows (imag z).

Inductive outcome (A : Type) : Type :=
  | Completed (result : A)
  | Raised (exception : string) (left_as : A)
  | OutsideModel.

Arguments Completed {A} result.
Arguments Raised {A} exception left_as.
Arguments OutsideModel {A}.

(** [normalize()]: [abs(self.alpha)**2] and [abs(self.beta)**2] raise when
    they overflow, before anything is assigned. *)
Definition normalize_checked (w : QuantumWavefunction)
  : outcome QuantumWavefunction :=
  let alpha_squared := Cabs (alpha w) ^ 2 in
  let beta_squared := Cabs (beta w) ^ 2 in
  if complex_overflows (alpha w) || complex_overflows (beta w) then
    OutsideModel
  else if overflows alpha_squared || overflows beta_squared then
    Raised "OverflowError" w
  else if underflows alpha_squared || underflows beta_squared
          || overflows (alpha_squared + beta_squared) then
    OutsideModel
  else Completed (normalize w).

(** [QuantumWavefunction(alpha, beta)] *)
Definition new_wavefunction_checked (a b : complex)
  : outcome QuantumWavefunction :=
  normalize_checked (mkWavefunction a b).

(** [apply_decoherence(decoherence_rate, dt)]: [math.exp] raises when it
    overflows, before anything is assigned; when the final [normalize()]
    raises, both amplitudes have already been multiplied. *)
Definition apply_decoherence_checked (w : QuantumWavefunction)
    (decoherence_rate dt u : R) : outcome QuantumWavefunction :=
  if overflows decoherence_rate || overflows dt
     || overflows (decoherence_rate * dt) then OutsideModel
  else
    let decay_factor := exp (- decoherence_rate * dt) in
    if overflows decay_factor then Raised "OverflowError" w
    else if underflows decay_factor
            || overflows u
            || complex_overflows (alpha w) || complex_overflows (beta w)
            || overflows (2 * PI * u * decoherence_rate)
            || overflows (2 * PI * u * decoherence_rate * dt)
            || overflows (Cabs (alpha w) * decay_factor)
            || overflows (Cabs (beta w) * decay_factor) then
      OutsideModel
    else
      let phase_noise := 2 * PI * u * decoherence_rate * dt in
      let factor :=
        Cmul (Cexp (Cmul Ci (of_float phase_noise))) (of_float decay_factor) in
      let multiplied :=
        mkWavefunction (Cmul (alpha w) factor) (Cmul (beta w) factor) in
      match normalize_checked multiplied with
      | Completed normalized => Completed normalized
      | Raised exception _ => Raised exception multiplied
      | OutsideModel => OutsideModel
      end.

(** [initialize(...)]: when [normalize()] raises, the two amplitudes have
    been assigned and nothing else has been touched. *)
Definition initialize_checked (sim : QuantumWalkSimulator)
    (left_amplitude right_amplitude coherence_time' noise_level' : R)
  : outcome QuantumWalkSimulator :=
  let assigned :=
    mkWavefunction (mkC left_amplitude 0) (mkC right_amplitude 0) in
  match normalize_checked assigned with
  | Raised exception _ => Raised exception (with_wavefunction sim assigned)
  | OutsideModel => OutsideModel
  | Completed _ =>
      if Rlt_dec 0 coherence_time' then
        if overflows (1.0 / coherence_time')
           || underflows (1.0 / coherence_time') then OutsideModel
        else Completed (initialize sim left_amplitude right_amplitude
                                   coherence_time' noise_level')
      else Completed (initialize sim left_amplitude right_amplitude
                                 coherence_time' noise_level')
  end.

(** [evolve_quantum_state(dt)]: when the final [normalize()] raises, the
    noise has already been added. *)
Definition evolve_checked (sim : QuantumWalkSimulator) (dt : R)
    (d : evolution_draws) : outcome QuantumWalkSimulator :=
  match apply_decoherence_checked (wavefunction sim) (decoherence_rate sim) dt
                                  (phase_draw d) with
  | Raised exception w => Raised exception (with_wavefunction sim w)
  | OutsideModel => OutsideModel
  | Completed w =>
      if Rlt_dec 0 (noise_level sim) then
        let sigma := noise_level sim * dt in
        let noise_alpha := mkC (gauss 0 sigma (gauss_draw1 d))
                               (gauss 0 sigma (gauss_draw2 d)) in
        let noise_beta := mkC (gauss 0 sigma (gauss_draw3 d))
                              (gauss 0 sigma (gauss_draw4 d)) in
        let noisy := mkWavefunction (Cadd (alpha w) noise_alpha)
                                    (Cadd (beta w) noise_beta) in
        if overflows (noise_level sim) || overflows sigma
           || overflows (gauss_draw1 d) || overflows (gauss_draw2 d)
           || overflows (gauss_draw3 d) || overflows (gauss_draw4 d)
           || complex_overflows noise_alpha || complex_overflows noise_beta
        then OutsideModel
        else
          match normalize_checked noisy with
          | Completed normalized => Completed (with_wavefunction sim normalized)
          | Raised exception _ => Raised exception (with_wavefunction sim noisy)
          | OutsideModel => OutsideModel
          end
      else Completed (with_wavefunction sim w)
  end.

(** Zero, or of a magnitude between two bounds. *)
Definition zero_or_within (low high x : R) : Prop :=
  x = 0 \/ low <= Rabs x <= high.

(** The integer the draw of [_quantum_random] is the millionth part of. *)
Definition quantum_random_micros (e : entropy_reading) : Z :=
  (Z.lxor (Z.lxor (clock_micros e mod 1000000)
                  ((clock_hash e mod 1000000) mod 1000000))
          (random_bits e mod 1000000)
   mod 1000000)%Z.

(** ** Complex magnitudes *)

Lemma Cabs_pow2 (z : complex) :
  Cabs z ^ 2 = real z * real z + imag z * imag z.
Proof.
  unfold Cabs. apply pow2_sqrt. nra.
Qed.

Lemma Cabs_nonneg (z : complex) : 0 <= Cabs z.
Proof. apply sqrt_pos. Qed.

Lemma Cabs_one : Cabs (mkC 1 0) = 1.
Proof.
  unfold Cabs; simpl. replace (1 * 1 + 0 * 0) with 1 by ring. apply sqrt_1.
Qed.

Lemma Cabs_zero : Cabs (mkC 0 0) = 0.
Proof.
  unfold Cabs; simpl. replace (0 * 0 + 0 * 0) with 0 by ring. apply sqrt_0.
Qed.

Lemma Cabs_eq_0 (z : complex) : Cabs z = 0 -> z = mkC 0 0.
Proof.
  intros H. destruct z as [x y]. unfold Cabs in H; simpl in H.
  apply sqrt_eq_0 in H; [| nra].
  assert (x = 0) by nra. assert (y = 0) by nra. subst. reflexivity.
Qed.

Lemma Cabs_Cmul (a b : complex) : Cabs (Cmul a b) = Cabs a * Cabs b.
Proof.
  unfold Cabs, Cmul; simpl.
  rewrite <- sqrt_mult by nra. f_equal. ring.
Qed.

Lemma Cabs_Cconj (a : complex) : Cabs (Cconj a) = Cabs a.
Proof. unfold Cabs, Cconj; simpl. f_equal. ring. Qed.

Lemma Cabs_pow2_Cdiv_float (a : complex) (n : R) :
  n <> 0 -> Cabs (Cdiv a (of_float n)) ^ 2 = Cabs a ^ 2 / n ^ 2.
Proof.
  intros Hn. rewrite !Cabs_pow2. unfold Cdiv, of_float; simpl. field. exact Hn.
Qed.

(** ** Normalization *)

Lemma norm_squared_nonneg (w : QuantumWavefunction) : 0 <= norm_squared w.
Proof.
  unfold norm_squared. rewrite !Cabs_pow2. nra.
Qed.

Lemma norm_squared_zero (w : QuantumWavefunction) :
  norm_squared w = 0 <-> w = mkWavefunction (mkC 0 0) (mkC 0 0).
Proof.
  split.
  - destruct w as [[a b] [c d]]. unfold norm_squared. rewrite !Cabs_pow2. simpl.
    intros H. assert (a = 0) by nra. assert (b = 0) by nra.
    assert (c = 0) by nra. assert (d = 0) by nra. subst. reflexivity.
  - intros ->. unfold norm_squared. rewrite !Cabs_pow2. simpl. ring.
Qed.

Lemma normalize_zero_norm (w : QuantumWavefunction) :
  norm_squared w = 0 -> normalize w = w.
Proof.
  intros H. unfold normalize. fold (norm_squared w). rewrite H, sqrt_0.
  destruct (Rlt_dec 0 0) as [Hlt | _]; [lra | reflexivity].
Qed.

Lemma normalize_probabilities (w : QuantumWavefunction) :
  norm_squared w <> 0 ->
  get_probabilities (normalize w)
  = (Cabs (alpha w) ^ 2 / norm_squared w, Cabs (beta w) ^ 2 / norm_squared w).
Proof.
  intros Hnz. pose proof (norm_squared_nonneg w) as Hge.
  assert (Hpos : 0 < norm_squared w) by lra.
  unfold normalize. fold (norm_squared w).
  destruct (Rlt_dec 0 (sqrt (norm_squared w))) as [Hs | Hs].
  - unfold get_probabilities. cbn [alpha beta].
    rewrite !Cabs_pow2_Cdiv_float by lra.
    rewrite pow2_sqrt by lra. reflexivity.
  - exfalso. apply Hs. apply sqrt_lt_R0. exact Hpos.
Qed.

Lemma normalize_unit (w : QuantumWavefunction) :
  norm_squared w <> 0 -> norm_squared (normalize w) = 1.
Proof.
  intros Hnz. pose proof (normalize_probabilities w Hnz) as H.
  unfold get_probabilities in H.
  assert (Ha := f_equal fst H). assert (Hb := f_equal snd H).
  cbn [fst snd] in Ha, Hb.
  unfold norm_squared at 1. rewrite Ha, Hb. unfold norm_squared. field.
  exact Hnz.
Qed.

(** ** Decoherence *)

Lemma Cabs_Cexp (z : complex) : Cabs (Cexp z) = exp (real z).
Proof.
  unfold Cabs, Cexp; simpl.
  pose proof (sin2_cos2 (imag z)) as Hsc. unfold Rsqr in Hsc.
  replace (exp (real z) * cos (imag z) * (exp (real z) * cos (imag z))
           + exp (real z) * sin (imag z) * (exp (real z) * sin (imag z)))
    with (exp (real z) * exp (real z)
          * (sin (imag z) * sin (imag z) + cos (imag z) * cos (imag z)))
    by ring.
  rewrite Hsc, Rmult_1_r. apply sqrt_square. left. apply exp_pos.
Qed.

Lemma Cabs_of_float (x : R) : 0 <= x -> Cabs (of_float x) = x.
Proof.
  intros Hx. unfold Cabs, of_float; simpl.
  replace (x * x + 0 * 0) with (x * x) by ring. apply sqrt_square. exact Hx.
Qed.

(** The factor both amplitudes are multiplied by has the magnitude of the
    decay factor: the phase factor has magnitude one. *)
Lemma Cabs_decoherence_factor (phase_noise decay_factor : R) :
  0 <= decay_factor ->
  Cabs (Cmul (Cexp (Cmul Ci (of_float phase_noise))) (of_float decay_factor))
  = decay_factor.
Proof.
  intros Hd. rewrite Cabs_Cmul, Cabs_Cexp, Cabs_of_float by exact Hd.
  unfold Cmul, Ci, of_float; simpl.
  replace (0 * phase_noise - 1 * 0) with 0 by ring.
  rewrite exp_0. ring.
Qed.

Lemma apply_decoherence_probabilities (w : QuantumWavefunction)
    (rate dt u : R) :
  norm_squared w <> 0 ->
  get_probabilities (apply_decoherence w rate dt u)
  = (Cabs (alpha w) ^ 2 / norm_squared w, Cabs (beta w) ^ 2 / norm_squared w).
Proof.
  intros Hnz. unfold apply_decoherence.
  set (d := exp (- rate * dt)).
  set (f := Cmul _ (of_float d)).
  assert (Hd : 0 < d) by apply exp_pos.
  assert (Hf : Cabs f = d) by (apply Cabs_decoherence_factor; lra).
  set (w' := mkWavefunction (Cmul (alpha w) f) (Cmul (beta w) f)).
  assert (Hn : norm_squared w' = norm_squared w * d ^ 2).
  { unfold norm_squared, w'; cbn [alpha beta].
    rewrite !Cabs_Cmul, Hf. ring. }
  assert (Hnz' : norm_squared w' <> 0).
  { rewrite Hn. apply Rmult_integral_contrapositive_currified;
      [exact Hnz | apply pow_nonzero; lra]. }
  rewrite (normalize_probabilities w' Hnz'), Hn.
  unfold w'; cbn [alpha beta]. rewrite !Cabs_Cmul, Hf.
  f_equal; field; split; (lra || exact Hnz).
Qed.

Lemma apply_decoherence_unit (w : QuantumWavefunction) (rate dt u : R) :
  norm_squared w <> 0 -> norm_squared (apply_decoherence w rate dt u) = 1.
Proof.
  intros Hnz. pose proof (apply_decoherence_probabilities w rate dt u Hnz) as H.
  unfold get_probabilities in H.
  assert (Ha := f_equal fst H). assert (Hb := f_equal snd H).
  cbn [fst snd] in Ha, Hb.
  unfold norm_squared at 1. rewrite Ha, Hb. unfold norm_squared. field.
  exact Hnz.
Qed.

(** The pair [reset_to_superposition] installs. *)
Lemma reset_pair_norm_squared :
  norm_squared (mkWavefunction (mkC 0.707 0) (mkC 0.707 0)) = 0.999698.
Proof.
  unfold norm_squared. rewrite !Cabs_pow2. simpl. lra.
Qed.

Lemma make_quantum_decision_wavefunction (sim : QuantumWalkSimulator)
    (e : entropy_reading) (now : R) :
  wavefunction (snd (make_quantum_decision sim e now))
  = mkWavefunction (mkC 0.707 0) (mkC 0.707 0).
Proof.
  unfold make_quantum_decision.
  destruct (get_probabilities (wavefunction sim)) as [pl pr].
  destruct (collapse (wavefunction sim) e) as [dir w]. reflexivity.
Qed.

Lemma normalize_unit_or_unchanged (w : QuantumWavefunction) :
  norm_squared (normalize w) = 1
  \/ (w = mkWavefunction (mkC 0 0) (mkC 0 0) /\ normalize w = w).
Proof.
  destruct (Req_dec (norm_squared w) 0) as [Hz | Hnz].
  - right. split; [apply norm_squared_zero, Hz | apply normalize_zero_norm, Hz].
  - left. apply normalize_unit, Hnz.
Qed.

Lemma initialize_unit_or_zero (sim : QuantumWalkSimulator)
    (l r ct nl : R) :
  norm_squared (wavefunction (initialize sim l r ct nl)) = 1
  \/ (l = 0 /\ r = 0 /\
      wavefunction (initialize sim l r ct nl)
      = mkWavefunction (mkC 0 0) (mkC 0 0)).
Proof.
  unfold initialize; cbn [wavefunction].
  destruct (normalize_unit_or_unchanged
              (mkWavefunction (mkC l 0) (mkC r 0))) as [H | [Hz Hn]].
  - left. exact H.
  - right. injection Hz as Hl Hr. subst l r. rewrite Hn. auto.
Qed.

(** ** Collapse *)

Lemma quantum_random_range (e : entropy_reading) :
  0 <= quantum_random e < 1.
Proof.
  unfold quantum_random.
  set (combined := fold_left _ _ _).
  pose proof (Z.mod_pos_bound combined 1000000 ltac:(lia)) as [Hlo Hhi].
  apply IZR_le in Hlo. apply IZR_lt in Hhi.
  split.
  - apply Rmult_le_reg_r with 1000000; [lra |]. 
    unfold Rdiv. rewrite Rmult_assoc, Rinv_l by lra. lra.
  - apply Rmult_lt_reg_r with 1000000; [lra |].
    unfold Rdiv. rewrite Rmult_assoc, Rinv_l by lra. lra.
Qed.

Lemma collapse_cases (w : QuantumWavefunction) (e : entropy_reading) :
  collapse w e
  = if Rlt_dec (quantum_random e) (fst (get_probabilities w))
    then ("LEFT"%string, mkWavefunction (mkC 1 0) (mkC 0 0))
    else ("RIGHT"%string, mkWavefunction (mkC 0 0) (mkC 1 0)).
Proof. reflexivity. Qed.

Lemma initialize_left_certain (sim : QuantumWalkSimulator) :
  wavefunction (initialize sim 1.0 0.0 1.0 0)
  = mkWavefunction (mkC 1 0) (mkC 0 0).
Proof.
  unfold initialize; cbn [wavefunction]. unfold normalize; cbn [alpha beta].
  replace (mkC 1.0 0) with (mkC 1 0) by (f_equal; lra).
  replace (mkC 0.0 0) with (mkC 0 0) by (f_equal; lra).
  rewrite Cabs_one, Cabs_zero.
  replace (1 ^ 2 + 0 ^ 2) with 1 by ring. rewrite sqrt_1.
  destruct (Rlt_dec 0 1) as [_ | H]; [| lra].
  unfold Cdiv, of_float; simpl. f_equal; f_equal; field.
Qed.

Lemma collapse_all_left_certain (es : list entropy_reading) :
  Forall (eq "LEFT"%string)
         (collapse_all (mkWavefunction (mkC 1 0) (mkC 0 0)) es).
Proof.
  induction es as [| e rest IH]; simpl.
  - constructor.
  - unfold collapse, get_probabilities; cbn [alpha beta].
    rewrite Cabs_one.
    destruct (Rlt_dec (quantum_random e) (1 ^ 2)) as [_ | Hge].
    + constructor; [reflexivity | exact IH].
    + exfalso. apply Hge. pose proof (quantum_random_range e). lra.
Qed.

(** ** The engine between calls *)

Lemma make_quantum_decision_unfold (sim : QuantumWalkSimulator)
    (e : entropy_reading) (now : R) :
  let p := get_probabilities (wavefunction sim) in
  let c := collapse (wavefunction sim) e in
  let decision :=
    mkDecision (fst c)
               (if String.eqb (fst c) "LEFT" then fst p else snd p)
               (alpha (snd c)) (beta (snd c))
               (calculate_entropy sim) (calculate_coherence sim) now in
  make_quantum_decision sim e now
  = (decision,
     mkSimulator (mkWavefunction (mkC 0.707 0) (mkC 0.707 0)) SUPERPOSITION
                 (decision_history sim ++ [decision])
                 (entropy_history sim) (coherence_history sim)
                 (decoherence_rate sim) (coherence_time sim) (noise_level sim)
                 (last_decision_time sim) (total_decisions sim + 1)).
Proof.
  unfold make_quantum_decision.
  destruct (get_probabilities (wavefunction sim)) as [pl pr].
  destruct (collapse (wavefunction sim) e) as [dir w]. reflexivity.
Qed.

Lemma step_current_state (sim : QuantumWalkSimulator) (t : R)
    (d : evolution_draws) :
  current_state (step sim t d) = current_state sim.
Proof.
  unfold step, evolve_quantum_state.
  destruct (Rlt_dec 0 (last_decision_time sim)); [| reflexivity].
  destruct (Rlt_dec 0 (noise_level sim)); reflexivity.
Qed.

Lemma perform_superposition (sim : QuantumWalkSimulator) (c : engine_call) :
  current_state sim = SUPERPOSITION ->
  current_state (perform sim c) = SUPERPOSITION.
Proof.
  intros H. destruct c as [l r ct nl | t d | e now]; cbn [perform].
  - reflexivity.
  - rewrite step_current_state. exact H.
  - rewrite make_quantum_decision_unfold. reflexivity.
Qed.

Lemma run_superposition (calls : list engine_call) :
  forall sim, current_state sim = SUPERPOSITION ->
              current_state (run sim calls) = SUPERPOSITION.
Proof.
  unfold run. induction calls as [| c rest IH]; intros sim H; simpl.
  - exact H.
  - apply IH, perform_superposition, H.
Qed.

(** ** Properties of the specification *)

(** C1, evaluated where it fails.  [make_quantum_decision] ends in
    [reset_to_superposition], which installs the pair (0.707, 0.707) and does
    not normalize it: on every simulator, and in particular on a freshly
    constructed one, the call leaves [|alpha|^2 + |beta|^2 = 0.999698], a
    nonzero pair outside [1 - 1e-6, 1 + 1e-6]. *)
Theorem make_decision_leaves_pair_unnormalized :
  forall (sim : QuantumWalkSimulator) (e : entropy_reading) (now : R),
    let w := wavefunction (snd (make_quantum_decision sim e now)) in
    norm_squared w = 0.999698
    /\ norm_squared w < 1 - 1e-6
    /\ w <> mkWavefunction (mkC 0 0) (mkC 0 0).
Proof.
  intros sim e now w. subst w.
  rewrite make_quantum_decision_wavefunction, reset_pair_norm_squared.
  split; [reflexivity | split; [lra |]].
  intros H. apply (f_equal (fun v => real (alpha v))) in H.
  cbn [alpha real] in H. lra.
Qed.

(** C3.  The Decision returned by [make_quantum_decision] carries the
    direction of the collapse, the probability that direction had before the
    collapse, and the entropy and coherence before the collapse; it is
    appended to [decision_history]; the call leaves the pair at
    (0.707, 0.707) and the state at SUPERPOSITION.  Hence after any sequence
    of calls on a new simulator the state is SUPERPOSITION. *)
Theorem make_decision_spec :
  (forall sim e now,
     let d := fst (make_quantum_decision sim e now) in
     let sim' := snd (make_quantum_decision sim e now) in
     let p := get_probabilities (wavefunction sim) in
     direction d = fst (collapse (wavefunction sim) e)
     /\ probability d
        = (if String.eqb (direction d) "LEFT" then fst p else snd p)
     /\ entropy d = calculate_entropy sim
     /\ coherence d = calculate_coherence sim
     /\ decision_history sim' = decision_history sim ++ [d]
     /\ wavefunction sim' = mkWavefunction (mkC 0.707 0) (mkC 0.707 0)
     /\ current_state sim' = SUPERPOSITION)
  /\ (forall calls, current_state (run new_simulator calls) = SUPERPOSITION).
Proof.
  split.
  - intros sim e now. rewrite make_quantum_decision_unfold.
    cbn [fst snd direction probability entropy coherence decision_history
         wavefunction current_state].
    repeat split.
  - intros calls. apply run_superposition. reflexivity.
Qed.

(** ** Time steps *)

Lemma step_first_call (sim : QuantumWalkSimulator) (t : R)
    (d : evolution_draws) :
  ~ 0 < last_decision_time sim ->
  step sim t d = with_last_decision_time sim t.
Proof.
  intros H. unfold step.
  destruct (Rlt_dec 0 (last_decision_time sim)); [contradiction | reflexivity].
Qed.

Lemma step_later_call (sim : QuantumWalkSimulator) (t : R)
    (d : evolution_draws) :
  0 < last_decision_time sim ->
  step sim t d
  = with_last_decision_time
      (step_with_dt sim (t - last_decision_time sim) d) t.
Proof.
  intros H. unfold step, step_with_dt.
  destruct (Rlt_dec 0 (last_decision_time sim)); [reflexivity | contradiction].
Qed.

Lemma step_with_dt_entropy_history_length (sim : QuantumWalkSimulator)
    (dt : R) (d : evolution_draws) :
  entropy_history sim = [] ->
  List.length (entropy_history (step_with_dt sim dt d)) = 1%nat.
Proof.
  intros H. unfold step_with_dt, update_histories; cbn [entropy_history].
  assert (He : entropy_history (evolve_quantum_state sim dt d) = []).
  { unfold evolve_quantum_state.
    destruct (Rlt_dec 0 (noise_level sim)); exact H. }
  rewrite He. reflexivity.
Qed.

(** C4, where it fails.  On a new simulator [step] reads the clock (here
    100) and, because no earlier reading is stored, neither evolves the pair
    nor appends to the histories; whatever elapsed time one supplies, a step
    over that time would have appended an entropy value. *)
Lemma step_first_call_skips_evolution :
  step new_simulator 100 (mkDraws 0 0 0 0 0)
  = with_last_decision_time new_simulator 100
  /\ entropy_history (step new_simulator 100 (mkDraws 0 0 0 0 0)) = []
  /\ coherence_history (step new_simulator 100 (mkDraws 0 0 0 0 0)) = []
  /\ ~ (exists dt,
          entropy_history (step new_simulator 100 (mkDraws 0 0 0 0 0))
          = entropy_history (step_with_dt new_simulator dt (mkDraws 0 0 0 0 0))).
Proof.
  assert (H : step new_simulator 100 (mkDraws 0 0 0 0 0)
              = with_last_decision_time new_simulator 100).
  { apply step_first_call. cbn [new_simulator last_decision_time]. lra. }
  rewrite H. repeat split.
  intros [dt Hdt].
  pose proof (step_with_dt_entropy_history_length new_simulator dt
                (mkDraws 0 0 0 0 0) eq_refl) as Hlen.
  rewrite <- Hdt in Hlen. discriminate Hlen.
Qed.

(** C4, amended.  [step] takes no elapsed time: it reads the clock.  When an
    earlier reading is stored ([last_decision_time > 0]) it uses
    [dt = current_time - last_decision_time]: it applies
    [apply_decoherence(decoherence_rate, dt)], then, when [noise_level > 0],
    adds to the real and imaginary parts of both amplitudes four values
    [gauss(0, noise_level * dt)] and renormalizes, appends the entropy and
    the coherence of the evolved pair to the capped histories, and stores
    the reading.  Otherwise it only stores the reading. *)
Theorem step_spec :
  forall (sim : QuantumWalkSimulator) (current_time : R) (d : evolution_draws),
    (0 < last_decision_time sim ->
     let dt := current_time - last_decision_time sim in
     let w := apply_decoherence (wavefunction sim) (decoherence_rate sim) dt
                                (phase_draw d) in
     let sigma := noise_level sim * dt in
     let noisy :=
       mkWavefunction
         (Cadd (alpha w) (mkC (0 + gauss_draw1 d * sigma)
                              (0 + gauss_draw2 d * sigma)))
         (Cadd (beta w) (mkC (0 + gauss_draw3 d * sigma)
                             (0 + gauss_draw4 d * sigma))) in
     let sim' := step sim current_time d in
     wavefunction sim'
     = (if Rlt_dec 0 (noise_level sim) then normalize noisy else w)
     /\ entropy_history sim'
        = append_capped (entropy_history sim) (calculate_entropy sim')
     /\ coherence_history sim'
        = append_capped (coherence_history sim) (calculate_coherence sim')
     /\ last_decision_time sim' = current_time)
    /\ (~ 0 < last_decision_time sim ->
        step sim current_time d = with_last_decision_time sim current_time).
Proof.
  intros sim current_time d. split.
  - intros Hlast. rewrite (step_later_call sim current_time d Hlast).
    unfold step_with_dt, update_histories, evolve_quantum_state,
      calculate_entropy, calculate_coherence, gauss.
    destruct (Rlt_dec 0 (noise_level sim));
      cbn [with_last_decision_time with_wavefunction wavefunction
           entropy_history coherence_history last_decision_time];
      repeat split.
  - apply step_first_call.
Qed.

Lemma step_spec_witness :
  (0 < last_decision_time (with_last_decision_time new_simulator 1)
   /\ last_decision_time
        (step (with_last_decision_time new_simulator 1) 2 (mkDraws 0 0 0 0 0))
      = 2)
  /\ (~ 0 < last_decision_time new_simulator
      /\ step new_simulator 2 (mkDraws 0 0 0 0 0)
         = with_last_decision_time new_simulator 2).
Proof.
  split.
  - assert (H : 0 < last_decision_time (with_last_decision_time new_simulator 1))
      by (cbn [with_last_decision_time last_decision_time]; lra).
    split; [exact H |].
    exact (proj2 (proj2 (proj2
             (proj1 (step_spec (with_last_decision_time new_simulator 1) 2
                               (mkDraws 0 0 0 0 0)) H)))).
  - assert (H : ~ 0 < last_decision_time new_simulator)
      by (cbn [new_simulator last_decision_time]; lra).
    split; [exact H |].
    exact (proj2 (step_spec new_simulator 2 (mkDraws 0 0 0 0 0)) H).
Defined.

(** ** Histories *)

Lemma append_capped_cases {A : Type} (h : list A) (x : A) :
  append_capped h x
  = if (List.length h <? max_history)%nat then h ++ [x] else tl h ++ [x].
Proof.
  unfold append_capped. rewrite length_app. cbn [List.length].
  unfold max_history.
  destruct (Nat.ltb_spec 1000 (List.length h + 1)) as [Hgt | Hle];
    destruct (Nat.ltb_spec (List.length h) 1000) as [Hlt | Hge];
    try lia; try reflexivity.
  destruct h as [| y h']; [cbn [List.length] in Hge; lia | reflexivity].
Qed.

Lemma append_capped_length {A : Type} (h : list A) (x : A) :
  (List.length h <= max_history)%nat ->
  (List.length (append_capped h x) <= max_history)%nat.
Proof.
  intros Hle. rewrite append_capped_cases. unfold max_history in *.
  destruct (Nat.ltb_spec (List.length h) 1000) as [Hlt | Hge].
  - rewrite length_app. cbn [List.length]. lia.
  - destruct h as [| y h']; cbn [tl List.length] in *;
      rewrite length_app; cbn [List.length]; lia.
Qed.

Lemma evolve_histories (sim : QuantumWalkSimulator) (dt : R)
    (d : evolution_draws) :
  decision_history (evolve_quantum_state sim dt d) = decision_history sim
  /\ entropy_history (evolve_quantum_state sim dt d) = entropy_history sim
  /\ coherence_history (evolve_quantum_state sim dt d) = coherence_history sim.
Proof.
  unfold evolve_quantum_state.
  destruct (Rlt_dec 0 (noise_level sim)); repeat split.
Qed.

Lemma perform_histories_capped (sim : QuantumWalkSimulator) (c : engine_call) :
  histories_capped sim -> histories_capped (perform sim c).
Proof.
  intros [He Hc]. destruct c as [l r ct nl | t d | e now]; cbn [perform].
  - split; cbn; unfold max_history; lia.
  - unfold step. destruct (Rlt_dec 0 (last_decision_time sim)).
    + destruct (evolve_histories sim (t - last_decision_time sim) d)
        as (_ & He' & Hc').
      split; cbn [with_last_decision_time update_histories entropy_history
                  coherence_history];
        apply append_capped_length; [rewrite He' | rewrite Hc']; assumption.
    + split; assumption.
  - rewrite make_quantum_decision_unfold. split; assumption.
Qed.

Lemma run_histories_capped (calls : list engine_call) :
  forall sim, histories_capped sim -> histories_capped (run sim calls).
Proof.
  unfold run. induction calls as [| c rest IH]; intros sim H; simpl.
  - exact H.
  - apply IH, perform_histories_capped, H.
Qed.

Lemma perform_decision_history_length (sim : QuantumWalkSimulator)
    (c : engine_call) :
  List.length (decision_history (perform sim c))
  = decisions_after (List.length (decision_history sim)) c.
Proof.
  destruct c as [l r ct nl | t d | e now]; cbn [perform decisions_after].
  - reflexivity.
  - unfold step. destruct (Rlt_dec 0 (last_decision_time sim)).
    + cbn [with_last_decision_time update_histories decision_history].
      now destruct (evolve_histories sim (t - last_decision_time sim) d)
        as (-> & _ & _).
    + reflexivity.
  - rewrite make_quantum_decision_unfold. cbn [snd decision_history].
    rewrite length_app. cbn [List.length]. lia.
Qed.

Lemma run_decision_history_length (calls : list engine_call) :
  forall sim,
    List.length (decision_history (run sim calls))
    = fold_left decisions_after calls (List.length (decision_history sim)).
Proof.
  unfold run. induction calls as [| c rest IH]; intros sim; simpl.
  - reflexivity.
  - rewrite IH, perform_decision_history_length. reflexivity.
Qed.

Lemma fold_decisions_after_repeat (e : entropy_reading) (now : R) (n k : nat) :
  fold_left decisions_after (repeat (CallMakeDecision e now) n) k = (n + k)%nat.
Proof.
  revert k. induction n as [| n IH]; intros k; simpl.
  - reflexivity.
  - rewrite IH. lia.
Qed.

(** Decisions are only ever appended: the records already present stay at
    the front. *)
Lemma run_decisions_keep_prefix (e : entropy_reading) (now : R) (n : nat) :
  forall sim,
  exists added,
    decision_history (run sim (repeat (CallMakeDecision e now) n))
    = decision_history sim ++ added.
Proof.
  unfold run. induction n as [| n IH]; intros sim; simpl.
  - exists []. now rewrite app_nil_r.
  - destruct (IH (snd (make_quantum_decision sim e now))) as [added Ha].
    rewrite Ha, make_quantum_decision_unfold. cbn [snd decision_history].
    eexists. rewrite <- app_assoc. reflexivity.
Qed.

Lemma run_decisions_keep_first (e : entropy_reading) (now : R) (n : nat)
    (sim : QuantumWalkSimulator) :
  decision_history sim = [] ->
  hd_error (decision_history (run sim (repeat (CallMakeDecision e now) (S n))))
  = Some (fst (make_quantum_decision sim e now)).
Proof.
  intros Hempty. cbn [repeat]. unfold run. cbn [fold_left perform].
  destruct (run_decisions_keep_prefix e now n
              (snd (make_quantum_decision sim e now))) as [added Ha].
  unfold run in Ha. rewrite Ha, make_quantum_decision_unfold.
  cbn [fst snd decision_history]. rewrite Hempty. reflexivity.
Qed.

(** C5, where it fails.  After 1001 [make_quantum_decision] calls on a new
    simulator, [decision_history] holds 1001 records, and its first record is
    still the Decision returned by the first call. *)
Lemma decision_history_grows_past_capacity :
  List.length
    (decision_history
       (run new_simulator (repeat (CallMakeDecision (mkEntropy 0 0 0) 0) 1001)))
  = 1001%nat
  /\ hd_error
       (decision_history
          (run new_simulator (repeat (CallMakeDecision (mkEntropy 0 0 0) 0) 1001)))
     = Some (fst (make_quantum_decision new_simulator (mkEntropy 0 0 0) 0)).
Proof.
  split.
  - rewrite run_decision_history_length, fold_decisions_after_repeat.
    reflexivity.
  - apply (run_decisions_keep_first (mkEntropy 0 0 0) 0 1000 new_simulator).
    reflexivity.
Qed.

(** C5, amended.  [entropy_history] and [coherence_history] are FIFO
    buffers of capacity 1000: after any sequence of calls on a new simulator
    neither has more than 1000 entries, and [update_histories] appends at the
    end, dropping the oldest entry once 1000 are held.  [decision_history]
    has no capacity: [make_quantum_decision] appends one record whatever the
    length, so the length after a sequence of calls is the number of
    decisions made since the last [initialize]. *)
Theorem histories_spec :
  (forall calls,
     (List.length (entropy_history (run new_simulator calls)) <= 1000)%nat
     /\ (List.length (coherence_history (run new_simulator calls)) <= 1000)%nat)
  /\ (forall sim,
        entropy_history (update_histories sim)
        = (if (List.length (entropy_history sim) <? 1000)%nat
           then entropy_history sim ++ [calculate_entropy sim]
           else tl (entropy_history sim) ++ [calculate_entropy sim])
        /\ coherence_history (update_histories sim)
           = (if (List.length (coherence_history sim) <? 1000)%nat
              then coherence_history sim ++ [calculate_coherence sim]
              else tl (coherence_history sim) ++ [calculate_coherence sim]))
  /\ (forall sim e now,
        decision_history (snd (make_quantum_decision sim e now))
        = decision_history sim ++ [fst (make_quantum_decision sim e now)])
  /\ (forall sim calls,
        List.length (decision_history (run sim calls))
        = fold_left decisions_after calls (List.length (decision_history sim))).
Proof.
  split; [| split; [| split]].
  - intros calls. apply (run_histories_capped calls new_simulator).
    split; cbn; unfold max_history; lia.
  - intros sim. unfold update_histories; cbn [entropy_history coherence_history].
    rewrite !append_capped_cases. split; reflexivity.
  - intros sim e now. rewrite make_quantum_decision_unfold. reflexivity.
  - intros sim calls. apply run_decision_history_length.
Qed.

(** ** Analyzer: short inputs *)

(** C7, where it fails.  On a one-element list
    [analyze_randomness_quality] returns the empty dictionary: the report
    has no entry at all, hence no "result" or "status" entry saying
    "insufficient_data". *)
Lemma analyze_single_decision_unmarked :
  analyze_randomness_quality
    [left_decision] = []
  /\ dict_get
       (analyze_randomness_quality
          [left_decision]) "result" = None
  /\ dict_get
       (analyze_randomness_quality
          [left_decision]) "status" = None.
Proof. repeat split. Qed.

(** C7, amended.  Called with fewer than 2 decisions,
    [analyze_randomness_quality] returns the empty dictionary, without any
    entry (and without raising: the function has no failing operation on
    that path). *)
Theorem analyze_short_input :
  forall decisions : list QuantumDecision,
    (List.length decisions < 2)%nat ->
    analyze_randomness_quality decisions = []
    /\ forall key, dict_get (analyze_randomness_quality decisions) key = None.
Proof.
  intros decisions Hlen. unfold analyze_randomness_quality.
  destruct (Nat.ltb_spec (List.length decisions) 2) as [_ | Hge]; [| lia].
  split; reflexivity.
Qed.

Lemma analyze_short_input_witness :
  (List.length [left_decision] < 2)%nat
  /\ analyze_randomness_quality
       [left_decision] = [].
Proof.
  assert (H : (List.length
                 [left_decision] < 2)%nat)
    by (cbn [List.length]; lia).
  split; [exact H |].
  exact (proj1 (analyze_short_input _ H)).
Defined.

(** ** Runs *)

Lemma maximal_runs_head (y : Z) (r : list Z) :
  exists run runs, maximal_runs (y :: r) = (y :: run) :: runs.
Proof.
  cbn [maximal_runs].
  destruct (maximal_runs r) as [| [| z run] runs]; try (eexists; eexists; reflexivity).
  destruct (y =? z)%Z; eexists; eexists; reflexivity.
Qed.

Lemma maximal_runs_cons (x y : Z) (r : list Z) :
  exists run runs,
    maximal_runs (y :: r) = (y :: run) :: runs
    /\ maximal_runs (x :: y :: r)
       = if (x =? y)%Z then (x :: y :: run) :: runs
         else [x] :: (y :: run) :: runs.
Proof.
  destruct (maximal_runs_head y r) as (run & runs & H).
  exists run, runs. split; [exact H |].
  change (maximal_runs (x :: y :: r))
    with (match maximal_runs (y :: r) with
          | (y0 :: run0) :: runs0 =>
              if (x =? y0)%Z then (x :: y0 :: run0) :: runs0
              else [x] :: (y0 :: run0) :: runs0
          | _ => [[x]]
          end).
  rewrite H. reflexivity.
Qed.

(** [maximal_runs] splits the sequence, in order, into nonempty constant
    blocks of which no two neighbours carry the same value. *)
Lemma maximal_runs_sound (l : list Z) :
  List.concat (maximal_runs l) = l
  /\ Forall (fun run => run <> [] /\ all_identical run) (maximal_runs l)
  /\ runs_alternate (maximal_runs l).
Proof.
  induction l as [| x [| y r] IH].
  - repeat split. constructor.
  - cbn. repeat split. constructor; [| constructor].
    split; [discriminate |]. intros a b [<- | []] [<- | []]. reflexivity.
  - destruct (maximal_runs_cons x y r) as (run & runs & Hyr & Hxyr).
    rewrite Hxyr. rewrite Hyr in IH. destruct IH as (Hc & Hf & Ha).
    inversion Hf as [| ? ? [_ Hconst] Hrest]; subst.
    destruct (Z.eqb_spec x y) as [-> | Hne].
    + split; [| split].
      * cbn [List.concat app] in *. now rewrite Hc.
      * constructor; [| exact Hrest]. split; [discriminate |].
        intros a b Hin1 Hin2.
        assert (Ha' : a = y).
        { destruct Hin1 as [<- | Hin1]; [reflexivity |].
          apply Hconst; [exact Hin1 | now left]. }
        assert (Hb' : b = y).
        { destruct Hin2 as [<- | Hin2]; [reflexivity |].
          apply Hconst; [exact Hin2 | now left]. }
        congruence.
      * destruct runs as [| run2 runs']; [exact I |].
        cbn [runs_alternate hd_error] in *. exact Ha.
    + split; [| split].
      * cbn [List.concat app] in *. now rewrite Hc.
      * constructor; [| exact Hf]. split; [discriminate |].
        intros a b [<- | []] [<- | []]. reflexivity.
      * cbn [runs_alternate hd_error]. split; [congruence | exact Ha].
Qed.

Lemma maximal_runs_length (l : list Z) :
  l <> [] ->
  Z.of_nat (List.length (maximal_runs l)) = (1 + value_changes l)%Z.
Proof.
  induction l as [| x [| y r] IH]; intros Hne.
  - contradiction.
  - reflexivity.
  - destruct (maximal_runs_cons x y r) as (run & runs & Hyr & Hxyr).
    rewrite Hxyr. specialize (IH ltac:(discriminate)). rewrite Hyr in IH.
    change (value_changes (x :: y :: r))
      with ((if (x =? y)%Z then 0 else 1) + value_changes (y :: r))%Z.
    destruct (x =? y)%Z; cbn [List.length] in *; lia.
Qed.

(** The body of the loop of [count_runs], for the sequence [l]. *)
Lemma count_runs_shift (x : Z) (rest : list Z) (k : nat) :
  forall (s : nat) (a : Z),
    (1 <= s)%nat ->
    fold_left
      (fun runs i =>
         if (nth i (x :: rest) 0 =? nth (i - 1) (x :: rest) 0)%Z then runs
         else (runs + 1)%Z)
      (seq (S s) k) a
    = fold_left
        (fun runs i =>
           if (nth i rest 0 =? nth (i - 1) rest 0)%Z then runs
           else (runs + 1)%Z)
        (seq s k) a.
Proof.
  induction k as [| k IH]; intros s a Hs.
  - reflexivity.
  - cbn [seq fold_left]. rewrite IH by lia. f_equal.
    destruct s as [| s']; [lia |].
    cbn [nth Nat.sub]. rewrite Nat.sub_0_r. reflexivity.
Qed.

Lemma count_runs_accumulate (l : list Z) (idx : list nat) :
  forall a : Z,
    fold_left
      (fun runs i =>
         if (nth i l 0 =? nth (i - 1) l 0)%Z then runs else (runs + 1)%Z)
      idx a
    = (a - 1
       + fold_left
           (fun runs i =>
              if (nth i l 0 =? nth (i - 1) l 0)%Z then runs else (runs + 1)%Z)
           idx 1)%Z.
Proof.
  induction idx as [| i idx IH]; intros a; cbn [fold_left].
  - lia.
  - destruct (nth i l 0 =? nth (i - 1) l 0)%Z.
    + apply IH.
    + rewrite IH. rewrite (IH (1 + 1)%Z). lia.
Qed.

Lemma count_runs_value_changes (l : list Z) :
  count_runs l = (1 + value_changes l)%Z.
Proof.
  induction l as [| x [| y r] IH]; try reflexivity.
  unfold count_runs in *.
  cbn [List.length Nat.sub] in *. rewrite Nat.sub_0_r in *.
  cbn [seq fold_left]. rewrite count_runs_shift by lia.
  rewrite count_runs_accumulate, IH.
  change (value_changes (x :: y :: r))
    with ((if (x =? y)%Z then 0 else 1) + value_changes (y :: r))%Z.
  cbn [nth Nat.sub]. rewrite (Z.eqb_sym y x).
  destruct (x =? y)%Z; lia.
Qed.

Lemma count_runs_maximal_runs (l : list Z) :
  l <> [] -> count_runs l = Z.of_nat (List.length (maximal_runs l)).
Proof.
  intros H. rewrite count_runs_value_changes, maximal_runs_length by exact H.
  reflexivity.
Qed.

Lemma sum_ints_cons (x : Z) (l : list Z) :
  sum_ints (x :: l) = (x + sum_ints l)%Z.
Proof.
  unfold sum_ints. cbn [fold_left].
  assert (H : forall a b, fold_left Z.add l (a + b)%Z
                          = (a + fold_left Z.add l b)%Z).
  { induction l as [| y l IH]; intros a b; cbn [fold_left].
    - reflexivity.
    - rewrite <- Z.add_assoc. apply IH. }
  rewrite <- (H x 0%Z). f_equal. lia.
Qed.

Lemma binary_sum_bounds (l : list Z) :
  binary l -> (0 <= sum_ints l <= Z.of_nat (List.length l))%Z.
Proof.
  induction 1 as [| x l Hx Hl IH].
  - cbn. lia.
  - rewrite sum_ints_cons. cbn [List.length]. destruct Hx; subst; lia.
Qed.

Lemma binary_sum_zero (l : list Z) :
  binary l -> (sum_ints l = 0%Z <-> Forall (eq 0%Z) l).
Proof.
  induction 1 as [| x l Hx Hl IH].
  - split; [constructor | reflexivity].
  - pose proof (binary_sum_bounds l Hl) as Hb. rewrite sum_ints_cons. split.
    + intros Hs. constructor; [destruct Hx; subst; lia |].
      apply IH. destruct Hx; subst; lia.
    + intros Hall. inversion Hall as [| ? ? <- Hrest]; subst.
      apply IH in Hrest. lia.
Qed.

Lemma binary_sum_full (l : list Z) :
  binary l ->
  (sum_ints l = Z.of_nat (List.length l) <-> Forall (eq 1%Z) l).
Proof.
  induction 1 as [| x l Hx Hl IH].
  - split; [constructor | reflexivity].
  - pose proof (binary_sum_bounds l Hl) as Hb. rewrite sum_ints_cons.
    cbn [List.length]. split.
    + intros Hs. constructor; [destruct Hx; subst; lia |].
      apply IH. destruct Hx; subst; lia.
    + intros Hall. inversion Hall as [| ? ? <- Hrest]; subst.
      apply IH in Hrest. lia.
Qed.

Lemma all_identical_constant (l : list Z) :
  all_identical l <-> exists v, Forall (eq v) l.
Proof.
  split.
  - intros H. destruct l as [| x l].
    + exists 0%Z. constructor.
    + exists x. apply Forall_forall. intros y Hy. apply H; [now left | exact Hy].
  - intros [v Hv] x y Hx Hy. rewrite Forall_forall in Hv.
    rewrite <- (Hv x Hx), <- (Hv y Hy). reflexivity.
Qed.

Lemma binary_degenerate (l : list Z) :
  binary l -> l <> [] ->
  ((sum_ints l = 0 \/ Z.of_nat (List.length l) - sum_ints l = 0)%Z
   <-> all_identical l).
Proof.
  intros Hb Hne. rewrite all_identical_constant. split.
  - intros [H0 | H1].
    + exists 0%Z. apply binary_sum_zero; assumption.
    + exists 1%Z. apply binary_sum_full; [assumption | lia].
  - intros [v Hv]. destruct l as [| x l]; [contradiction |].
    inversion Hb as [| ? ? Hx _]; subst.
    inversion Hv as [| ? ? <- _]; subst.
    destruct Hx as [-> | ->].
    + left. apply binary_sum_zero; assumption.
    + right. apply binary_sum_full in Hv; [lia | assumption].
Qed.

Lemma binary_sum_ones (l : list Z) :
  binary l ->
  sum_ints l = Z.of_nat (count_occ Z.eq_dec l 1%Z)
  /\ (Z.of_nat (List.length l) - sum_ints l)%Z
     = Z.of_nat (count_occ Z.eq_dec l 0%Z).
Proof.
  induction 1 as [| x l Hx Hl [IH1 IH0]].
  - split; reflexivity.
  - rewrite sum_ints_cons. cbn [List.length count_occ].
    destruct Hx as [-> | ->];
      destruct (Z.eq_dec _ _) as [E1 | E1]; try discriminate E1;
      destruct (Z.eq_dec _ _) as [E0 | E0]; try discriminate E0;
      try contradiction; split; lia.
Qed.

(** The three shapes of the report of [_runs_test]. *)
Lemma runs_test_short (l : list Z) :
  (List.length l < 2)%nat ->
  runs_test l
  = [("test", PyStr "runs"); ("result", PyStr "insufficient_data")]%string.
Proof.
  intros H. unfold runs_test.
  destruct (Z.ltb_spec (Z.of_nat (List.length l)) 2); [reflexivity | lia].
Qed.

Lemma runs_test_degenerate (l : list Z) :
  (2 <= List.length l)%nat ->
  (sum_ints l = 0 \/ Z.of_nat (List.length l) - sum_ints l = 0)%Z ->
  runs_test l = [("test", PyStr "runs"); ("result", PyStr "degenerate")]%string.
Proof.
  intros Hlen Hd. unfold runs_test.
  destruct (Z.ltb_spec (Z.of_nat (List.length l)) 2); [lia |].
  destruct (Z.eqb_spec (sum_ints l) 0);
    destruct (Z.eqb_spec (Z.of_nat (List.length l) - sum_ints l) 0);
    try reflexivity.
  lia.
Qed.

Lemma runs_test_full (l : list Z) :
  (2 <= List.length l)%nat ->
  sum_ints l <> 0%Z ->
  (Z.of_nat (List.length l) - sum_ints l)%Z <> 0%Z ->
  exists z_stat p_value verdict,
    runs_test l
    = [("test", PyStr "runs");
       ("runs_observed", PyInt (count_runs l));
       ("runs_expected",
        PyFloat (IZR (2 * sum_ints l * (Z.of_nat (List.length l) - sum_ints l))
                 / IZR (Z.of_nat (List.length l)) + 1));
       ("z_statistic", z_stat);
       ("p_value", p_value);
       ("result", PyStr verdict)]%string
    /\ (verdict = "random"%string \/ verdict = "non_random"%string).
Proof.
  intros Hlen H1 H0. unfold runs_test.
  destruct (Z.ltb_spec (Z.of_nat (List.length l)) 2); [lia |].
  destruct (Z.eqb_spec (sum_ints l) 0); [contradiction |].
  destruct (Z.eqb_spec (Z.of_nat (List.length l) - sum_ints l) 0);
    [contradiction |].
  cbn [orb].
  destruct (Rlt_dec 0 _); cbv zeta;
    match goal with
    | |- context [Rlt_dec 0.05 ?p] => destruct (Rlt_dec 0.05 p)
    end;
    do 3 eexists; (split; [reflexivity | auto]).
Qed.

Lemma decision_bits_binary (decisions : list QuantumDecision) :
  binary (map decision_bit decisions).
Proof.
  unfold binary. apply Forall_forall. intros x Hx.
  apply in_map_iff in Hx. destruct Hx as (d & <- & _).
  unfold decision_bit. destruct (String.eqb _ _); auto.
Qed.

Lemma analyze_runs_test_entry (decisions : list QuantumDecision) :
  (2 <= List.length decisions)%nat ->
  dict_get (analyze_randomness_quality decisions) "runs_test"
  = Some (PyDict (runs_test (map decision_bit decisions))).
Proof.
  intros H. unfold analyze_randomness_quality.
  destruct (Nat.ltb_spec (List.length decisions) 2); [lia | reflexivity].
Qed.

Lemma runs_test_result_degenerate (l : list Z) :
  binary l -> (2 <= List.length l)%nat ->
  (dict_get (runs_test l) "result" = Some (PyStr "degenerate")
   <-> all_identical l).
Proof.
  intros Hb Hlen.
  assert (Hne : l <> []) by (destruct l; [cbn in Hlen; lia | discriminate]).
  rewrite <- (binary_degenerate l Hb Hne). split.
  - intros Hres.
    destruct (Z.eq_dec (sum_ints l) 0) as [H1 | H1]; [now left |].
    destruct (Z.eq_dec (Z.of_nat (List.length l) - sum_ints l) 0) as [H0 | H0];
      [now right |].
    destruct (runs_test_full l Hlen H1 H0) as (z & p & v & Hrep & Hv).
    rewrite Hrep in Hres. cbn [dict_get] in Hres.
    change (Some (PyStr v) = Some (PyStr "degenerate")) in Hres.
    destruct Hv as [-> | ->]; discriminate Hres.
  - intros Hd. rewrite (runs_test_degenerate l Hlen Hd). reflexivity.
Qed.

Lemma runs_test_counts (l : list Z) :
  binary l -> (2 <= List.length l)%nat -> ~ all_identical l ->
  dict_get (runs_test l) "runs_observed"
  = Some (PyInt (Z.of_nat (List.length (maximal_runs l))))
  /\ dict_get (runs_test l) "runs_expected"
     = Some (PyFloat
               (IZR (2 * Z.of_nat (count_occ Z.eq_dec l 1%Z)
                       * Z.of_nat (count_occ Z.eq_dec l 0%Z))
                / IZR (Z.of_nat (List.length l)) + 1)).
Proof.
  intros Hb Hlen Hnot.
  assert (Hne : l <> []) by (destruct l; [cbn in Hlen; lia | discriminate]).
  rewrite <- (binary_degenerate l Hb Hne) in Hnot.
  assert (H1 : sum_ints l <> 0%Z) by tauto.
  assert (H0 : (Z.of_nat (List.length l) - sum_ints l)%Z <> 0%Z) by tauto.
  destruct (runs_test_full l Hlen H1 H0) as (z & p & v & Hrep & _).
  destruct (binary_sum_ones l Hb) as [Hones Hzeros].
  rewrite Hrep, Hzeros, Hones, (count_runs_maximal_runs l Hne).
  split; reflexivity.
Qed.

(** C8.  For the binary sequence the analyzer derives from at least two
    decisions (LEFT = 1, anything else 0): the report has a "runs_test"
    entry, the result of [_runs_test] on that sequence; its result is
    "degenerate" exactly when all values of the sequence are identical;
    otherwise "runs_observed" is the number of maximal constant runs and
    "runs_expected" is [2 * ones * zeros / n + 1].  On the alternating
    sequence [1,0]*10 the entry reports 20 runs and is not "degenerate"; on
    [1]*20 its result is "degenerate". *)
Theorem runs_test_spec :
  (forall decisions : list QuantumDecision,
     (2 <= List.length decisions)%nat ->
     let l := map decision_bit decisions in
     let n := Z.of_nat (List.length l) in
     let ones := Z.of_nat (count_occ Z.eq_dec l 1%Z) in
     let zeros := Z.of_nat (count_occ Z.eq_dec l 0%Z) in
     dict_get (analyze_randomness_quality decisions) "runs_test"
     = Some (PyDict (runs_test l))
     /\ (dict_get (runs_test l) "result" = Some (PyStr "degenerate")
         <-> all_identical l)
     /\ (~ all_identical l ->
         dict_get (runs_test l) "runs_observed"
         = Some (PyInt (Z.of_nat (List.length (maximal_runs l))))
         /\ dict_get (runs_test l) "runs_expected"
            = Some (PyFloat (IZR (2 * ones * zeros) / IZR n + 1))))
  /\ (forall decisions : list QuantumDecision,
        map decision_bit decisions = List.concat (repeat [1; 0]%Z 10) ->
        exists report,
          dict_get (analyze_randomness_quality decisions) "runs_test"
          = Some (PyDict report)
          /\ dict_get report "runs_observed" = Some (PyInt 20)
          /\ dict_get report "result" <> Some (PyStr "degenerate"))
  /\ (forall decisions : list QuantumDecision,
        map decision_bit decisions = repeat 1%Z 20 ->
        exists report,
          dict_get (analyze_randomness_quality decisions) "runs_test"
          = Some (PyDict report)
          /\ dict_get report "result" = Some (PyStr "degenerate")).
Proof.
  split; [| split].
  - intros decisions Hlen l n ones zeros.
    assert (Hb : binary l) by apply decision_bits_binary.
    assert (Hl : (2 <= List.length l)%nat)
      by (unfold l; rewrite length_map; exact Hlen).
    split; [apply analyze_runs_test_entry, Hlen |].
    split; [apply runs_test_result_degenerate; assumption |].
    intros Hnot. apply runs_test_counts; assumption.
  - intros decisions Hbits.
    assert (Hlen : List.length decisions = 20%nat).
    { rewrite <- (length_map decision_bit), Hbits. reflexivity. }
    pose proof (decision_bits_binary decisions) as Hb.
    exists (runs_test (map decision_bit decisions)).
    split; [apply analyze_runs_test_entry; lia |].
    rewrite Hbits in *.
    assert (Hnot : ~ all_identical (List.concat (repeat [1; 0]%Z 10))).
    { intros Hall. specialize (Hall 1%Z 0%Z).
      assert (H10 : 1%Z = 0%Z) by (apply Hall; cbn; tauto).
      discriminate H10. }
    split.
    + apply (runs_test_counts _ Hb); [cbn; lia | exact Hnot].
    + intros Hres. apply Hnot.
      apply (runs_test_result_degenerate _ Hb); [cbn; lia | exact Hres].
  - intros decisions Hbits.
    assert (Hlen : List.length decisions = 20%nat).
    { rewrite <- (length_map decision_bit), Hbits. reflexivity. }
    pose proof (decision_bits_binary decisions) as Hb.
    exists (runs_test (map decision_bit decisions)).
    split; [apply analyze_runs_test_entry; lia |].
    rewrite Hbits in *.
    apply (runs_test_result_degenerate _ Hb); [cbn; lia |].
    apply all_identical_constant. exists 1%Z.
    apply Forall_forall. intros x Hx. apply repeat_spec in Hx. congruence.
Qed.

Lemma runs_test_spec_witness :
  ((2 <= List.length (List.concat (repeat [left_decision; right_decision] 10)))%nat
   /\ dict_get
        (analyze_randomness_quality
           (List.concat (repeat [left_decision; right_decision] 10)))
        "runs_test"
      = Some (PyDict
                (runs_test
                   (map decision_bit
                        (List.concat (repeat [left_decision; right_decision] 10))))))
  /\ (map decision_bit (List.concat (repeat [left_decision; right_decision] 10))
      = List.concat (repeat [1; 0]%Z 10)
      /\ exists report,
           dict_get
             (analyze_randomness_quality
                (List.concat (repeat [left_decision; right_decision] 10)))
             "runs_test"
           = Some (PyDict report)
           /\ dict_get report "runs_observed" = Some (PyInt 20)
           /\ dict_get report "result" <> Some (PyStr "degenerate"))
  /\ (map decision_bit (repeat left_decision 20) = repeat 1%Z 20
      /\ exists report,
           dict_get (analyze_randomness_quality (repeat left_decision 20))
                    "runs_test"
           = Some (PyDict report)
           /\ dict_get report "result" = Some (PyStr "degenerate")).
Proof.
  assert (H2 : (2 <= List.length
                      (List.concat (repeat [left_decision; right_decision] 10)))%nat)
    by (cbn; lia).
  assert (HD : map decision_bit
                   (List.concat (repeat [left_decision; right_decision] 10))
               = List.concat (repeat [1; 0]%Z 10)) by reflexivity.
  assert (HE : map decision_bit (repeat left_decision 20) = repeat 1%Z 20)
    by reflexivity.
  split; [| split].
  - split; [exact H2 |].
    exact (proj1 (proj1 runs_test_spec _ H2)).
  - split; [exact HD |].
    exact (proj1 (proj2 runs_test_spec) _ HD).
  - split; [exact HE |].
    exact (proj2 (proj2 runs_test_spec) _ HE).
Defined.

(** ** Coherence *)

Lemma calculate_coherence_product (sim : QuantumWalkSimulator) :
  calculate_coherence sim
  = Cabs (alpha (wavefunction sim)) * Cabs (beta (wavefunction sim)).
Proof.
  unfold calculate_coherence. rewrite Cabs_Cmul, Cabs_Cconj. reflexivity.
Qed.

Lemma default_wavefunction_magnitudes :
  Cabs (alpha default_wavefunction) ^ 2 = 0.5
  /\ Cabs (beta default_wavefunction) ^ 2 = 0.5.
Proof.
  unfold default_wavefunction, new_wavefunction.
  assert (Hnz : norm_squared (mkWavefunction (mkC 0.707 0) (mkC 0.707 0)) <> 0)
    by (rewrite reset_pair_norm_squared; lra).
  pose proof (normalize_probabilities _ Hnz) as H.
  unfold get_probabilities in H.
  assert (Ha := f_equal fst H). assert (Hb := f_equal snd H).
  cbn [fst snd] in Ha, Hb.
  rewrite Ha, Hb, reset_pair_norm_squared. cbn [alpha beta].
  rewrite Cabs_pow2. cbn [real imag]. split; lra.
Qed.

(** C9.  [calculate_coherence] returns [|conjugate(alpha) * beta|], the
    product of the two magnitudes.  When [|alpha|^2 + |beta|^2 = 1] it lies
    in [0, 0.5] and reaches 0.5 exactly when the two magnitudes are equal;
    when one magnitude is 1 and the other 0, as after every collapse, it is
    0; at the normalized equal superposition of a new simulator it is 0.5,
    and at the raw pair (0.707, 0.707) it is 0.499849. *)
Theorem calculate_coherence_spec :
  (forall sim,
     calculate_coherence sim
     = Cabs (Cmul (Cconj (alpha (wavefunction sim))) (beta (wavefunction sim))))
  /\ (forall sim,
        norm_squared (wavefunction sim) = 1 ->
        0 <= calculate_coherence sim <= 0.5)
  /\ (forall sim,
        norm_squared (wavefunction sim) = 1 ->
        (calculate_coherence sim = 0.5
         <-> Cabs (alpha (wavefunction sim)) = Cabs (beta (wavefunction sim))))
  /\ (forall sim,
        (Cabs (alpha (wavefunction sim)) = 1 /\ Cabs (beta (wavefunction sim)) = 0)
        \/ (Cabs (alpha (wavefunction sim)) = 0
            /\ Cabs (beta (wavefunction sim)) = 1) ->
        calculate_coherence sim = 0)
  /\ (forall sim e,
        calculate_coherence
          (with_wavefunction sim (snd (collapse (wavefunction sim) e))) = 0)
  /\ calculate_coherence new_simulator = 0.5
  /\ (forall sim,
        calculate_coherence
          (with_wavefunction sim (mkWavefunction (mkC 0.707 0) (mkC 0.707 0)))
        = 0.499849).
Proof.
  split; [reflexivity |].
  split; [| split; [| split; [| split; [| split]]]].
  - intros sim Hn. rewrite calculate_coherence_product.
    unfold norm_squared in Hn.
    pose proof (Cabs_nonneg (alpha (wavefunction sim))) as Ha.
    pose proof (Cabs_nonneg (beta (wavefunction sim))) as Hb.
    set (a := Cabs (alpha (wavefunction sim))) in *.
    set (b := Cabs (beta (wavefunction sim))) in *.
    pose proof (pow2_ge_0 (a - b)) as Hsq.
    split; [apply Rmult_le_pos; assumption | nra].
  - intros sim Hn. rewrite calculate_coherence_product.
    unfold norm_squared in Hn.
    pose proof (Cabs_nonneg (alpha (wavefunction sim))) as Ha.
    pose proof (Cabs_nonneg (beta (wavefunction sim))) as Hb.
    set (a := Cabs (alpha (wavefunction sim))) in *.
    set (b := Cabs (beta (wavefunction sim))) in *.
    split.
    + intros Hc. assert (Hsq : (a - b) * (a - b) = 0) by nra.
      apply Rmult_integral in Hsq. lra.
    + intros Heq. rewrite <- Heq in *. nra.
  - intros sim [[Ha Hb] | [Ha Hb]]; rewrite calculate_coherence_product, Ha, Hb;
      ring.
  - intros sim e. rewrite calculate_coherence_product, collapse_cases.
    destruct (Rlt_dec _ _); cbn [with_wavefunction wavefunction snd alpha beta];
      rewrite Cabs_one, Cabs_zero; ring.
  - rewrite calculate_coherence_product.
    cbn [new_simulator wavefunction].
    destruct default_wavefunction_magnitudes as [Ha Hb].
    pose proof (Cabs_nonneg (alpha default_wavefunction)) as Ha0.
    pose proof (Cabs_nonneg (beta default_wavefunction)) as Hb0.
    assert (Heq : Cabs (alpha default_wavefunction)
                  = Cabs (beta default_wavefunction)) by nra.
    rewrite <- Heq. nra.
  - intros sim. rewrite calculate_coherence_product.
    cbn [with_wavefunction wavefunction alpha beta].
    assert (H : Cabs (mkC 0.707 0) = 0.707).
    { unfold Cabs; cbn [real imag].
      replace (0.707 * 0.707 + 0 * 0) with (0.707 * 0.707) by ring.
      apply sqrt_square. lra. }
    rewrite H. lra.
Qed.

Lemma calculate_coherence_spec_witness :
  (norm_squared
     (wavefunction
        (with_wavefunction new_simulator (mkWavefunction (mkC 0.6 0) (mkC 0.8 0))))
   = 1
   /\ 0 <= calculate_coherence
             (with_wavefunction new_simulator
                (mkWavefunction (mkC 0.6 0) (mkC 0.8 0))) <= 0.5)
  /\ ((Cabs (alpha (wavefunction
                      (with_wavefunction new_simulator
                         (mkWavefunction (mkC 1 0) (mkC 0 0))))) = 1
       /\ Cabs (beta (wavefunction
                        (with_wavefunction new_simulator
                           (mkWavefunction (mkC 1 0) (mkC 0 0))))) = 0)
      /\ calculate_coherence
           (with_wavefunction new_simulator (mkWavefunction (mkC 1 0) (mkC 0 0)))
         = 0).
Proof.
  split.
  - assert (H : norm_squared
                  (wavefunction
                     (with_wavefunction new_simulator
                        (mkWavefunction (mkC 0.6 0) (mkC 0.8 0)))) = 1).
    { cbn [with_wavefunction wavefunction]. unfold norm_squared.
      rewrite !Cabs_pow2. cbn [alpha beta real imag]. lra. }
    split; [exact H |].
    exact (proj1 (proj2 calculate_coherence_spec) _ H).
  - assert (H : Cabs (alpha (wavefunction
                               (with_wavefunction new_simulator
                                  (mkWavefunction (mkC 1 0) (mkC 0 0))))) = 1
                /\ Cabs (beta (wavefunction
                                 (with_wavefunction new_simulator
                                    (mkWavefunction (mkC 1 0) (mkC 0 0))))) = 0).
    { cbn [with_wavefunction wavefunction alpha beta].
      split; [apply Cabs_one | apply Cabs_zero]. }
    split; [exact H |].
    exact (proj1 (proj2 (proj2 (proj2 calculate_coherence_spec))) _
                 (or_introl H)).
Defined.

(** ** Entangled measurements *)

Lemma measure_both_cases (s : EntangledState) (e : entropy_reading) :
  measure_both s e = ("LEFT"%string, "RIGHT"%string)
  \/ measure_both s e = ("RIGHT"%string, "LEFT"%string).
Proof.
  unfold measure_both. destruct (Rlt_dec (quantum_random e) 0.5); auto.
Qed.


Lemma quantum_random_example :
  quantum_random (mkEntropy 0 0 600000) = 0.6.
Proof.
  unfold quantum_random. cbn. lra.
Qed.


Lemma measure_both_robots_counts (p : EntangledRobotPair) (e : entropy_reading) :
  let q := snd (measure_both_robots p e) in
  correlation_count q = (correlation_count p + 1)%Z
  /\ total_measurements q = (total_measurements p + 1)%Z
  /\ exists r, measurements q = measurements p ++ [r] /\ fst r <> snd r.
Proof.
  unfold measure_both_robots.
  destruct (measure_both_cases (entangled_state p) e) as [-> | ->];
    cbn [snd negb String.eqb correlation_count total_measurements measurements];
    (split; [reflexivity | split; [reflexivity |]]);
    eexists; (split; [reflexivity | discriminate]).
Qed.

Lemma measure_series_counts (es : list entropy_reading) :
  forall p,
    correlation_count (measure_series p es)
    = (correlation_count p + Z.of_nat (List.length es))%Z
    /\ total_measurements (measure_series p es)
       = (total_measurements p + Z.of_nat (List.length es))%Z
    /\ exists rs,
         measurements (measure_series p es) = measurements p ++ rs
         /\ List.length rs = List.length es
         /\ Forall (fun r => fst r <> snd r) rs.
Proof.
  unfold measure_series.
  induction es as [| e rest IH]; intros p; cbn [fold_left List.length].
  - split; [lia | split; [lia |]]. exists []. rewrite app_nil_r. auto.
  - destruct (measure_both_robots_counts p e) as (Hc & Ht & r & Hm & Hr).
    destruct (IH (snd (measure_both_robots p e))) as (Hc' & Ht' & rs & Hm' & Hl & Hf).
    rewrite Hc', Ht', Hm', Hc, Ht, Hm.
    split; [lia | split; [lia |]].
    exists (r :: rs). rewrite <- app_assoc. cbn [app List.length].
    split; [reflexivity | split; [lia | constructor; assumption]].
Qed.

(** X2.  On a new [EntangledRobotPair], after any series of
    [measure_both_robots] calls every recorded measurement has two different
    directions and [correlation_count] equals [total_measurements], the
    number of calls; [get_correlation_coefficient] is therefore -1.0 after at
    least one measurement, and the integer 0 before any. *)
Theorem robot_pair_always_anticorrelated :
  forall (name1 name2 : string) (es : list entropy_reading),
    let p := measure_series (new_robot_pair name1 name2) es in
    total_measurements p = Z.of_nat (List.length es)
    /\ correlation_count p = total_measurements p
    /\ List.length (measurements p) = List.length es
    /\ Forall (fun r => fst r <> snd r) (measurements p)
    /\ get_correlation_coefficient p
       = match es with [] => PyInt 0 | _ :: _ => PyFloat (-1.0) end.
Proof.
  intros name1 name2 es p.
  destruct (measure_series_counts es (new_robot_pair name1 name2))
    as (Hc & Ht & rs & Hm & Hl & Hf).
  fold p in Hc, Ht, Hm. cbn [new_robot_pair correlation_count
                             total_measurements measurements app] in Hc, Ht, Hm.
  rewrite Z.add_0_l in Hc, Ht.
  split; [exact Ht | split; [congruence | split; [congruence |]]].
  split; [rewrite Hm; exact Hf |].
  unfold get_correlation_coefficient. rewrite Hc, Ht, Z.eqb_refl.
  destruct es as [| e rest]; [reflexivity |].
  cbn [List.length]. destruct (Z.eqb_spec (Z.of_nat (S (List.length rest))) 0);
    [lia | reflexivity].
Qed.

(** ** Entropy *)

Lemma ln_le_minus_1 (x : R) : 0 < x -> ln x <= x - 1.
Proof.
  intros Hx. pose proof (exp_ineq1_le (ln x)) as H.
  rewrite exp_ln in H by exact Hx. lra.
Qed.

Lemma ln_2_pos : 0 < ln 2.
Proof. pose proof ln_lt_2. lra. Qed.

(** One term of the entropy, in natural units. *)
Lemma entropy_term_bounds (p : R) :
  0 < p -> p <= 1 ->
  0 <= - (p * ln p) /\ - (p * ln p) <= / 2 - p + p * ln 2.
Proof.
  intros Hp Hp1. split.
  - pose proof (ln_le_minus_1 p Hp). nra.
  - assert (Hpos : 0 < / (2 * p)) by (apply Rinv_0_lt_compat; lra).
    pose proof (ln_le_minus_1 (/ (2 * p)) Hpos) as H.
    rewrite ln_Rinv, ln_mult in H by lra.
    assert (Hm : p * (/ (2 * p) - 1) = / 2 - p) by (field; lra).
    assert (Hle : p * (- (ln 2 + ln p)) <= p * (/ (2 * p) - 1))
      by (apply Rmult_le_compat_l; lra).
    lra.
Qed.

Lemma calculate_entropy_cases (sim : QuantumWalkSimulator) :
  let p := Cabs (alpha (wavefunction sim)) ^ 2 in
  let q := Cabs (beta (wavefunction sim)) ^ 2 in
  calculate_entropy sim
  = (if Rlt_dec 0 p then - (p * ln p) / ln 2 else 0)
    + (if Rlt_dec 0 q then - (q * ln q) / ln 2 else 0).
Proof.
  unfold calculate_entropy, get_probabilities, log2. cbv zeta.
  replace 0.0 with 0 by lra.
  destruct (Rlt_dec 0 _); destruct (Rlt_dec 0 _); unfold Rdiv; ring.
Qed.

(** X3.  For a pair with [|alpha|^2 + |beta|^2 = 1], [calculate_entropy]
    lies in [0, 1]; it is 0 when one probability is 1 and the other 0 (the
    guards skip the zero term), and exactly 1 at the normalized equal
    superposition of a new simulator. *)
Theorem calculate_entropy_range :
  (forall sim,
     norm_squared (wavefunction sim) = 1 ->
     0 <= calculate_entropy sim <= 1)
  /\ (forall sim e,
        calculate_entropy
          (with_wavefunction sim (snd (collapse (wavefunction sim) e))) = 0)
  /\ calculate_entropy new_simulator = 1.
Proof.
  pose proof ln_2_pos as Hln2.
  split; [| split].
  - intros sim Hn. rewrite calculate_entropy_cases. cbv zeta.
    unfold norm_squared in Hn.
    set (p := Cabs (alpha (wavefunction sim)) ^ 2) in *.
    set (q := Cabs (beta (wavefunction sim)) ^ 2) in *.
    assert (Hp0 : 0 <= p) by (unfold p; apply pow2_ge_0).
    assert (Hq0 : 0 <= q) by (unfold q; apply pow2_ge_0).
    assert (Hdiv : forall x, 0 <= x -> 0 <= x / ln 2).
    { intros x Hx. apply Rmult_le_pos; [exact Hx |].
      left. apply Rinv_0_lt_compat. exact Hln2. }
    assert (Hup : forall x, x <= ln 2 -> x / ln 2 <= 1).
    { intros x Hx. apply Rmult_le_reg_r with (ln 2); [exact Hln2 |].
      unfold Rdiv. rewrite Rmult_assoc, Rinv_l by lra. lra. }
    destruct (Rlt_dec 0 p) as [Hp | Hp]; destruct (Rlt_dec 0 q) as [Hq | Hq].
    + destruct (entropy_term_bounds p Hp ltac:(lra)) as [Hp1 Hp2].
      destruct (entropy_term_bounds q Hq ltac:(lra)) as [Hq1 Hq2].
      replace (- (p * ln p) / ln 2 + - (q * ln q) / ln 2)
        with ((- (p * ln p) + - (q * ln q)) / ln 2) by (field; lra).
      split; [apply Hdiv; lra | apply Hup].
      replace q with (1 - p) in Hq2 |- * by lra. lra.
    + assert (Hp1 : p = 1) by lra. rewrite Hp1, ln_1.
      replace (- (1 * 0) / ln 2 + 0) with 0 by (field; lra). lra.
    + assert (Hq1 : q = 1) by lra. rewrite Hq1, ln_1.
      replace (0 + - (1 * 0) / ln 2) with 0 by (field; lra). lra.
    + lra.
  - intros sim e. rewrite calculate_entropy_cases, collapse_cases. cbv zeta.
    destruct (Rlt_dec (quantum_random e) _);
      cbn [with_wavefunction wavefunction snd alpha beta];
      rewrite Cabs_one, Cabs_zero;
      replace (1 ^ 2) with 1 by ring; replace (0 ^ 2) with 0 by ring;
      destruct (Rlt_dec 0 1); try lra; destruct (Rlt_dec 0 0); try lra;
      rewrite ln_1; field; lra.
  - rewrite calculate_entropy_cases. cbv zeta.
    cbn [new_simulator wavefunction].
    destruct default_wavefunction_magnitudes as [-> ->].
    destruct (Rlt_dec 0 0.5); [| lra].
    replace 0.5 with (/ 2) by lra. rewrite ln_Rinv by lra. field. lra.
Qed.

Lemma calculate_entropy_range_witness :
  norm_squared
    (wavefunction
       (with_wavefunction new_simulator (mkWavefunction (mkC 0.6 0) (mkC 0.8 0))))
  = 1
  /\ 0 <= calculate_entropy
            (with_wavefunction new_simulator
               (mkWavefunction (mkC 0.6 0) (mkC 0.8 0))) <= 1.
Proof.
  assert (H : norm_squared
                (wavefunction
                   (with_wavefunction new_simulator
                      (mkWavefunction (mkC 0.6 0) (mkC 0.8 0)))) = 1).
  { cbn [with_wavefunction wavefunction]. unfold norm_squared.
    rewrite !Cabs_pow2. cbn [alpha beta real imag]. lra. }
  split; [exact H |].
  exact (proj1 calculate_entropy_range _ H).
Defined.

(** ** Repeated measurement and repeated normalization *)

(** X4.  A collapsed wavefunction stays collapsed: a second [collapse()]
    returns the direction of the first and leaves the same basis pair,
    whatever the second random draw. *)
Theorem collapse_is_stable :
  forall (w : QuantumWavefunction) (e1 e2 : entropy_reading),
    collapse (snd (collapse w e1)) e2 = collapse w e1.
Proof.
  intros w e1 e2. pose proof (quantum_random_range e2) as Hr.
  rewrite (collapse_cases w e1).
  destruct (Rlt_dec (quantum_random e1) _); cbn [snd];
    rewrite collapse_cases; unfold get_probabilities; cbn [fst alpha];
    rewrite ?Cabs_one, ?Cabs_zero;
    destruct (Rlt_dec (quantum_random e2) _) as [H | H];
    try reflexivity; exfalso; lra.
Qed.



(** ** What decoherence does *)

Lemma Cabs_phase (theta : R) : Cabs (Cexp (Cmul Ci (of_float theta))) = 1.
Proof.
  rewrite Cabs_Cexp. unfold Cmul, Ci, of_float; cbn [real imag].
  replace (0 * theta - 1 * 0) with 0 by ring. apply exp_0.
Qed.

Lemma rotate_scaled (a E : complex) (d s : R) :
  d <> 0 -> s <> 0 ->
  Cdiv (Cmul a (Cmul E (of_float d))) (of_float (d * s))
  = Cmul (Cdiv a (of_float s)) E.
Proof.
  intros Hd Hs. destruct a as [x y], E as [u v].
  unfold Cdiv, Cmul, of_float; cbn [real imag]. f_equal; field; auto.
Qed.

Lemma apply_decoherence_rotates :
  (forall (w : QuantumWavefunction) (rate dt u : R),
     let phase := Cexp (Cmul Ci (of_float (2 * PI * u * rate * dt))) in
     apply_decoherence w rate dt u
     = mkWavefunction (Cmul (alpha (normalize w)) phase)
                      (Cmul (beta (normalize w)) phase))
  /\ (forall (w : QuantumWavefunction) (rate u : R),
        apply_decoherence w rate 0 u = normalize w).
Proof.
  assert (Hmain : forall (w : QuantumWavefunction) (rate dt u : R),
     apply_decoherence w rate dt u
     = mkWavefunction
         (Cmul (alpha (normalize w))
               (Cexp (Cmul Ci (of_float (2 * PI * u * rate * dt)))))
         (Cmul (beta (normalize w))
               (Cexp (Cmul Ci (of_float (2 * PI * u * rate * dt)))))).
  { intros w rate dt u. unfold apply_decoherence.
    set (d := exp (- rate * dt)).
    set (E := Cexp (Cmul Ci (of_float (2 * PI * u * rate * dt)))).
    assert (Hd : 0 < d) by apply exp_pos.
    assert (Hf : Cabs (Cmul E (of_float d)) = d)
      by (apply Cabs_decoherence_factor; lra).
    set (w' := mkWavefunction (Cmul (alpha w) (Cmul E (of_float d)))
                              (Cmul (beta w) (Cmul E (of_float d)))).
    assert (Hn : norm_squared w' = norm_squared w * d ^ 2).
    { unfold norm_squared, w'; cbn [alpha beta].
      rewrite (Cabs_Cmul (alpha w)), (Cabs_Cmul (beta w)), Hf. ring. }
    destruct (Req_dec (norm_squared w) 0) as [Hz | Hnz].
    - rewrite (normalize_zero_norm w Hz).
      rewrite normalize_zero_norm by (rewrite Hn, Hz; ring).
      apply norm_squared_zero in Hz. subst w. unfold w'; cbn [alpha beta].
      destruct E as [x y]. unfold Cmul, of_float; cbn [real imag].
      f_equal; f_equal; ring.
    - pose proof (norm_squared_nonneg w) as Hge.
      unfold normalize. fold (norm_squared w'). fold (norm_squared w).
      assert (Hs : sqrt (norm_squared w') = d * sqrt (norm_squared w)).
      { rewrite Hn, Rmult_comm, sqrt_mult, sqrt_pow2 by (try apply pow2_ge_0; lra).
        reflexivity. }
      assert (Hsp : 0 < sqrt (norm_squared w)) by (apply sqrt_lt_R0; lra).
      rewrite Hs.
      destruct (Rlt_dec 0 (d * sqrt (norm_squared w))) as [_ | Hn0];
        [| exfalso; apply Hn0; apply Rmult_lt_0_compat; assumption].
      destruct (Rlt_dec 0 (sqrt (norm_squared w))) as [_ | Hn0];
        [| contradiction].
      unfold w'; cbn [alpha beta].
      rewrite !rotate_scaled by lra. reflexivity. }
  split; [exact Hmain |].
  intros w rate u. rewrite Hmain.
  replace (2 * PI * u * rate * 0) with 0 by ring.
  unfold Cexp, Cmul, Ci, of_float; cbn [real imag].
  replace (0 * 0 - 1 * 0) with 0 by ring.
  replace (0 * 0 + 1 * 0) with 0 by ring.
  rewrite exp_0, cos_0, sin_0.
  destruct (normalize w) as [[x y] [x' y']]; cbn [alpha beta real imag].
  f_equal; f_equal; ring.
Qed.

Lemma calculate_entropy_of_probabilities (s1 s2 : QuantumWalkSimulator) :
  get_probabilities (wavefunction s1) = get_probabilities (wavefunction s2) ->
  calculate_entropy s1 = calculate_entropy s2.
Proof.
  intros H. unfold calculate_entropy. rewrite H. reflexivity.
Qed.

Lemma noiseless_evolution_observables :
  forall (sim : QuantumWalkSimulator) (dt : R) (d : evolution_draws),
    noise_level sim <= 0 ->
    norm_squared (wavefunction sim) = 1 ->
    let sim' := evolve_quantum_state sim dt d in
    get_probabilities (wavefunction sim') = get_probabilities (wavefunction sim)
    /\ calculate_entropy sim' = calculate_entropy sim
    /\ calculate_coherence sim' = calculate_coherence sim.
Proof.
  intros sim dt d Hnoise Hn sim'.
  assert (Hw : wavefunction sim'
               = apply_decoherence (wavefunction sim) (decoherence_rate sim) dt
                                   (phase_draw d)).
  { unfold sim', evolve_quantum_state.
    destruct (Rlt_dec 0 (noise_level sim)); [lra | reflexivity]. }
  assert (Hp : get_probabilities (wavefunction sim')
               = get_probabilities (wavefunction sim)).
  { rewrite Hw, apply_decoherence_probabilities by (rewrite Hn; lra).
    rewrite Hn. unfold get_probabilities. f_equal; field. }
  split; [exact Hp | split].
  - apply calculate_entropy_of_probabilities, Hp.
  - rewrite !calculate_coherence_product.
    unfold get_probabilities in Hp.
    assert (Ha := f_equal fst Hp). assert (Hb := f_equal snd Hp).
    cbn [fst snd] in Ha, Hb.
    pose proof (Cabs_nonneg (alpha (wavefunction sim'))).
    pose proof (Cabs_nonneg (beta (wavefunction sim'))).
    pose proof (Cabs_nonneg (alpha (wavefunction sim))).
    pose proof (Cabs_nonneg (beta (wavefunction sim))).
    assert (Ha' : Cabs (alpha (wavefunction sim')) = Cabs (alpha (wavefunction sim)))
      by nra.
    assert (Hb' : Cabs (beta (wavefunction sim')) = Cabs (beta (wavefunction sim)))
      by nra.
    rewrite Ha', Hb'. reflexivity.
Qed.

(** ** Decisions in a row *)

Lemma ln_2_upper : ln 2 <= 5 / 6.
Proof.
  assert (H : ln 2 = ln (3 / 2) + ln (4 / 3)).
  { rewrite <- ln_mult by lra. f_equal. lra. }
  rewrite H.
  pose proof (ln_le_minus_1 (3 / 2) ltac:(lra)).
  pose proof (ln_le_minus_1 (4 / 3) ltac:(lra)). lra.
Qed.

Lemma reset_pair_entropy (sim : QuantumWalkSimulator) :
  wavefunction sim = mkWavefunction (mkC 0.707 0) (mkC 0.707 0) ->
  1 < calculate_entropy sim.
Proof.
  intros Hw. rewrite calculate_entropy_cases. cbv zeta. rewrite Hw.
  cbn [alpha beta]. rewrite Cabs_pow2. cbn [real imag].
  replace (0.707 * 0.707 + 0 * 0) with 0.499849 by lra.
  destruct (Rlt_dec 0 0.499849); [| lra].
  pose proof ln_2_pos as Hpos. pose proof ln_2_upper as Hup.
  assert (Hln : ln 0.499849 <= - ln 2 - 0.000302).
  { replace 0.499849 with (0.999698 * / 2) by lra.
    rewrite ln_mult, ln_Rinv by lra.
    pose proof (ln_le_minus_1 0.999698 ltac:(lra)). lra. }
  apply Rmult_lt_reg_r with (ln 2); [exact Hpos |].
  assert (Hg : forall A t, t <> 0 -> (A / t + A / t) * t = 2 * A)
    by (intros; field; assumption).
  rewrite Hg by lra. lra.
Qed.

(** X9.  A decision made right after another one (no [initialize] or
    evolving [step] in between) does not depend on what went before: it is
    taken on the pair (0.707, 0.707), so it records the probability 0.499849
    and the coherence 0.499849, an entropy above 1 bit, and it is LEFT
    exactly when the random draw is below 0.499849 - slightly less than an
    even chance. *)
Theorem consecutive_decisions_are_memoryless :
  forall (sim : QuantumWalkSimulator) (e1 e2 : entropy_reading) (t1 t2 : R),
    let d2 :=
      fst (make_quantum_decision (snd (make_quantum_decision sim e1 t1)) e2 t2) in
    probability d2 = 0.499849
    /\ coherence d2 = 0.499849
    /\ 1 < entropy d2
    /\ (direction d2 = "LEFT"%string <-> quantum_random e2 < 0.499849)
    /\ (direction d2 = "RIGHT"%string <-> 0.499849 <= quantum_random e2).
Proof.
  intros sim e1 e2 t1 t2 d2. subst d2.
  set (s1 := snd (make_quantum_decision sim e1 t1)).
  assert (Hw : wavefunction s1 = mkWavefunction (mkC 0.707 0) (mkC 0.707 0))
    by apply make_quantum_decision_wavefunction.
  rewrite make_quantum_decision_unfold. cbv zeta.
  cbn [fst probability coherence entropy direction].
  assert (Hp : get_probabilities (wavefunction s1) = (0.499849, 0.499849)).
  { rewrite Hw. unfold get_probabilities; cbn [alpha beta].
    rewrite Cabs_pow2. cbn [real imag]. f_equal; lra. }
  assert (Hc : calculate_coherence s1 = 0.499849).
  { rewrite calculate_coherence_product, Hw. cbn [alpha beta].
    pose proof (Cabs_pow2 (mkC 0.707 0)) as Hsq. cbn [real imag] in Hsq.
    pose proof (Cabs_nonneg (mkC 0.707 0)). nra. }
  rewrite collapse_cases, Hp. cbn [fst snd].
  split; [destruct (Rlt_dec _ _); reflexivity |].
  split; [exact Hc |].
  split; [apply reset_pair_entropy, Hw |].
  destruct (Rlt_dec (quantum_random e2) 0.499849) as [Hlt | Hge]; cbn [fst];
    split; split; intros H; try reflexivity; try discriminate H; lra.
Qed.

Lemma consecutive_decisions_are_memoryless_witness :
  0.499849 <= quantum_random (mkEntropy 0 0 600000)
  /\ direction
       (fst (make_quantum_decision
               (snd (make_quantum_decision new_simulator (mkEntropy 0 0 0) 0))
               (mkEntropy 0 0 600000) 1))
     = "RIGHT"%string.
Proof.
  assert (H : 0.499849 <= quantum_random (mkEntropy 0 0 600000))
    by (rewrite quantum_random_example; lra).
  split; [exact H |].
  exact (proj2 (proj2 (proj2 (proj2 (proj2
           (consecutive_decisions_are_memoryless new_simulator
              (mkEntropy 0 0 0) (mkEntropy 0 0 600000) 0 1))))) H).
Defined.

(** X10.  The amplitudes stored in a Decision are those after the collapse,
    not those the recorded probability comes from: (1, 0) for LEFT and
    (0, 1) for RIGHT.  The left probability a caller recomputes from them as
    [amplitude_left * amplitude_left.conjugate()] is therefore 1 or 0. *)
Theorem decision_records_collapsed_amplitudes :
  forall (sim : QuantumWalkSimulator) (e : entropy_reading) (now : R),
    let d := fst (make_quantum_decision sim e now) in
    (direction d = "LEFT"%string
     /\ amplitude_left d = mkC 1 0 /\ amplitude_right d = mkC 0 0
     /\ Cmul (amplitude_left d) (Cconj (amplitude_left d)) = mkC 1 0)
    \/ (direction d = "RIGHT"%string
        /\ amplitude_left d = mkC 0 0 /\ amplitude_right d = mkC 1 0
        /\ Cmul (amplitude_left d) (Cconj (amplitude_left d)) = mkC 0 0).
Proof.
  intros sim e now d. subst d. rewrite make_quantum_decision_unfold. cbv zeta.
  cbn [fst direction amplitude_left amplitude_right].
  rewrite collapse_cases.
  destruct (Rlt_dec _ _); [left | right]; cbn [fst snd alpha beta];
    (split; [reflexivity | split; [reflexivity | split; [reflexivity |]]]);
    unfold Cmul, Cconj; cbn [real imag]; f_equal; ring.
Qed.

(** ** Counters and statistics *)

Lemma perform_total_decisions (sim : QuantumWalkSimulator) (c : engine_call) :
  total_decisions (perform sim c)
  = (total_decisions sim
     + match c with CallMakeDecision _ _ => 1 | _ => 0 end)%Z.
Proof.
  destruct c as [l r ct nl | t d | e now]; cbn [perform].
  - cbn [initialize total_decisions]. lia.
  - unfold step, evolve_quantum_state.
    destruct (Rlt_dec 0 (last_decision_time sim));
      [destruct (Rlt_dec 0 (noise_level sim)) |];
      cbn [with_last_decision_time update_histories with_wavefunction
           total_decisions]; lia.
  - rewrite make_quantum_decision_unfold. reflexivity.
Qed.

Lemma run_total_decisions (calls : list engine_call) :
  forall sim,
    total_decisions (run sim calls)
    = (total_decisions sim + decisions_made calls)%Z.
Proof.
  unfold run, decisions_made.
  induction calls as [| c rest IH]; intros sim; cbn [fold_left map].
  - cbn. lia.
  - rewrite IH, perform_total_decisions, sum_ints_cons. lia.
Qed.

Lemma fold_decisions_after_bound (calls : list engine_call) :
  forall n : nat,
    (Z.of_nat (fold_left decisions_after calls n)
     <= Z.of_nat n + decisions_made calls)%Z.
Proof.
  unfold decisions_made.
  induction calls as [| c rest IH]; intros n; cbn [fold_left map].
  - cbn. lia.
  - rewrite sum_ints_cons. specialize (IH (decisions_after n c)).
    destruct c; cbn [decisions_after] in *; lia.
Qed.

(** X11.  [total_decisions] counts every [make_quantum_decision] call ever
    made: [initialize] and [step] leave it alone.  On a new simulator it is
    therefore never below the length of [decision_history], and it exceeds
    it once [initialize] has cleared the history: after one decision and an
    [initialize] the counter is 1, the history is empty and
    [get_statistics] returns the empty dictionary. *)
Theorem total_decisions_counts_all_decisions :
  (forall sim calls,
     total_decisions (run sim calls)
     = (total_decisions sim + decisions_made calls)%Z)
  /\ (forall calls,
        (Z.of_nat (List.length (decision_history (run new_simulator calls)))
         <= total_decisions (run new_simulator calls))%Z)
  /\ (forall e now l r ct nl,
        let sim := run new_simulator
                       [CallMakeDecision e now; CallInitialize l r ct nl] in
        total_decisions sim = 1%Z
        /\ decision_history sim = []
        /\ get_statistics sim = []).
Proof.
  split; [intros sim calls; apply run_total_decisions |].
  split.
  - intros calls. rewrite run_total_decisions, run_decision_history_length.
    pose proof (fold_decisions_after_bound calls
                  (List.length (decision_history new_simulator))) as H.
    cbn [new_simulator decision_history total_decisions List.length] in *. lia.
  - intros e now l r ct nl sim. subst sim. unfold run. cbn [fold_left perform].
    rewrite make_quantum_decision_unfold. cbv zeta. cbn [snd].
    unfold get_statistics.
    cbn [initialize total_decisions decision_history new_simulator].
    repeat split.
Qed.

Lemma count_left_bounds (history : list QuantumDecision) :
  (0 <= count_left history <= Z.of_nat (List.length history))%Z.
Proof.
  unfold count_left.
  induction history as [| d rest IH]; cbn [filter map List.length].
  - cbn. lia.
  - destruct (String.eqb (direction d) "LEFT"); cbn [map];
      rewrite ?sum_ints_cons; lia.
Qed.

(** X12.  [get_statistics] returns the empty dictionary when no decision is
    recorded, whatever the other histories hold.  Otherwise its counts are
    non-negative and add up to [total_decisions], the length of
    [decision_history], and the two fractions lie in [0, 1] and add up
    to 1. *)
Theorem get_statistics_consistent :
  (forall sim, decision_history sim = [] -> get_statistics sim = [])
  /\ (forall sim,
        decision_history sim <> [] ->
        exists (lefts rights : Z) (left_fraction right_fraction : R),
          dict_get (get_statistics sim) "total_decisions"
          = Some (PyInt (Z.of_nat (List.length (decision_history sim))))
          /\ dict_get (get_statistics sim) "left_decisions" = Some (PyInt lefts)
          /\ dict_get (get_statistics sim) "right_decisions" = Some (PyInt rights)
          /\ dict_get (get_statistics sim) "left_fraction"
             = Some (PyFloat left_fraction)
          /\ dict_get (get_statistics sim) "right_fraction"
             = Some (PyFloat right_fraction)
          /\ (0 <= lefts)%Z /\ (0 <= rights)%Z
          /\ (lefts + rights)%Z = Z.of_nat (List.length (decision_history sim))
          /\ 0 <= left_fraction <= 1
          /\ 0 <= right_fraction <= 1
          /\ left_fraction + right_fraction = 1).
Proof.
  split.
  - intros sim H. unfold get_statistics. rewrite H. reflexivity.
  - intros sim Hne. unfold get_statistics.
    pose proof (count_left_bounds (decision_history sim)) as Hb.
    destruct (decision_history sim) as [| d0 rest] eqn:Hh; [contradiction |].
    set (n := Z.of_nat (List.length (d0 :: rest))) in *.
    set (c := count_left (d0 :: rest)) in *.
    assert (Hn : (0 < n)%Z) by (unfold n; cbn [List.length]; lia).
    assert (HnR : 0 < IZR n) by (apply IZR_lt; exact Hn).
    exists c, (n - c)%Z, (IZR c / IZR n), (IZR (n - c) / IZR n).
    repeat (split; [reflexivity |]).
    split; [lia | split; [lia | split; [lia |]]].
    assert (Hc0 : 0 <= IZR c) by (apply IZR_le; lia).
    assert (Hc1 : IZR c <= IZR n) by (apply IZR_le; lia).
    assert (Hdiv : forall x, 0 <= x <= IZR n -> 0 <= x / IZR n <= 1).
    { intros x [Hx0 Hx1]. split.
      - apply Rmult_le_pos; [exact Hx0 | left; apply Rinv_0_lt_compat, HnR].
      - apply Rmult_le_reg_r with (IZR n); [exact HnR |].
        unfold Rdiv. rewrite Rmult_assoc, Rinv_l by lra. lra. }
    split; [apply Hdiv; lra |].
    split; [apply Hdiv; rewrite minus_IZR; lra |].
    rewrite minus_IZR. field. lra.
Qed.

Lemma get_statistics_consistent_witness :
  (decision_history new_simulator = []
   /\ get_statistics new_simulator = [])
  /\ (decision_history
        (snd (make_quantum_decision new_simulator (mkEntropy 0 0 0) 0)) <> []
      /\ exists (lefts rights : Z) (left_fraction right_fraction : R),
           dict_get
             (get_statistics
                (snd (make_quantum_decision new_simulator (mkEntropy 0 0 0) 0)))
             "left_fraction" = Some (PyFloat left_fraction)
           /\ dict_get
                (get_statistics
                   (snd (make_quantum_decision new_simulator (mkEntropy 0 0 0) 0)))
                "right_fraction" = Some (PyFloat right_fraction)
           /\ left_fraction + right_fraction = 1 /\ (0 <= lefts)%Z
           /\ (0 <= rights)%Z).
Proof.
  split.
  - assert (H : decision_history new_simulator = []) by reflexivity.
    split; [exact H |].
    exact (proj1 get_statistics_consistent new_simulator H).
  - assert (H : decision_history
                  (snd (make_quantum_decision new_simulator (mkEntropy 0 0 0) 0))
                <> []).
    { rewrite make_quantum_decision_unfold. cbn [snd decision_history].
      intros Hnil. apply (f_equal (@List.length _)) in Hnil.
      rewrite length_app in Hnil. cbn [List.length] in Hnil. lia. }
    split; [exact H |].
    destruct (proj2 get_statistics_consistent _ H)
      as (lefts & rights & lf & rf & _ & _ & _ & Hlf & Hrf & Hl & Hr & _ & _ & _ & Hs).
    exists lefts, rights, lf, rf. auto.
Defined.

(** ** Analyzer: symmetries of the tests *)

Lemma sum_ints_app (l1 l2 : list Z) :
  sum_ints (l1 ++ l2) = (sum_ints l1 + sum_ints l2)%Z.
Proof.
  induction l1 as [| x l1 IH]; cbn [app].
  - cbn. lia.
  - rewrite !sum_ints_cons, IH. lia.
Qed.

Lemma sum_ints_rev (l : list Z) : sum_ints (rev l) = sum_ints l.
Proof.
  induction l as [| x l IH]; cbn [rev]; [reflexivity |].
  rewrite sum_ints_app, IH, !sum_ints_cons. cbn. lia.
Qed.

Lemma sum_ints_complement (l : list Z) :
  sum_ints (complement l) = (Z.of_nat (List.length l) - sum_ints l)%Z.
Proof.
  unfold complement. induction l as [| x l IH]; cbn [map List.length].
  - reflexivity.
  - rewrite !sum_ints_cons, IH. lia.
Qed.

Lemma value_changes_cons2 (x y : Z) (l : list Z) :
  value_changes (x :: y :: l)
  = ((if (x =? y)%Z then 0 else 1) + value_changes (y :: l))%Z.
Proof. reflexivity. Qed.

Lemma value_changes_complement (l : list Z) :
  value_changes (complement l) = value_changes l.
Proof.
  unfold complement. induction l as [| x [| y r] IH]; try reflexivity.
  cbn [map] in *. rewrite !value_changes_cons2, IH.
  destruct (Z.eqb_spec (1 - x) (1 - y)); destruct (Z.eqb_spec x y);
    try reflexivity; lia.
Qed.

Lemma value_changes_snoc (l : list Z) (x y : Z) :
  value_changes (l ++ [x; y])
  = (value_changes (l ++ [x]) + (if (x =? y)%Z then 0 else 1))%Z.
Proof.
  induction l as [| a [| b r] IH].
  - cbn. lia.
  - cbn [app] in *. rewrite !value_changes_cons2. cbn [value_changes]. lia.
  - cbn [app] in *. rewrite (value_changes_cons2 a b (r ++ [x; y])).
    rewrite (value_changes_cons2 a b (r ++ [x])). rewrite IH. lia.
Qed.

Lemma value_changes_rev (l : list Z) :
  value_changes (rev l) = value_changes l.
Proof.
  induction l as [| a [| b r] IH]; try reflexivity.
  cbn [rev] in *. rewrite <- app_assoc. cbn [app].
  rewrite value_changes_snoc, IH, value_changes_cons2, (Z.eqb_sym a b). lia.
Qed.

(** X13.  The report of [_runs_test] is the same for a sequence, for the
    sequence read backwards, and for the sequence with 0 and 1 (RIGHT and
    LEFT) exchanged. *)
Theorem runs_test_symmetric :
  forall l : list Z,
    runs_test (rev l) = runs_test l
    /\ runs_test (complement l) = runs_test l.
Proof.
  intros l. split.
  - unfold runs_test.
    rewrite length_rev, sum_ints_rev, !count_runs_value_changes,
      value_changes_rev. reflexivity.
  - unfold runs_test.
    replace (List.length (complement l)) with (List.length l)
      by (unfold complement; now rewrite length_map).
    rewrite sum_ints_complement, !count_runs_value_changes,
      value_changes_complement.
    set (n := Z.of_nat (List.length l)). set (o := sum_ints l).
    replace (n - (n - o))%Z with o by lia.
    replace (2 * (n - o) * o)%Z with (2 * o * (n - o))%Z by ring.
    rewrite (orb_comm (n - o =? 0)%Z). reflexivity.
Qed.

Lemma erf_0 : erf 0 = 0.
Proof.
  unfold erf. rewrite RiemannInt_P9. ring.
Qed.

Lemma frequency_test_entries (l : list Z) :
  l <> [] ->
  let n := IZR (Z.of_nat (List.length l)) in
  let z := (IZR (sum_ints l) / n - 0.5) / sqrt (0.5 * (1 - 0.5) / n) in
  let p_value := 2 * (1 - standard_normal_cdf (Rabs z)) in
  frequency_test l
  = [("test", PyStr "frequency");
     ("proportion_ones", PyFloat (IZR (sum_ints l) / n));
     ("expected_proportion", PyFloat 0.5);
     ("z_statistic", PyFloat z);
     ("p_value", PyFloat p_value);
     ("result", if Rlt_dec 0.05 p_value then PyStr "random"
                else PyStr "biased")]%string.
Proof.
  intros Hne. unfold frequency_test.
  destruct (Z.eqb_spec (Z.of_nat (List.length l)) 0) as [H0 | _];
    [| reflexivity].
  destruct l; [contradiction | cbn [List.length] in H0; lia].
Qed.

(** X14.  [_frequency_test] reports "insufficient_data" on the empty
    sequence only.  On a nonempty sequence, exchanging 0 and 1 negates the
    z statistic and leaves the p-value and the verdict unchanged; and when
    the ones are exactly half of the values the z statistic is 0, the
    p-value is 1 and the verdict is "random". *)
Theorem frequency_test_symmetric :
  frequency_test []
  = [("test", PyStr "frequency"); ("result", PyStr "insufficient_data")]%string
  /\ (forall l,
        l <> [] ->
        exists z p_value verdict,
          dict_get (frequency_test l) "z_statistic" = Some (PyFloat z)
          /\ dict_get (frequency_test (complement l)) "z_statistic"
             = Some (PyFloat (- z))
          /\ dict_get (frequency_test l) "p_value" = Some (PyFloat p_value)
          /\ dict_get (frequency_test (complement l)) "p_value"
             = Some (PyFloat p_value)
          /\ dict_get (frequency_test l) "result" = Some (PyStr verdict)
          /\ dict_get (frequency_test (complement l)) "result"
             = Some (PyStr verdict)
          /\ (verdict = "random"%string \/ verdict = "biased"%string))
  /\ (forall l,
        l <> [] ->
        (2 * sum_ints l)%Z = Z.of_nat (List.length l) ->
        dict_get (frequency_test l) "z_statistic" = Some (PyFloat 0)
        /\ dict_get (frequency_test l) "p_value" = Some (PyFloat 1)
        /\ dict_get (frequency_test l) "result" = Some (PyStr "random")).
Proof.
  split; [reflexivity | split].
  - intros l Hne.
    assert (Hne' : complement l <> [])
      by (destruct l; [contradiction | discriminate]).
    rewrite (frequency_test_entries l Hne),
      (frequency_test_entries (complement l) Hne'). cbv zeta.
    replace (List.length (complement l)) with (List.length l)
      by (unfold complement; now rewrite length_map).
    rewrite sum_ints_complement.
    set (n := Z.of_nat (List.length l)).
    assert (Hn : 0 < IZR n).
    { apply IZR_lt. unfold n. destruct l; [contradiction | cbn [List.length]; lia]. }
    set (s := sqrt (0.5 * (1 - 0.5) / IZR n)).
    assert (Hz : (IZR (n - sum_ints l) / IZR n - 0.5) / s
                 = - ((IZR (sum_ints l) / IZR n - 0.5) / s)).
    { rewrite minus_IZR. unfold Rdiv. 
      replace ((IZR n - IZR (sum_ints l)) * / IZR n)
        with (1 - IZR (sum_ints l) * / IZR n) by (field; lra).
      lra. }
    rewrite Hz, Rabs_Ropp.
    set (z := (IZR (sum_ints l) / IZR n - 0.5) / s).
    set (pv := 2 * (1 - standard_normal_cdf (Rabs z))).
    destruct (Rlt_dec 0.05 pv);
      [exists z, pv, "random"%string | exists z, pv, "biased"%string];
      repeat (split; [reflexivity |]); auto.
  - intros l Hne Hhalf.
    rewrite (frequency_test_entries l Hne). cbv zeta.
    set (n := Z.of_nat (List.length l)) in *.
    assert (Hn : 0 < IZR n).
    { apply IZR_lt. unfold n. destruct l; [contradiction | cbn [List.length]; lia]. }
    assert (Hp : IZR (sum_ints l) / IZR n = 0.5).
    { apply (f_equal IZR) in Hhalf. rewrite mult_IZR in Hhalf.
      apply Rmult_eq_reg_r with (IZR n); [| lra].
      unfold Rdiv. rewrite Rmult_assoc, Rinv_l by lra. lra. }
    rewrite Hp.
    assert (Hz : (0.5 - 0.5) / sqrt (0.5 * (1 - 0.5) / IZR n) = 0)
      by (unfold Rdiv; replace (0.5 - 0.5) with 0 by lra; ring).
    rewrite Hz, Rabs_R0.
    assert (Hpv : 2 * (1 - standard_normal_cdf 0) = 1).
    { unfold standard_normal_cdf.
      replace (0 / sqrt 2) with 0 by (unfold Rdiv; ring).
      rewrite erf_0. lra. }
    rewrite Hpv.
    destruct (Rlt_dec 0.05 1); [| lra]. repeat split.
Qed.

Lemma frequency_test_symmetric_witness :
  ([1; 0]%Z <> []
   /\ (2 * sum_ints [1; 0])%Z = Z.of_nat (List.length [1; 0]%Z))
  /\ dict_get (frequency_test [1; 0]%Z) "result" = Some (PyStr "random").
Proof.
  assert (H1 : [1; 0]%Z <> []) by discriminate.
  assert (H2 : (2 * sum_ints [1; 0])%Z = Z.of_nat (List.length [1; 0]%Z))
    by reflexivity.
  split; [split; [exact H1 | exact H2] |].
  exact (proj2 (proj2 (proj2 (proj2 frequency_test_symmetric) [1; 0]%Z H1 H2))).
Defined.

(** ** Analyzer: autocorrelation *)

Lemma sum_floats_zero (values : list R) :
  Forall (fun c => c = 0) values -> sum_floats values = 0.
Proof.
  unfold sum_floats.
  assert (H : forall a, Forall (fun c => c = 0) values ->
                        fold_left Rplus values a = a).
  { induction values as [| c rest IH]; intros a Hall; cbn [fold_left].
    - reflexivity.
    - inversion Hall as [| ? ? Hc Hrest]; subst. rewrite IH by exact Hrest. ring. }
  apply H.
Qed.

Lemma sum_ints_repeat (v : Z) (n : nat) :
  sum_ints (repeat v n) = (Z.of_nat n * v)%Z.
Proof.
  induction n as [| n IH]; cbn [repeat]; [reflexivity |].
  rewrite sum_ints_cons, IH. lia.
Qed.

Lemma map_constant {A B : Type} (f : A -> B) (b : B) (l : list A) :
  (forall a, f a = b) -> map f l = repeat b (List.length l).
Proof.
  intros H. induction l as [| a l IH]; cbn [map List.length repeat].
  - reflexivity.
  - rewrite H, IH. reflexivity.
Qed.

Lemma pymax_zeros (k : nat) : pymax (PyInt 0) (repeat (PyInt 0) k) = PyInt 0.
Proof.
  unfold pymax. induction k as [| k IH]; cbn [repeat fold_left].
  - reflexivity.
  - cbn [to_real]. destruct (Rlt_dec 0 0); [lra | exact IH].
Qed.

Lemma constant_sequence_centered (v : Z) (n : nat) :
  (0 < n)%nat ->
  Forall (fun c => c = 0)
         (map (fun x => IZR x - IZR (sum_ints (repeat v n)) / INR n)
              (repeat v n)).
Proof.
  intros Hn. apply Forall_forall. intros c Hc.
  apply in_map_iff in Hc. destruct Hc as (x & <- & Hx).
  apply repeat_spec in Hx. subst x.
  rewrite sum_ints_repeat, mult_IZR, <- INR_IZR_INZ.
  assert (INR n <> 0) by (apply not_0_INR; lia). field. assumption.
Qed.

(** X15.  [_autocorrelation_test] with the default [max_lag = 10] reports
    "insufficient_data" for fewer than 20 values.  From 20 values on it
    reports [min(10, n // 2 - 1)] autocorrelations - 9 of them, not 10, for
    20 or 21 values.  On a constant sequence every denominator is zero, so
    every autocorrelation is the integer 0, the maximum is 0 and the verdict
    is "random". *)
Theorem autocorrelation_test_edges :
  (forall l,
     (List.length l < 20)%nat ->
     autocorrelation_test l 10
     = [("test", PyStr "autocorrelation");
        ("result", PyStr "insufficient_data")]%string)
  /\ (forall l,
        (20 <= List.length l)%nat ->
        exists autocorrs max_autocorr verdict,
          autocorrelation_test l 10
          = [("test", PyStr "autocorrelation");
             ("autocorrelations", PyList autocorrs);
             ("max_autocorrelation", max_autocorr);
             ("result", PyStr verdict)]%string
          /\ List.length autocorrs = Nat.min 10 (List.length l / 2 - 1)
          /\ (verdict = "random"%string \/ verdict = "correlated"%string))
  /\ (forall (v : Z) (n : nat),
        (20 <= n)%nat ->
        autocorrelation_test (repeat v n) 10
        = [("test", PyStr "autocorrelation");
           ("autocorrelations",
            PyList (repeat (PyInt 0) (Nat.min 10 (n / 2 - 1))));
           ("max_autocorrelation", PyInt 0);
           ("result", PyStr "random")]%string).
Proof.
  split; [| split].
  - intros l Hlen. unfold autocorrelation_test.
    destruct (Nat.ltb_spec (List.length l) (10 * 2)); [reflexivity | lia].
  - intros l Hlen. unfold autocorrelation_test.
    destruct (Nat.ltb_spec (List.length l) (10 * 2)); [lia |]. cbv zeta.
    match goal with
    | |- context [PyList ?a] => set (acs := a)
    end.
    match goal with
    | |- context [("max_autocorrelation"%string, ?m)] => set (mx := m)
    end.
    assert (Hl : List.length acs = Nat.min 10 (List.length l / 2 - 1)).
    { unfold acs. rewrite length_map, length_seq. lia. }
    destruct (Rlt_dec (to_real mx) 0.2);
      [exists acs, mx, "random"%string | exists acs, mx, "correlated"%string];
      (split; [reflexivity | split; [exact Hl | auto]]).
  - intros v n Hn. unfold autocorrelation_test. rewrite repeat_length.
    destruct (Nat.ltb_spec n (10 * 2)); [lia |]. cbv zeta.
    pose proof (constant_sequence_centered v n ltac:(lia)) as Hc.
    set (centered := map _ (repeat v n)) in *.
    assert (Hden : sum_floats (map (fun x => x * x) centered) = 0).
    { apply sum_floats_zero. apply Forall_forall. intros c Hin.
      apply in_map_iff in Hin. destruct Hin as (x & <- & Hx).
      rewrite Forall_forall in Hc. rewrite (Hc x Hx). ring. }
    rewrite Hden.
    match goal with
    | |- context [PyList (map ?f ?lags)] =>
        assert (Hacs : map f lags = repeat (PyInt 0) (List.length lags))
    end.
    { apply map_constant. intros lag.
      destruct (Rlt_dec 0 0); [lra | reflexivity]. }
    rewrite Hacs, length_seq.
    replace (Nat.min (10 + 1) (n / 2) - 1)%nat with (Nat.min 10 (n / 2 - 1)) by lia.
    set (m := Nat.min 10 (n / 2 - 1)).
    rewrite map_repeat. cbn [pyabs Z.abs].
    assert (Hmax : match repeat (PyInt 0) m with
                   | [] => PyInt 0
                   | first :: others => pymax first others
                   end = PyInt 0)
      by (destruct m; [reflexivity | apply pymax_zeros]).
    rewrite Hmax. cbn [to_real].
    destruct (Rlt_dec 0 0.2); [reflexivity | lra].
Qed.

(** ** Analyzer: bigram entropy *)

Lemma count_bigram_counts (counts : list ((Z * Z) * Z)) (bigram : Z * Z) :
  Forall (fun kc => (1 <= snd kc)%Z) counts ->
  Forall (fun kc => (1 <= snd kc)%Z) (count_bigram counts bigram)
  /\ sum_ints (map snd (count_bigram counts bigram))
     = (sum_ints (map snd counts) + 1)%Z.
Proof.
  induction counts as [| [k c] rest IH]; intros Hall; cbn [count_bigram].
  - split; [constructor; [cbn; lia | constructor] | reflexivity].
  - inversion Hall as [| ? ? Hc Hrest]; subst. cbn [snd] in Hc.
    destruct (andb _ _).
    + split; [constructor; [cbn; lia | exact Hrest] |].
      cbn [map snd]. rewrite !sum_ints_cons. lia.
    + destruct (IH Hrest) as [IH1 IH2].
      split; [constructor; [exact Hc | exact IH1] |].
      cbn [map snd]. rewrite !sum_ints_cons, IH2. lia.
Qed.

Lemma bigram_counts_invariant (sequence : list Z) (idx : list nat) :
  forall counts,
    Forall (fun kc => (1 <= snd kc)%Z) counts ->
    let counts' :=
      fold_left
        (fun counts i =>
           count_bigram counts (nth i sequence 0%Z, nth (i + 1) sequence 0%Z))
        idx counts in
    Forall (fun kc => (1 <= snd kc)%Z) counts'
    /\ sum_ints (map snd counts')
       = (sum_ints (map snd counts) + Z.of_nat (List.length idx))%Z.
Proof.
  induction idx as [| i idx IH]; intros counts Hall; cbn [fold_left List.length].
  - split; [exact Hall | lia].
  - destruct (count_bigram_counts counts
                (nth i sequence 0%Z, nth (i + 1) sequence 0%Z) Hall) as [H1 H2].
    destruct (IH _ H1) as [H3 H4]. split; [exact H3 |].
    rewrite H4, H2. lia.
Qed.

Lemma member_le_sum (l : list Z) (c : Z) :
  Forall (fun x => (0 <= x)%Z) l -> In c l -> (c <= sum_ints l)%Z.
Proof.
  induction l as [| x l IH]; intros Hall Hin; [contradiction |].
  inversion Hall as [| ? ? Hx Hrest]; subst. rewrite sum_ints_cons.
  assert (0 <= sum_ints l)%Z.
  { clear -Hrest. induction Hrest as [| y l Hy _ IH']; [cbn; lia |].
    rewrite sum_ints_cons. lia. }
  destruct Hin as [-> | Hin]; [lia | specialize (IH Hrest Hin); lia].
Qed.

Lemma entropy_term_nonneg (prob : R) :
  0 < prob <= 1 -> 0 <= - (prob * log2 prob).
Proof.
  intros [H0 H1]. unfold log2. pose proof ln_2_pos as Hln.
  pose proof (ln_le_minus_1 prob H0) as Hle.
  assert (Hq : ln prob / ln 2 <= 0).
  { apply Rmult_le_reg_r with (ln 2); [exact Hln |].
    unfold Rdiv. rewrite Rmult_assoc, Rinv_l by lra. lra. }
  nra.
Qed.

Lemma entropy_fold_nonneg (total : Z) (counts : list Z) :
  (0 < total)%Z ->
  Forall (fun c => (1 <= c <= total)%Z) counts ->
  forall acc,
    0 <= to_real acc ->
    0 <= to_real
           (fold_left
              (fun rate count =>
                 if (0 <? count)%Z then
                   PyFloat (to_real rate
                            - IZR count / IZR total * log2 (IZR count / IZR total))
                 else rate)
              counts acc).
Proof.
  intros Ht. induction counts as [| c rest IH]; intros Hall acc Hacc;
    cbn [fold_left]; [exact Hacc |].
  inversion Hall as [| ? ? Hc Hrest]; subst.
  apply IH; [exact Hrest |].
  destruct (Z.ltb_spec 0 c); [| exact Hacc]. cbn [to_real].
  assert (HtR : 0 < IZR total) by (apply IZR_lt; lia).
  assert (Hp : 0 < IZR c / IZR total <= 1).
  { split.
    - apply Rmult_lt_0_compat; [apply IZR_lt; lia | apply Rinv_0_lt_compat, HtR].
    - apply Rmult_le_reg_r with (IZR total); [exact HtR |].
      unfold Rdiv. rewrite Rmult_assoc, Rinv_l by lra.
      assert (IZR c <= IZR total) by (apply IZR_le; lia). lra. }
  pose proof (entropy_term_nonneg _ Hp). lra.
Qed.

Lemma nth_repeat_lt (v d : Z) (n i : nat) :
  (i < n)%nat -> nth i (repeat v n) d = v.
Proof.
  revert i. induction n as [| n IH]; intros i Hi; [lia |].
  destruct i as [| i]; cbn [repeat nth]; [reflexivity | apply IH; lia].
Qed.

Lemma constant_bigram_counts (v : Z) (n : nat) (idx : list nat) :
  Forall (fun i => (i + 1 < n)%nat) idx ->
  forall c,
    fold_left
      (fun counts i =>
         count_bigram counts (nth i (repeat v n) 0%Z,
                              nth (i + 1) (repeat v n) 0%Z))
      idx [((v, v), c)]
    = [((v, v), (c + Z.of_nat (List.length idx))%Z)].
Proof.
  induction idx as [| i idx IH]; intros Hall c; cbn [fold_left List.length].
  - f_equal. f_equal. lia.
  - inversion Hall as [| ? ? Hi Hrest]; subst.
    rewrite !nth_repeat_lt by lia. cbn [count_bigram fst snd].
    rewrite !Z.eqb_refl. cbn [andb]. rewrite IH by exact Hrest.
    f_equal. f_equal. lia.
Qed.

(** X16.  [_entropy_rate] returns the integer 0 for fewer than 2 values and
    is never negative.  On a constant sequence it is 0.0.  It is the entropy
    of the pairs of neighbours, not an entropy per symbol: on the binary
    sequence 0,0,1,1,0 it is 2 bits. *)
Theorem entropy_rate_properties :
  (forall l, (List.length l < 2)%nat -> entropy_rate l = PyInt 0)
  /\ (forall l, 0 <= to_real (entropy_rate l))
  /\ (forall (v : Z) (n : nat),
        (2 <= n)%nat -> entropy_rate (repeat v n) = PyFloat 0)
  /\ entropy_rate [0; 0; 1; 1; 0]%Z = PyFloat 2.
Proof.
  split; [| split; [| split]].
  - intros l Hlen. unfold entropy_rate.
    destruct (Nat.ltb_spec (List.length l) 2); [reflexivity | lia].
  - intros l. unfold entropy_rate.
    destruct (Nat.ltb_spec (List.length l) 2) as [_ | Hlen]; [cbn; lra |].
    cbv zeta.
    destruct (bigram_counts_invariant l (seq 0 (List.length l - 1)) []
                (Forall_nil _)) as [Hpos Hsum].
    cbv zeta in Hpos, Hsum.
    set (counts := fold_left _ (seq 0 (List.length l - 1)) []) in *.
    rewrite length_seq in Hsum. cbn [map] in Hsum.
    change (sum_ints []) with 0%Z in Hsum.
    apply entropy_fold_nonneg; [lia | | cbn; lra].
    apply Forall_forall. intros c Hc.
    assert (Hge : (1 <= c)%Z).
    { apply in_map_iff in Hc. destruct Hc as (kc & <- & Hin).
      rewrite Forall_forall in Hpos. apply Hpos, Hin. }
    split; [exact Hge |].
    rewrite <- (Z.add_0_l (Z.of_nat _)), <- Hsum.
    apply member_le_sum; [| exact Hc].
    apply Forall_forall. intros x Hx.
    apply in_map_iff in Hx. destruct Hx as (kc & <- & Hin).
    rewrite Forall_forall in Hpos. specialize (Hpos kc Hin). lia.
  - intros v n Hn. unfold entropy_rate. rewrite repeat_length.
    destruct (Nat.ltb_spec n 2); [lia |]. cbv zeta.
    destruct n as [| [| m]]; try lia.
    replace (S (S m) - 1)%nat with (S m) by lia.
    cbn [seq fold_left]. rewrite !nth_repeat_lt by lia.
    cbn [count_bigram].
    rewrite constant_bigram_counts
      by (apply Forall_forall; intros i Hi; apply in_seq in Hi; lia).
    rewrite length_seq. cbn [map snd fold_left].
    destruct (Z.ltb_spec 0 (1 + Z.of_nat m)); [| lia].
    f_equal. cbn [to_real].
    replace (Z.of_nat (S m)) with (1 + Z.of_nat m)%Z by lia.
    assert (Hnz : IZR (1 + Z.of_nat m) <> 0)
      by (apply not_0_IZR; lia).
    replace (IZR (1 + Z.of_nat m) / IZR (1 + Z.of_nat m)) with 1
      by (field; exact Hnz).
    unfold log2. rewrite ln_1. unfold Rdiv. ring.
  - unfold entropy_rate. cbn. f_equal.
    pose proof ln_2_pos as Hln.
    assert (Hq : ln (1 / 4) = - (2 * ln 2)).
    { replace (1 / 4) with (/ (2 * 2)) by field.
      rewrite ln_Rinv, ln_mult by lra. ring. }
    unfold log2. rewrite Hq. field. lra.
Qed.

Lemma entropy_rate_properties_witness :
  ((List.length [1%Z] < 2)%nat /\ entropy_rate [1%Z] = PyInt 0)
  /\ ((2 <= 20)%nat /\ entropy_rate (repeat 1%Z 20) = PyFloat 0).
Proof.
  split.
  - assert (H : (List.length [1%Z] < 2)%nat) by (cbn [List.length]; lia).
    split; [exact H |].
    exact (proj1 entropy_rate_properties [1%Z] H).
  - assert (H : (2 <= 20)%nat) by lia.
    split; [exact H |].
    exact (proj1 (proj2 (proj2 entropy_rate_properties)) 1%Z 20%nat H).
Defined.

Lemma autocorrelation_test_edges_witness :
  ((List.length [1; 0]%Z < 20)%nat
   /\ autocorrelation_test [1; 0]%Z 10
      = [("test", PyStr "autocorrelation");
         ("result", PyStr "insufficient_data")]%string)
  /\ ((20 <= 20)%nat
      /\ dict_get (autocorrelation_test (repeat 1%Z 20) 10) "result"
         = Some (PyStr "random")).
Proof.
  split.
  - assert (H : (List.length [1; 0]%Z < 20)%nat) by (cbn [List.length]; lia).
    split; [exact H |].
    exact (proj1 autocorrelation_test_edges [1; 0]%Z H).
  - assert (H : (20 <= 20)%nat) by lia.
    split; [exact H |].
    exact (f_equal (fun report => dict_get report "result")
             (proj2 (proj2 autocorrelation_test_edges) 1%Z 20%nat H)).
Defined.

(** ** Analyzer: the whole report *)

Lemma autocorrelation_test_short (l : list Z) :
  (List.length l < 20)%nat ->
  autocorrelation_test l 10
  = [("test", PyStr "autocorrelation");
     ("result", PyStr "insufficient_data")]%string.
Proof.
  intros Hlen. unfold autocorrelation_test.
  destruct (Nat.ltb_spec (List.length l) (10 * 2)); [reflexivity | lia].
Qed.

Lemma runs_test_sufficient (l : list Z) :
  (2 <= List.length l)%nat ->
  exists verdict,
    dict_get (runs_test l) "result" = Some (PyStr verdict)
    /\ (verdict = "degenerate" \/ verdict = "random" \/ verdict = "non_random")%string.
Proof.
  intros Hlen.
  destruct (Z.eq_dec (sum_ints l) 0) as [H1 | H1].
  { exists "degenerate"%string. rewrite runs_test_degenerate by auto. auto. }
  destruct (Z.eq_dec (Z.of_nat (List.length l) - sum_ints l) 0) as [H0 | H0].
  { exists "degenerate"%string. rewrite runs_test_degenerate by auto. auto. }
  destruct (runs_test_full l Hlen H1 H0) as (z & p & v & Hrep & Hv).
  exists v. rewrite Hrep. split; [reflexivity | tauto].
Qed.

(** X17.  For two or more decisions [analyze_randomness_quality] returns
    exactly the entries "sequence_length", "runs_test", "frequency_test",
    "autocorrelation" and "entropy_rate", in that order, with the number of
    decisions as sequence length.  The runs and frequency entries then never
    say "insufficient_data", whereas the autocorrelation entry says so for
    every input of fewer than 20 decisions. *)
Theorem analyze_report_shape :
  forall decisions : list QuantumDecision,
    (2 <= List.length decisions)%nat ->
    let report := analyze_randomness_quality decisions in
    map fst report
    = ["sequence_length"; "runs_test"; "frequency_test"; "autocorrelation";
       "entropy_rate"]%string
    /\ dict_get report "sequence_length"
       = Some (PyInt (Z.of_nat (List.length decisions)))
    /\ (exists runs verdict,
          dict_get report "runs_test" = Some (PyDict runs)
          /\ dict_get runs "result" = Some (PyStr verdict)
          /\ verdict <> "insufficient_data"%string)
    /\ (exists frequency verdict,
          dict_get report "frequency_test" = Some (PyDict frequency)
          /\ dict_get frequency "result" = Some (PyStr verdict)
          /\ verdict <> "insufficient_data"%string)
    /\ ((List.length decisions < 20)%nat ->
        dict_get report "autocorrelation"
        = Some (PyDict [("test", PyStr "autocorrelation");
                        ("result", PyStr "insufficient_data")]%string)).
Proof.
  intros decisions Hlen report. subst report.
  unfold analyze_randomness_quality.
  destruct (Nat.ltb_spec (List.length decisions) 2); [lia |].
  set (l := map _ decisions).
  assert (Hl : List.length l = List.length decisions)
    by (unfold l; apply length_map).
  split; [reflexivity |].
  split; [cbn [dict_get String.eqb]; rewrite Hl; reflexivity |].
  split; [| split].
  - destruct (runs_test_sufficient l ltac:(lia)) as (v & Hv & Hcases).
    exists (runs_test l), v. split; [reflexivity | split; [exact Hv |]].
    destruct Hcases as [-> | [-> | ->]]; discriminate.
  - assert (Hne : l <> []) by (destruct l; [cbn in Hl; lia | discriminate]).
    exists (frequency_test l).
    rewrite (frequency_test_entries l Hne). cbv zeta.
    match goal with
    | |- context [Rlt_dec 0.05 ?p] => destruct (Rlt_dec 0.05 p)
    end;
      [exists "random"%string | exists "biased"%string];
      (split; [reflexivity | split; [reflexivity | discriminate]]).
  - intros Hshort.
    change (dict_get _ "autocorrelation")
      with (Some (PyDict (autocorrelation_test l 10))).
    rewrite autocorrelation_test_short by lia. reflexivity.
Qed.

Lemma analyze_report_shape_witness :
  ((2 <= List.length [left_decision; right_decision])%nat
   /\ (List.length [left_decision; right_decision] < 20)%nat)
  /\ dict_get (analyze_randomness_quality [left_decision; right_decision])
              "autocorrelation"
     = Some (PyDict [("test", PyStr "autocorrelation");
                     ("result", PyStr "insufficient_data")]%string).
Proof.
  assert (H1 : (2 <= List.length [left_decision; right_decision])%nat)
    by (cbn [List.length]; lia).
  assert (H2 : (List.length [left_decision; right_decision] < 20)%nat)
    by (cbn [List.length]; lia).
  split; [split; [exact H1 | exact H2] |].
  exact (proj2 (proj2 (proj2 (proj2
           (analyze_report_shape [left_decision; right_decision] H1)))) H2).
Defined.

(** ** Analyzer: size of the autocorrelations *)

Lemma sum_floats_cons (x : R) (l : list R) :
  sum_floats (x :: l) = x + sum_floats l.
Proof.
  unfold sum_floats. cbn [fold_left].
  assert (H : forall a b, fold_left Rplus l (a + b) = a + fold_left Rplus l b).
  { induction l as [| y l IH]; intros a b; cbn [fold_left].
    - reflexivity.
    - rewrite Rplus_assoc. apply IH. }
  rewrite Rplus_comm. apply H.
Qed.

Lemma sum_floats_linear {A : Type} (f g : A -> R) (a b : R) (idx : list A) :
  sum_floats (map (fun i => a * f i + b * g i) idx)
  = a * sum_floats (map f idx) + b * sum_floats (map g idx).
Proof.
  induction idx as [| i idx IH]; cbn [map].
  - unfold sum_floats; cbn. ring.
  - rewrite !sum_floats_cons, IH. ring.
Qed.

Lemma sum_floats_nonneg {A : Type} (f : A -> R) (idx : list A) :
  (forall i, 0 <= f i) -> 0 <= sum_floats (map f idx).
Proof.
  intros H. induction idx as [| i idx IH]; cbn [map].
  - unfold sum_floats; cbn. lra.
  - rewrite sum_floats_cons. specialize (H i). lra.
Qed.

Lemma map_seq_shift {B : Type} (h : nat -> B) (lag k : nat) :
  forall a, map (fun i => h (i + lag)%nat) (seq a k) = map h (seq (a + lag) k).
Proof.
  induction k as [| k IH]; intros a; cbn [seq map].
  - reflexivity.
  - rewrite IH. reflexivity.
Qed.

(** The squares over any window of indices sum to at most the squares over
    the whole list. *)
Lemma window_squares_le (c : list R) :
  forall a k,
    sum_floats (map (fun i => nth i c 0 * nth i c 0) (seq a k))
    <= sum_floats (map (fun x => x * x) c).
Proof.
  induction c as [| x c IH]; intros a k.
  - replace (sum_floats (map (fun i => nth i [] 0 * nth i [] 0) (seq a k)))
      with (sum_floats (map (fun i : nat => 1 * 0 + 1 * 0) (seq a k))).
    + rewrite sum_floats_linear. unfold sum_floats at 3; cbn [map fold_left].
      replace (sum_floats (map (fun _ : nat => 0) (seq a k))) with 0; [lra |].
      symmetry. apply sum_floats_zero. apply Forall_forall.
      intros y Hy. apply in_map_iff in Hy. destruct Hy as (i & <- & _).
      reflexivity.
    + f_equal. apply map_ext. intros i. destruct i; cbn [nth]; ring.
  - cbn [map]. rewrite sum_floats_cons.
    assert (Hsq : 0 <= x * x) by nra.
    destruct a as [| a].
    + destruct k as [| k].
      * unfold sum_floats at 1; cbn [seq map fold_left].
        pose proof (sum_floats_nonneg (fun y => y * y) c ltac:(intros; nra)).
        lra.
      * cbn [seq map]. rewrite sum_floats_cons.
        change (nth 0 (x :: c) 0) with x.
        change (seq 1 k) with (seq (0 + 1) k).
        rewrite <- (map_seq_shift (fun i => nth i (x :: c) 0 * nth i (x :: c) 0) 1 k 0).
        replace (map (fun i => nth (i + 1) (x :: c) 0 * nth (i + 1) (x :: c) 0)
                     (seq 0 k))
          with (map (fun i => nth i c 0 * nth i c 0) (seq 0 k))
          by (apply map_ext; intros i; rewrite Nat.add_1_r; reflexivity).
        specialize (IH 0%nat k). lra.
    + replace (S a) with (a + 1)%nat by lia.
      rewrite <- (map_seq_shift (fun i => nth i (x :: c) 0 * nth i (x :: c) 0) 1 k a).
      replace (map (fun i => nth (i + 1) (x :: c) 0 * nth (i + 1) (x :: c) 0)
                   (seq a k))
        with (map (fun i => nth i c 0 * nth i c 0) (seq a k))
        by (apply map_ext; intros i; rewrite Nat.add_1_r; reflexivity).
      specialize (IH a k). lra.
Qed.

Lemma lagged_products_bounded (c : list R) (lag k : nat) :
  Rabs (sum_floats (map (fun i => nth i c 0 * nth (i + lag) c 0) (seq 0 k)))
  <= sum_floats (map (fun x => x * x) c).
Proof.
  set (total := sum_floats (map (fun x => x * x) c)).
  set (f := fun i : nat => nth i c 0 * nth i c 0).
  set (g := fun i : nat => nth (i + lag) c 0 * nth (i + lag) c 0).
  set (p := fun i : nat => nth i c 0 * nth (i + lag) c 0).
  assert (Hf : sum_floats (map f (seq 0 k)) <= total) by apply window_squares_le.
  assert (Hg : sum_floats (map g (seq 0 k)) <= total).
  { unfold g.
    rewrite (map_seq_shift (fun i => nth i c 0 * nth i c 0) lag k 0).
    apply window_squares_le. }
  assert (Hplus : 0 <= sum_floats
                         (map (fun i => 1 * (1 * f i + 1 * g i) + 2 * p i)
                              (seq 0 k))).
  { apply sum_floats_nonneg. intros i. unfold f, g, p.
    pose proof (Rle_0_sqr (nth i c 0 + nth (i + lag) c 0)) as Hs.
    unfold Rsqr in Hs. nra. }
  assert (Hminus : 0 <= sum_floats
                          (map (fun i => 1 * (1 * f i + 1 * g i) + - 2 * p i)
                               (seq 0 k))).
  { apply sum_floats_nonneg. intros i. unfold f, g, p.
    pose proof (Rle_0_sqr (nth i c 0 - nth (i + lag) c 0)) as Hs.
    unfold Rsqr in Hs. nra. }
  rewrite (sum_floats_linear (fun i => 1 * f i + 1 * g i) p) in Hplus, Hminus.
  rewrite (sum_floats_linear f g) in Hplus, Hminus.
  apply Rabs_le. fold p. lra.
Qed.

Lemma Rabs_le_bounds (a b : R) : Rabs a <= b -> - b <= a <= b.
Proof.
  unfold Rabs. destruct (Rcase_abs a); lra.
Qed.

Lemma to_real_pyabs (v : pyvalue) : to_real (pyabs v) = Rabs (to_real v).
Proof.
  destruct v; cbn [pyabs to_real]; try (symmetry; apply Rabs_R0).
  - apply abs_IZR.
  - reflexivity.
Qed.

Lemma pymax_member (others : list pyvalue) :
  forall first, In (pymax first others) (first :: others).
Proof.
  unfold pymax. induction others as [| v rest IH]; intros first; cbn [fold_left].
  - now left.
  - destruct (Rlt_dec (to_real first) (to_real v)).
    + right. apply IH.
    + destruct (IH first) as [H | H]; [left; exact H | right; right; exact H].
Qed.

(** X18.  From 20 values on, every autocorrelation [_autocorrelation_test]
    reports lies in [-1, 1], and the reported maximum lies in [0, 1]. *)
Theorem autocorrelations_bounded :
  forall l : list Z,
    (20 <= List.length l)%nat ->
    exists autocorrs max_autocorr,
      dict_get (autocorrelation_test l 10) "autocorrelations"
      = Some (PyList autocorrs)
      /\ dict_get (autocorrelation_test l 10) "max_autocorrelation"
         = Some max_autocorr
      /\ Forall (fun ac => -1 <= to_real ac <= 1) autocorrs
      /\ 0 <= to_real max_autocorr <= 1.
Proof.
  intros l Hlen. unfold autocorrelation_test.
  destruct (Nat.ltb_spec (List.length l) (10 * 2)); [lia |]. cbv zeta.
  set (centered := map _ l).
  set (den := sum_floats (map (fun x => x * x) centered)).
  match goal with
  | |- context [PyList ?a] => set (acs := a)
  end.
  assert (Hacs : Forall (fun ac => -1 <= to_real ac <= 1) acs).
  { unfold acs. apply Forall_forall. intros ac Hin.
    apply in_map_iff in Hin. destruct Hin as (lag & <- & _).
    destruct (Rlt_dec 0 den) as [Hden | _]; cbn [to_real]; [| lra].
    pose proof (lagged_products_bounded centered lag (List.length l - lag)) as Hb.
    fold den in Hb.
    set (num := sum_floats _) in *.
    apply Rabs_le_bounds.
    unfold Rdiv. rewrite Rabs_mult, (Rabs_right (/ den))
      by (left; apply Rinv_0_lt_compat, Hden).
    apply Rmult_le_reg_r with den; [exact Hden |].
    rewrite Rmult_assoc, Rinv_l by lra. lra. }
  exists acs.
  eexists. split; [reflexivity | split; [reflexivity | split; [exact Hacs |]]].
  assert (Habs : Forall (fun v => 0 <= to_real v <= 1) (map pyabs acs)).
  { apply Forall_forall. intros v Hin.
    apply in_map_iff in Hin. destruct Hin as (ac & <- & Hac).
    rewrite Forall_forall in Hacs. specialize (Hacs ac Hac).
    rewrite to_real_pyabs. split; [apply Rabs_pos | apply Rabs_le; lra]. }
  destruct (map pyabs acs) as [| first others]; [cbn [to_real]; lra |].
  rewrite Forall_forall in Habs. apply Habs, pymax_member.
Qed.

Lemma autocorrelations_bounded_witness :
  (20 <= List.length (repeat 1%Z 20))%nat
  /\ exists autocorrs max_autocorr,
       dict_get (autocorrelation_test (repeat 1%Z 20) 10) "autocorrelations"
       = Some (PyList autocorrs)
       /\ dict_get (autocorrelation_test (repeat 1%Z 20) 10) "max_autocorrelation"
          = Some max_autocorr
       /\ Forall (fun ac => -1 <= to_real ac <= 1) autocorrs
       /\ 0 <= to_real max_autocorr <= 1.
Proof.
  assert (H : (20 <= List.length (repeat 1%Z 20))%nat)
    by (rewrite repeat_length; lia).
  split; [exact H |].
  exact (autocorrelations_bounded (repeat 1%Z 20) H).
Defined.

(** ** Analyzer: the largest bigram entropy *)

Lemma bigram_eqb_spec (k b : Z * Z) :
  ((fst k =? fst b) && (snd k =? snd b))%Z = true <-> k = b.
Proof.
  destruct k as [k1 k2], b as [b1 b2]; cbn [fst snd].
  rewrite andb_true_iff, !Z.eqb_eq. split.
  - intros [-> ->]. reflexivity.
  - intros H. injection H as -> ->. auto.
Qed.

Lemma count_bigram_keys (counts : list ((Z * Z) * Z)) (bigram : Z * Z) :
  NoDup (map fst counts) ->
  NoDup (map fst (count_bigram counts bigram))
  /\ incl (map fst (count_bigram counts bigram)) (bigram :: map fst counts).
Proof.
  induction counts as [| [k c] rest IH]; intros Hnd; cbn [count_bigram].
  - split; [constructor; [intros [] | constructor] |].
    intros x Hx. exact Hx.
  - cbn [map fst] in Hnd. inversion Hnd as [| ? ? Hk Hrest]; subst.
    destruct (andb _ _) eqn:Heq.
    + cbn [map fst]. split; [exact Hnd |].
      intros x Hx. right. exact Hx.
    + destruct (IH Hrest) as [IH1 IH2]. cbn [map fst]. split.
      * constructor; [| exact IH1].
        intros Hin. apply IH2 in Hin. destruct Hin as [Hb | Hin].
        -- assert (Ht : ((fst k =? fst bigram) && (snd k =? snd bigram))%Z = true)
             by (apply bigram_eqb_spec; congruence).
           congruence.
        -- contradiction.
      * intros x [<- | Hx]; [right; now left |].
        apply IH2 in Hx. destruct Hx as [<- | Hx];
          [now left | right; right; exact Hx].
Qed.

Lemma bigram_keys_invariant (sequence : list Z) (pool : list (Z * Z))
    (idx : list nat) :
  (forall i, In (nth i sequence 0%Z, nth (i + 1) sequence 0%Z) pool) ->
  forall counts,
    NoDup (map fst counts) ->
    incl (map fst counts) pool ->
    let counts' :=
      fold_left
        (fun counts i =>
           count_bigram counts (nth i sequence 0%Z, nth (i + 1) sequence 0%Z))
        idx counts in
    NoDup (map fst counts') /\ incl (map fst counts') pool.
Proof.
  intros Hpool. induction idx as [| i idx IH]; intros counts Hnd Hincl;
    cbn [fold_left].
  - split; assumption.
  - destruct (count_bigram_keys counts
                (nth i sequence 0%Z, nth (i + 1) sequence 0%Z) Hnd) as [H1 H2].
    apply IH; [exact H1 |].
    intros x Hx. apply H2 in Hx. destruct Hx as [<- | Hx];
      [apply Hpool | apply Hincl, Hx].
Qed.

Lemma binary_nth (l : list Z) (i : nat) :
  binary l -> nth i l 0%Z = 0%Z \/ nth i l 0%Z = 1%Z.
Proof.
  intros Hb. revert i. induction Hb as [| x l Hx _ IH]; intros i.
  - destruct i; now left.
  - destruct i as [| i]; cbn [nth]; [exact Hx | apply IH].
Qed.

Lemma entropy_term_upper (prob : R) :
  0 < prob <= 1 ->
  - (prob * log2 prob) <= 2 * prob + (/ 4 - prob) / ln 2.
Proof.
  intros [H0 H1]. unfold log2. pose proof ln_2_pos as Hln.
  assert (Hpos : 0 < / (4 * prob)) by (apply Rinv_0_lt_compat; lra).
  pose proof (ln_le_minus_1 (/ (4 * prob)) Hpos) as H.
  rewrite ln_Rinv, ln_mult in H by lra.
  assert (H4 : ln 4 = 2 * ln 2).
  { replace 4 with (2 * 2) by ring. rewrite ln_mult by lra. ring. }
  rewrite H4 in H.
  assert (Hm : prob * (/ (4 * prob) - 1) = / 4 - prob) by (field; lra).
  assert (Hle : prob * (- (2 * ln 2 + ln prob)) <= / 4 - prob).
  { rewrite <- Hm. apply Rmult_le_compat_l; lra. }
  apply Rmult_le_reg_r with (ln 2); [exact Hln |].
  replace (- (prob * (ln prob / ln 2)) * ln 2) with (- (prob * ln prob))
    by (field; lra).
  replace ((2 * prob + (/ 4 - prob) / ln 2) * ln 2)
    with (2 * prob * ln 2 + (/ 4 - prob)) by (field; lra).
  lra.
Qed.

Lemma entropy_fold_upper (total : Z) (counts : list Z) :
  (0 < total)%Z ->
  Forall (fun c => (1 <= c <= total)%Z) counts ->
  forall acc,
    to_real
      (fold_left
         (fun rate count =>
            if (0 <? count)%Z then
              PyFloat (to_real rate
                       - IZR count / IZR total * log2 (IZR count / IZR total))
            else rate)
         counts acc)
    <= to_real acc
       + 2 * (IZR (sum_ints counts) / IZR total)
       + (INR (List.length counts) / 4 - IZR (sum_ints counts) / IZR total)
         / ln 2.
Proof.
  intros Ht. pose proof ln_2_pos as Hln.
  assert (HtR : 0 < IZR total) by (apply IZR_lt; lia).
  induction counts as [| c rest IH]; intros Hall acc.
  - cbn [fold_left List.length INR]. unfold sum_ints; cbn [fold_left].
    unfold Rdiv. rewrite !Rmult_0_l. lra.
  - inversion Hall as [| ? ? Hc Hrest]; subst. cbn [fold_left].
    eapply Rle_trans; [apply IH, Hrest |].
    destruct (Z.ltb_spec 0 c); [| lia]. cbn [to_real].
    assert (Hp : 0 < IZR c / IZR total <= 1).
    { split.
      - apply Rmult_lt_0_compat; [apply IZR_lt; lia | apply Rinv_0_lt_compat, HtR].
      - apply Rmult_le_reg_r with (IZR total); [exact HtR |].
        unfold Rdiv. rewrite Rmult_assoc, Rinv_l by lra.
        assert (IZR c <= IZR total) by (apply IZR_le; lia). lra. }
    pose proof (entropy_term_upper _ Hp) as Hterm.
    rewrite sum_ints_cons, plus_IZR.
    change (List.length (c :: rest)) with (S (List.length rest)).
    rewrite S_INR.
    set (p := IZR c / IZR total) in *.
    set (s := IZR (sum_ints rest) / IZR total).
    replace ((IZR c + IZR (sum_ints rest)) / IZR total) with (p + s)
      by (unfold p, s; field; lra).
    replace ((INR (List.length rest) + 1) / 4 - (p + s))
      with ((INR (List.length rest) / 4 - s) + (/ 4 - p)) by field.
    unfold Rdiv at 3. rewrite Rmult_plus_distr_r.
    fold (Rdiv (INR (List.length rest) / 4 - s) (ln 2)).
    fold (Rdiv (/ 4 - p) (ln 2)). lra.
Qed.

(** X19.  On a binary sequence [_entropy_rate] is at most 2 bits: at most
    four different pairs of neighbours occur. *)
Theorem entropy_rate_at_most_two_bits :
  forall l : list Z, binary l -> to_real (entropy_rate l) <= 2.
Proof.
  intros l Hb. unfold entropy_rate.
  destruct (Nat.ltb_spec (List.length l) 2) as [_ | Hlen]; [cbn; lra |].
  cbv zeta.
  destruct (bigram_counts_invariant l (seq 0 (List.length l - 1)) []
              (Forall_nil _)) as [Hpos Hsum].
  destruct (bigram_keys_invariant l [(0, 0); (0, 1); (1, 0); (1, 1)]%Z
              (seq 0 (List.length l - 1))) with (counts := @nil ((Z * Z) * Z))
    as [Hnd Hincl].
  { intros i. destruct (binary_nth l i Hb) as [-> | ->];
      destruct (binary_nth l (i + 1) Hb) as [-> | ->]; cbn; tauto. }
  { constructor. }
  { intros x []. }
  cbv zeta in Hpos, Hsum, Hnd, Hincl.
  set (counts := fold_left _ (seq 0 (List.length l - 1)) []) in *.
  rewrite length_seq in Hsum. cbn [map] in Hsum.
  change (sum_ints []) with 0%Z in Hsum. rewrite Z.add_0_l in Hsum.
  set (total := Z.of_nat (List.length l - 1)) in *.
  assert (Ht : (0 < total)%Z) by (unfold total; lia).
  assert (Hk : (List.length (map snd counts) <= 4)%nat).
  { rewrite length_map, <- (length_map fst).
    apply (NoDup_incl_length Hnd) in Hincl. exact Hincl. }
  assert (Hall : Forall (fun c => (1 <= c <= total)%Z) (map snd counts)).
  { apply Forall_forall. intros c Hc.
    assert (Hge : (1 <= c)%Z).
    { apply in_map_iff in Hc. destruct Hc as (kc & <- & Hin).
      rewrite Forall_forall in Hpos. apply Hpos, Hin. }
    split; [exact Hge |]. rewrite <- Hsum.
    apply member_le_sum; [| exact Hc].
    apply Forall_forall. intros x Hx.
    apply in_map_iff in Hx. destruct Hx as (kc & <- & Hin).
    rewrite Forall_forall in Hpos. specialize (Hpos kc Hin). lia. }
  eapply Rle_trans; [apply (entropy_fold_upper total _ Ht Hall) |].
  rewrite Hsum. cbn [to_real].
  assert (HtR : 0 < IZR total) by (apply IZR_lt; lia).
  replace (IZR total / IZR total) with 1 by (field; lra).
  pose proof ln_2_pos as Hln.
  assert (Hk4 : INR (List.length (map snd counts)) <= 4).
  { replace 4 with (INR 4) by (cbn; lra). apply le_INR, Hk. }
  assert (Hq : (INR (List.length (map snd counts)) / 4 - 1) / ln 2 <= 0).
  { apply Rmult_le_reg_r with (ln 2); [exact Hln |].
    unfold Rdiv at 1. rewrite Rmult_assoc, Rinv_l by lra. lra. }
  lra.
Qed.

Lemma entropy_rate_at_most_two_bits_witness :
  binary [0; 0; 1; 1; 0]%Z
  /\ to_real (entropy_rate [0; 0; 1; 1; 0]%Z) <= 2.
Proof.
  assert (H : binary [0; 0; 1; 1; 0]%Z).
  { unfold binary.
    repeat (apply Forall_cons; [first [now left | now right] |]).
    apply Forall_nil. }
  split; [exact H |].
  exact (entropy_rate_at_most_two_bits [0; 0; 1; 1; 0]%Z H).
Defined.

(** ** Which outcomes a collapse can have *)

Lemma quantum_random_at_most (e : entropy_reading) :
  quantum_random e <= 0.999999.
Proof.
  unfold quantum_random.
  set (combined := fold_left _ _ _).
  pose proof (Z.mod_pos_bound combined 1000000 ltac:(lia)) as [_ Hhi].
  assert (Hle : (combined mod 1000000 <= 999999)%Z) by lia.
  apply IZR_le in Hle.
  apply Rmult_le_reg_r with 1000000; [lra |].
  unfold Rdiv. rewrite Rmult_assoc, Rinv_l by lra. lra.
Qed.

Lemma quantum_random_extremes :
  quantum_random (mkEntropy 0 0 0) = 0
  /\ quantum_random (mkEntropy 0 0 999999) = 0.999999.
Proof.
  unfold quantum_random. cbn. split; lra.
Qed.

(** X20.  The random value of a collapse is one of the multiples of 1e-6
    from 0 to 0.999999.  So [collapse] returns RIGHT for every draw when the
    left probability is 0 or less, LEFT for every draw when it exceeds
    0.999999, and in between both directions occur, each for some draw. *)
Theorem collapse_possible_outcomes :
  forall w : QuantumWavefunction,
    let p_left := fst (get_probabilities w) in
    (p_left <= 0 -> forall e, fst (collapse w e) = "RIGHT"%string)
    /\ (0.999999 < p_left -> forall e, fst (collapse w e) = "LEFT"%string)
    /\ (0 < p_left <= 0.999999 ->
        (exists e, fst (collapse w e) = "LEFT"%string)
        /\ (exists e, fst (collapse w e) = "RIGHT"%string)).
Proof.
  intros w p_left. destruct quantum_random_extremes as [Hmin Hmax].
  split; [| split].
  - intros Hp e. rewrite collapse_cases. fold p_left.
    pose proof (quantum_random_range e).
    destruct (Rlt_dec _ _); [lra | reflexivity].
  - intros Hp e. rewrite collapse_cases. fold p_left.
    pose proof (quantum_random_at_most e).
    destruct (Rlt_dec _ _); [reflexivity | lra].
  - intros [Hp0 Hp1]. split.
    + exists (mkEntropy 0 0 0). rewrite collapse_cases, Hmin. fold p_left.
      destruct (Rlt_dec _ _); [reflexivity | lra].
    + exists (mkEntropy 0 0 999999). rewrite collapse_cases, Hmax. fold p_left.
      destruct (Rlt_dec _ _); [lra | reflexivity].
Qed.

Lemma collapse_possible_outcomes_witness :
  (fst (get_probabilities (mkWavefunction (mkC 0 0) (mkC 1 0))) <= 0
   /\ fst (collapse (mkWavefunction (mkC 0 0) (mkC 1 0)) (mkEntropy 0 0 0))
      = "RIGHT"%string)
  /\ (0.999999 < fst (get_probabilities (mkWavefunction (mkC 1 0) (mkC 0 0)))
      /\ fst (collapse (mkWavefunction (mkC 1 0) (mkC 0 0))
                       (mkEntropy 0 0 999999))
         = "LEFT"%string)
  /\ (0 < fst (get_probabilities (mkWavefunction (mkC 0.6 0) (mkC 0.8 0)))
          <= 0.999999
      /\ exists e,
           fst (collapse (mkWavefunction (mkC 0.6 0) (mkC 0.8 0)) e)
           = "RIGHT"%string).
Proof.
  split; [| split].
  - assert (H : fst (get_probabilities (mkWavefunction (mkC 0 0) (mkC 1 0))) <= 0).
    { unfold get_probabilities; cbn [fst alpha]. rewrite Cabs_zero. lra. }
    split; [exact H |].
    exact (proj1 (collapse_possible_outcomes _) H (mkEntropy 0 0 0)).
  - assert (H : 0.999999
                < fst (get_probabilities (mkWavefunction (mkC 1 0) (mkC 0 0)))).
    { unfold get_probabilities; cbn [fst alpha]. rewrite Cabs_one. lra. }
    split; [exact H |].
    exact (proj1 (proj2 (collapse_possible_outcomes _)) H (mkEntropy 0 0 999999)).
  - assert (H : 0 < fst (get_probabilities
                           (mkWavefunction (mkC 0.6 0) (mkC 0.8 0)))
                    <= 0.999999).
    { unfold get_probabilities; cbn [fst alpha]. rewrite Cabs_pow2.
      cbn [real imag]. lra. }
    split; [exact H |].
    exact (proj2 (proj2 (proj2 (collapse_possible_outcomes _)) H)).
Defined.

(** ** The stored clock reading *)

Lemma perform_last_decision_time (sim : QuantumWalkSimulator) (c : engine_call) :
  last_decision_time (perform sim c)
  = match c with
    | CallStep current_time _ => current_time
    | _ => last_decision_time sim
    end.
Proof.
  destruct c as [l r ct nl | t d | e now]; cbn [perform].
  - reflexivity.
  - unfold step. destruct (Rlt_dec 0 (last_decision_time sim)); reflexivity.
  - rewrite make_quantum_decision_unfold. reflexivity.
Qed.

(** X21.  Despite its name, [last_decision_time] is written by [step] only:
    after any sequence of calls it holds the clock reading of the last
    [step], however many decisions or initializations came later, and it is
    still the initial 0 when no [step] was made.  The time step of a [step]
    is therefore the time since the previous [step], not since the previous
    decision. *)
Theorem last_decision_time_is_last_step :
  (forall sim calls,
     last_decision_time (run sim calls)
     = last_step_time (last_decision_time sim) calls)
  /\ (forall sim t d later,
        Forall (fun c => match c with CallStep _ _ => False | _ => True end)
               later ->
        last_decision_time (run sim (CallStep t d :: later)) = t).
Proof.
  assert (Hrun : forall calls sim,
            last_decision_time (run sim calls)
            = last_step_time (last_decision_time sim) calls).
  { unfold run, last_step_time.
    induction calls as [| c rest IH]; intros sim; cbn [fold_left].
    - reflexivity.
    - rewrite IH, perform_last_decision_time. reflexivity. }
  split; [intros sim calls; apply Hrun |].
  intros sim t d later Hlater. rewrite Hrun.
  unfold last_step_time. cbn [fold_left].
  induction Hlater as [| c rest Hc _ IH]; cbn [fold_left].
  - reflexivity.
  - destruct c; [exact IH | contradiction | exact IH].
Qed.

Lemma last_decision_time_is_last_step_witness :
  Forall (fun c => match c with CallStep _ _ => False | _ => True end)
         [CallMakeDecision (mkEntropy 0 0 0) 7]
  /\ last_decision_time
       (run new_simulator
            [CallStep 5 (mkDraws 0 0 0 0 0);
             CallMakeDecision (mkEntropy 0 0 0) 7])
     = 5.
Proof.
  assert (H : Forall (fun c => match c with CallStep _ _ => False | _ => True end)
                     [CallMakeDecision (mkEntropy 0 0 0) 7])
    by (repeat constructor).
  split; [exact H |].
  exact (proj2 last_decision_time_is_last_step new_simulator 5
           (mkDraws 0 0 0 0 0) _ H).
Defined.

(** ** Probabilities after initialization *)

Lemma initialize_probabilities_real :
  forall (sim : QuantumWalkSimulator) (l r ct nl : R),
    l <> 0 \/ r <> 0 ->
    get_probabilities (wavefunction (initialize sim l r ct nl))
    = (l ^ 2 / (l ^ 2 + r ^ 2), r ^ 2 / (l ^ 2 + r ^ 2))
    /\ get_probabilities (wavefunction (initialize sim (- l) r ct nl))
       = get_probabilities (wavefunction (initialize sim l r ct nl))
    /\ fst (get_probabilities (wavefunction (initialize sim l r ct nl)))
       + snd (get_probabilities (wavefunction (initialize sim l r ct nl)))
       = 1.
Proof.
  intros sim l r ct nl Hnz.
  assert (Hsq : l ^ 2 + r ^ 2 <> 0).
  { destruct Hnz as [H | H]; nra. }
  assert (Hgen : forall a,
            a ^ 2 = l ^ 2 ->
            get_probabilities (wavefunction (initialize sim a r ct nl))
            = (l ^ 2 / (l ^ 2 + r ^ 2), r ^ 2 / (l ^ 2 + r ^ 2))).
  { intros a Ha. unfold initialize; cbn [wavefunction].
    assert (Hn : norm_squared (mkWavefunction (mkC a 0) (mkC r 0))
                 = l ^ 2 + r ^ 2).
    { unfold norm_squared. rewrite !Cabs_pow2. cbn [alpha beta real imag].
      rewrite <- Ha. ring. }
    rewrite normalize_probabilities by (rewrite Hn; exact Hsq).
    rewrite Hn. cbn [alpha beta]. rewrite !Cabs_pow2. cbn [real imag].
    f_equal; f_equal; rewrite <- ?Ha; ring. }
  rewrite (Hgen l eq_refl), (Hgen (- l)) by ring.
  split; [reflexivity | split; [reflexivity |]].
  cbn [fst snd]. field. exact Hsq.
Qed.


(** ** Inside and outside the float range *)

Lemma overflows_false (x : R) : Rabs x <= float_max -> overflows x = false.
Proof.
  intros H. unfold overflows. destruct (Rlt_dec float_max (Rabs x)); [lra | reflexivity].
Qed.

Lemma overflows_true (x : R) : float_max < Rabs x -> overflows x = true.
Proof.
  intros H. unfold overflows.
  destruct (Rlt_dec float_max (Rabs x)); [reflexivity | contradiction].
Qed.

Lemma underflows_false (x : R) :
  x = 0 \/ float_min_normal <= Rabs x -> underflows x = false.
Proof.
  intros H. unfold underflows.
  destruct (Rlt_dec 0 (Rabs x)) as [Hpos | _]; [| reflexivity].
  destruct (Rlt_dec (Rabs x) float_min_normal) as [Hlt | _]; [| reflexivity].
  destruct H as [-> | H]; [rewrite Rabs_R0 in Hpos; lra | lra].
Qed.

Lemma float_bounds :
  0 < float_min_normal /\ float_min_normal <= 1e-300 /\ 1e307 <= float_max.
Proof.
  unfold float_min_normal, float_max. repeat split; lra.
Qed.

(** The components of a complex number whose squared magnitude is a float
    are floats. *)
Lemma components_in_range (z : complex) :
  Cabs z ^ 2 <= float_max -> complex_overflows z = false.
Proof.
  intros H. rewrite Cabs_pow2 in H.
  destruct float_bounds as (_ & _ & Hmax).
  assert (Hbound : forall x y, x * x + y * y <= float_max ->
                               Rabs x <= float_max).
  { intros x y Hxy. unfold Rabs. destruct (Rcase_abs x); nra. }
  unfold complex_overflows.
  rewrite (overflows_false (real z)) by (apply (Hbound _ (imag z)); exact H).
  rewrite (overflows_false (imag z))
    by (apply (Hbound _ (real z)); lra).
  reflexivity.
Qed.

Lemma normalize_checked_completes (w : QuantumWavefunction) :
  (Cabs (alpha w) ^ 2 = 0 \/ float_min_normal <= Cabs (alpha w) ^ 2) ->
  (Cabs (beta w) ^ 2 = 0 \/ float_min_normal <= Cabs (beta w) ^ 2) ->
  Cabs (alpha w) ^ 2 + Cabs (beta w) ^ 2 <= float_max ->
  normalize_checked w = Completed (normalize w).
Proof.
  intros Ha Hb Hs. unfold normalize_checked.
  pose proof (pow2_ge_0 (Cabs (alpha w))) as Ha0.
  pose proof (pow2_ge_0 (Cabs (beta w))) as Hb0.
  rewrite !components_in_range by lra.
  rewrite !overflows_false by (rewrite Rabs_right; lra).
  rewrite !underflows_false
    by (rewrite Rabs_right by lra; assumption).
  reflexivity.
Qed.

Lemma normalize_checked_raises (w : QuantumWavefunction) :
  complex_overflows (alpha w) = false ->
  complex_overflows (beta w) = false ->
  float_max < Cabs (alpha w) ^ 2 \/ float_max < Cabs (beta w) ^ 2 ->
  normalize_checked w = Raised "OverflowError" w.
Proof.
  intros Hfa Hfb H. unfold normalize_checked. rewrite Hfa, Hfb. cbn [orb].
  pose proof (pow2_ge_0 (Cabs (alpha w))) as Ha0.
  pose proof (pow2_ge_0 (Cabs (beta w))) as Hb0.
  destruct H as [H | H].
  - rewrite (overflows_true (Cabs (alpha w) ^ 2)) by (rewrite Rabs_right; lra).
    reflexivity.
  - rewrite (overflows_true (Cabs (beta w) ^ 2)) by (rewrite Rabs_right; lra).
    rewrite orb_true_r. reflexivity.
Qed.

Lemma real_in_range (x : R) :
  Rabs x <= float_max -> complex_overflows (mkC x 0) = false.
Proof.
  intros H. unfold complex_overflows; cbn [real imag].
  rewrite (overflows_false x) by exact H.
  rewrite (overflows_false 0); [reflexivity |].
  rewrite Rabs_R0. destruct float_bounds as (_ & _ & Hmax). lra.
Qed.

Lemma Cabs_real (x : R) : Cabs (mkC x 0) = Rabs x.
Proof.
  unfold Cabs; cbn [real imag].
  replace (x * x + 0 * 0) with (Rsqr x) by (unfold Rsqr; ring).
  apply sqrt_Rsqr_abs.
Qed.

(** The square of a magnitude that is zero or within bounds. *)
Lemma square_within (low high x : R) :
  0 <= low -> 0 <= x ->
  x = 0 \/ low <= x <= high ->
  x ^ 2 = 0 \/ low ^ 2 <= x ^ 2 <= high ^ 2.
Proof.
  intros Hlow Hx [-> | [H1 H2]]; [left; ring | right].
  split; nra.
Qed.

Lemma zero_or_within_abs (low high x : R) :
  zero_or_within low high x ->
  Rabs x = 0 \/ low <= Rabs x <= high.
Proof.
  intros [-> | H]; [left; apply Rabs_R0 | right; exact H].
Qed.

Lemma normalize_checked_moderate (w : QuantumWavefunction) :
  (Cabs (alpha w) = 0 \/ 1e-150 <= Cabs (alpha w) <= 1e150) ->
  (Cabs (beta w) = 0 \/ 1e-150 <= Cabs (beta w) <= 1e150) ->
  normalize_checked w = Completed (normalize w).
Proof.
  intros Ha Hb. destruct float_bounds as (Hmin0 & Hmin & Hmax).
  apply (square_within 1e-150 1e150) in Ha; [| lra | apply Cabs_nonneg].
  apply (square_within 1e-150 1e150) in Hb; [| lra | apply Cabs_nonneg].
  apply normalize_checked_completes.
  - destruct Ha as [Ha | Ha]; [left; exact Ha | right; lra].
  - destruct Hb as [Hb | Hb]; [left; exact Hb | right; lra].
  - destruct Ha as [Ha | Ha]; destruct Hb as [Hb | Hb]; lra.
Qed.

Lemma reciprocal_in_range (ct : R) :
  1e-300 <= ct <= 1e300 ->
  overflows (1.0 / ct) = false /\ underflows (1.0 / ct) = false.
Proof.
  intros [H1 H2]. destruct float_bounds as (Hmin0 & Hmin & Hmax).
  assert (Hpos : 0 < / ct) by (apply Rinv_0_lt_compat; lra).
  assert (Hlow : 1e-300 <= / ct).
  { replace 1e-300 with (/ 1e300) by lra. apply Rinv_le_contravar; lra. }
  assert (Hhigh : / ct <= 1e300).
  { replace 1e300 with (/ 1e-300) by lra. apply Rinv_le_contravar; lra. }
  assert (Heq : 1.0 / ct = / ct) by (unfold Rdiv; lra).
  rewrite Heq. split.
  - apply overflows_false. rewrite Rabs_right; lra.
  - apply underflows_false. right. rewrite Rabs_right; lra.
Qed.

Lemma initialize_checked_completes (sim : QuantumWalkSimulator)
    (l r ct nl : R) :
  zero_or_within 1e-150 1e150 l ->
  zero_or_within 1e-150 1e150 r ->
  ct <= 0 \/ 1e-300 <= ct <= 1e300 ->
  initialize_checked sim l r ct nl = Completed (initialize sim l r ct nl).
Proof.
  intros Hl Hr Hct. unfold initialize_checked.
  apply zero_or_within_abs in Hl, Hr.
  rewrite normalize_checked_moderate
    by (cbn [alpha beta]; rewrite Cabs_real; assumption).
  destruct (Rlt_dec 0 ct) as [Hpos | _]; [| reflexivity].
  destruct Hct as [Hct | Hct]; [lra |].
  destruct (reciprocal_in_range ct Hct) as [-> ->]. reflexivity.
Qed.

(** ** Configuration *)

(** C6, where it fails.  [initialize] with [coherence_time = 0] completes:
    it stores the coherence time 0 (the simulator had 1.0), sets the
    decoherence rate to 0 and clears the decision history of a simulator
    that had made a decision.  With a left amplitude of 2, outside [0, 1], it
    completes too, with the pair normalized to (1, 0). *)
Lemma initialize_accepts_invalid_configuration :
  coherence_time new_simulator = 1.0
  /\ initialize_checked new_simulator 0.707 0.707 0 0.1
     = Completed (initialize new_simulator 0.707 0.707 0 0.1)
  /\ coherence_time (initialize new_simulator 0.707 0.707 0 0.1) = 0
  /\ decoherence_rate (initialize new_simulator 0.707 0.707 0 0.1) = 0
  /\ decision_history
       (snd (make_quantum_decision new_simulator (mkEntropy 0 0 0) 0)) <> []
  /\ initialize_checked
       (snd (make_quantum_decision new_simulator (mkEntropy 0 0 0) 0))
       0.707 0.707 0 0.1
     = Completed
         (initialize
            (snd (make_quantum_decision new_simulator (mkEntropy 0 0 0) 0))
            0.707 0.707 0 0.1)
  /\ decision_history
       (initialize
          (snd (make_quantum_decision new_simulator (mkEntropy 0 0 0) 0))
          0.707 0.707 0 0.1) = []
  /\ initialize_checked new_simulator 2 0 1 0.1
     = Completed (initialize new_simulator 2 0 1 0.1)
  /\ wavefunction (initialize new_simulator 2 0 1 0.1)
     = mkWavefunction (mkC 1 0) (mkC 0 0).
Proof.
  assert (H707 : zero_or_within 1e-150 1e150 0.707)
    by (right; rewrite Rabs_right; lra).
  assert (H2 : zero_or_within 1e-150 1e150 2)
    by (right; rewrite Rabs_right; lra).
  assert (H0 : zero_or_within 1e-150 1e150 0) by (left; reflexivity).
  assert (Hct0 : 0 <= 0 \/ 1e-300 <= 0 <= 1e300) by (left; lra).
  assert (Hct1 : 1 <= 0 \/ 1e-300 <= 1 <= 1e300) by (right; lra).
  split; [reflexivity |].
  split; [apply initialize_checked_completes; assumption |].
  split; [reflexivity |].
  split.
  { unfold initialize; cbn [decoherence_rate].
    destruct (Rlt_dec 0 0); [lra | reflexivity]. }
  split.
  { rewrite make_quantum_decision_unfold. cbn [snd decision_history].
    intros H. apply (f_equal (@List.length _)) in H.
    rewrite length_app in H. cbn [List.length] in H. lia. }
  split; [apply initialize_checked_completes; assumption |].
  split; [reflexivity |].
  split; [apply initialize_checked_completes; assumption |].
  unfold initialize; cbn [wavefunction]. unfold normalize; cbn [alpha beta].
  rewrite !Cabs_pow2; cbn [real imag].
  replace (2 * 2 + 0 * 0 + (0 * 0 + 0 * 0)) with (2 * 2) by ring.
  rewrite sqrt_square by lra.
  destruct (Rlt_dec 0 2); [| lra].
  unfold Cdiv, of_float; cbn [real imag]. f_equal; f_equal; field.
Qed.

(** C6, amended.  [initialize] validates nothing and knows no
    ConfigurationError.  When each amplitude is zero or of magnitude between
    1e-150 and 1e150 - inside or outside [0, 1] - and [coherence_time] is
    non-positive or between 1e-300 and 1e300, the call completes: it installs
    the normalized pair of the two amplitudes (of norm 1 unless both are
    zero), stores the coherence time and the noise level, clears the three
    histories and sets the state to SUPERPOSITION; the decoherence rate is
    [1 / coherence_time] when [coherence_time > 0] and 0 otherwise.  When
    the amplitudes are floats and the square of one of them exceeds the
    float range, the call raises OverflowError out of [normalize], with the
    two amplitudes already assigned and nothing else changed. *)
Theorem initialize_spec :
  forall (sim : QuantumWalkSimulator) (l r ct nl : R),
    (zero_or_within 1e-150 1e150 l ->
     zero_or_within 1e-150 1e150 r ->
     ct <= 0 \/ 1e-300 <= ct <= 1e300 ->
     exists s,
       initialize_checked sim l r ct nl = Completed s
       /\ (0 < ct -> decoherence_rate s = 1 / ct)
       /\ (ct <= 0 -> decoherence_rate s = 0)
       /\ wavefunction s = normalize (mkWavefunction (mkC l 0) (mkC r 0))
       /\ (norm_squared (wavefunction s) = 1 \/ (l = 0 /\ r = 0))
       /\ coherence_time s = ct
       /\ noise_level s = nl
       /\ decision_history s = []
       /\ entropy_history s = []
       /\ coherence_history s = []
       /\ current_state s = SUPERPOSITION)
    /\ (Rabs l <= float_max -> Rabs r <= float_max ->
        float_max < l ^ 2 \/ float_max < r ^ 2 ->
        initialize_checked sim l r ct nl
        = Raised "OverflowError"
                 (with_wavefunction sim
                    (mkWavefunction (mkC l 0) (mkC r 0)))).
Proof.
  intros sim l r ct nl. split.
  - intros Hl Hr Hct. exists (initialize sim l r ct nl).
    split; [apply initialize_checked_completes; assumption |].
    split; [| split; [| split; [reflexivity | split]]].
    + intros H. unfold initialize; cbn [decoherence_rate].
      destruct (Rlt_dec 0 ct); [lra | contradiction].
    + intros H. unfold initialize; cbn [decoherence_rate].
      destruct (Rlt_dec 0 ct); [lra | reflexivity].
    + destruct (initialize_unit_or_zero sim l r ct nl) as [H | (H1 & H2 & _)];
        [left; exact H | right; split; assumption].
    + repeat split.
  - intros Hfl Hfr Hover. unfold initialize_checked.
    rewrite normalize_checked_raises; [reflexivity | | |];
      cbn [alpha beta]; try (apply real_in_range; assumption).
    rewrite !Cabs_real, <- !Rsqr_pow2, <- !Rsqr_abs.
    rewrite !Rsqr_pow2. exact Hover.
Qed.

Lemma initialize_spec_witness :
  ((zero_or_within 1e-150 1e150 2 /\ zero_or_within 1e-150 1e150 0.8
    /\ (0 <= 0 \/ 1e-300 <= 0 <= 1e300))
   /\ exists s,
        initialize_checked new_simulator 2 0.8 0 0.05 = Completed s
        /\ decoherence_rate s = 0)
  /\ ((Rabs 1e200 <= float_max /\ Rabs 0 <= float_max
       /\ (float_max < 1e200 ^ 2 \/ float_max < 0 ^ 2))
      /\ initialize_checked new_simulator 1e200 0 1 0.1
         = Raised "OverflowError"
                  (with_wavefunction new_simulator
                     (mkWavefunction (mkC 1e200 0) (mkC 0 0)))).
Proof.
  split.
  - assert (Hl : zero_or_within 1e-150 1e150 2)
      by (right; rewrite Rabs_right; lra).
    assert (Hr : zero_or_within 1e-150 1e150 0.8)
      by (right; rewrite Rabs_right; lra).
    assert (Hct : 0 <= 0 \/ 1e-300 <= 0 <= 1e300) by (left; lra).
    split; [repeat split; assumption |].
    destruct (proj1 (initialize_spec new_simulator 2 0.8 0 0.05) Hl Hr Hct)
      as (s & Hs & _ & Hrate & _).
    exists s. split; [exact Hs | apply Hrate; lra].
  - assert (H : float_max < 1e200 ^ 2 \/ float_max < 0 ^ 2)
      by (left; unfold float_max; lra).
    assert (Hfl : Rabs 1e200 <= float_max)
      by (rewrite Rabs_right; unfold float_max; lra).
    assert (Hfr : Rabs 0 <= float_max)
      by (rewrite Rabs_R0; unfold float_max; lra).
    split; [repeat split; assumption |].
    exact (proj2 (initialize_spec new_simulator 1e200 0 1 0.1) Hfl Hfr H).
Defined.

(** ** The decay factor inside the float range *)

Lemma exp_le_mono (x y : R) : x <= y -> exp x <= exp y.
Proof.
  intros [H | ->]; [left; apply exp_increasing, H | right; reflexivity].
Qed.

Lemma exp_le_pow3 (n : nat) : exp (INR n) <= 3 ^ n.
Proof.
  induction n as [| n IH].
  - cbn [INR pow]. rewrite exp_0. lra.
  - rewrite S_INR, exp_plus.
    change (3 ^ S n) with (3 * 3 ^ n).
    pose proof exp_le_3 as H3. pose proof (exp_pos (INR n)) as Hn.
    pose proof (exp_pos 1) as H1. nra.
Qed.

Lemma decay_factor_bounds (x : R) :
  Rabs x <= 300 -> / 3 ^ 300 <= exp (- x) <= 3 ^ 300.
Proof.
  intros Hx. apply Rabs_le_bounds in Hx.
  assert (H300 : INR 300 = 300) by (rewrite INR_IZR_INZ; reflexivity).
  pose proof (exp_le_pow3 300) as Hup. rewrite H300 in Hup.
  assert (Hpos : 0 < exp 300) by apply exp_pos.
  split.
  - apply Rle_trans with (/ exp 300).
    + apply Rinv_le_contravar; assumption.
    + rewrite <- exp_Ropp. apply exp_le_mono. lra.
  - apply Rle_trans with (exp 300); [apply exp_le_mono; lra | exact Hup].
Qed.

Lemma decay_range_bounds :
  0 < / 3 ^ 300
  /\ 3 ^ 300 <= float_max
  /\ float_min_normal <= / 3 ^ 300
  /\ 1e10 * 3 ^ 300 <= float_max
  /\ (1e10 * 3 ^ 300) ^ 2 + (1e10 * 3 ^ 300) ^ 2 <= float_max
  /\ float_min_normal <= (1e-10 * / 3 ^ 300) ^ 2.
Proof.
  unfold float_max, float_min_normal. repeat split; lra.
Qed.

Lemma scaled_square_bounds (a d lo hi dl dh : R) :
  0 <= lo -> lo <= a <= hi -> 0 < dl -> dl <= d <= dh ->
  (lo * dl) ^ 2 <= (a * d) ^ 2 <= (hi * dh) ^ 2.
Proof.
  intros Hlo [Ha1 Ha2] Hdl [Hd1 Hd2].
  assert (H1 : lo * dl <= a * d) by nra.
  assert (H2 : a * d <= hi * dh) by nra.
  assert (H0 : 0 <= lo * dl) by nra.
  split; nra.
Qed.

Lemma phase_noise_in_range (u rate dt : R) :
  0 <= u < 1 -> Rabs rate <= 1e300 -> Rabs (rate * dt) <= 300 ->
  Rabs (2 * PI * u * rate) <= float_max
  /\ Rabs (2 * PI * u * rate * dt) <= float_max.
Proof.
  intros Hu Hrate Hrd. destruct float_bounds as (_ & _ & Hmax).
  pose proof PI_4 as Hpi4. pose proof PI_RGT_0 as Hpi0.
  assert (Hc : 0 <= 2 * PI * u <= 8) by nra.
  pose proof (Rabs_pos rate) as Hr0. pose proof (Rabs_pos (rate * dt)) as Hrd0.
  split.
  - rewrite Rabs_mult, (Rabs_right (2 * PI * u)) by lra. nra.
  - replace (2 * PI * u * rate * dt) with (2 * PI * u * (rate * dt)) by ring.
    rewrite Rabs_mult, (Rabs_right (2 * PI * u)) by lra. nra.
Qed.

Lemma apply_decoherence_checked_completes (w : QuantumWavefunction)
    (rate dt u : R) :
  (Cabs (alpha w) = 0 \/ 1e-10 <= Cabs (alpha w) <= 1e10) ->
  (Cabs (beta w) = 0 \/ 1e-10 <= Cabs (beta w) <= 1e10) ->
  Rabs dt <= float_max ->
  Rabs (rate * dt) <= 300 -> Rabs rate <= 1e300 -> 0 <= u < 1 ->
  apply_decoherence_checked w rate dt u
  = Completed (apply_decoherence w rate dt u).
Proof.
  intros Ha Hb Hdt Hrd Hrate Hu.
  destruct float_bounds as (Hmin0 & Hmin & Hmax).
  assert (Hfinite : forall z : complex,
            Cabs z = 0 \/ 1e-10 <= Cabs z <= 1e10 ->
            complex_overflows z = false).
  { intros z Hz. apply components_in_range.
    pose proof (Cabs_nonneg z) as Hz0. destruct Hz as [-> | Hz]; nra. }
  destruct decay_range_bounds as (Hdl & Hd1 & Hd2 & Hd3 & Hd4 & Hd5).
  assert (Hdecay : / 3 ^ 300 <= exp (- rate * dt) <= 3 ^ 300).
  { replace (- rate * dt) with (- (rate * dt)) by ring.
    apply decay_factor_bounds, Hrd. }
  destruct (phase_noise_in_range u rate dt Hu Hrate Hrd) as [Hp1 Hp2].
  pose proof (Cabs_nonneg (alpha w)) as Ha0.
  pose proof (Cabs_nonneg (beta w)) as Hb0.
  unfold apply_decoherence_checked, apply_decoherence.
  set (d := exp (- rate * dt)) in *.
  set (f := Cmul _ (of_float d)).
  assert (Hf : Cabs f = d) by (apply Cabs_decoherence_factor; lra).
  rewrite (overflows_false rate) by lra.
  rewrite (overflows_false dt) by exact Hdt.
  rewrite (overflows_false (rate * dt)) by lra.
  rewrite (overflows_false d) by (rewrite Rabs_right; lra).
  rewrite (underflows_false d) by (right; rewrite Rabs_right; lra).
  rewrite (overflows_false u) by (rewrite Rabs_right; lra).
  rewrite (Hfinite (alpha w) Ha), (Hfinite (beta w) Hb).
  rewrite (overflows_false (2 * PI * u * rate)) by exact Hp1.
  rewrite (overflows_false (2 * PI * u * rate * dt)) by exact Hp2.
  assert (Hscale : forall a, 0 <= a -> (a = 0 \/ 1e-10 <= a <= 1e10) ->
            Rabs (a * d) <= float_max
            /\ ((a * d) ^ 2 = 0 \/ float_min_normal <= (a * d) ^ 2)
            /\ (a * d) ^ 2 <= (1e10 * 3 ^ 300) ^ 2).
  { intros a Ha1 [-> | Hin].
    - rewrite Rmult_0_l, Rabs_R0.
      replace (0 ^ 2) with 0 by ring.
      split; [lra | split; [left; reflexivity | apply pow2_ge_0]].
    - pose proof (scaled_square_bounds a d 1e-10 1e10 (/ 3 ^ 300) (3 ^ 300)
                    ltac:(lra) Hin Hdl Hdecay) as [Hs1 Hs2].
      split; [| split; [right; lra | exact Hs2]].
      rewrite Rabs_right by nra.
      apply Rle_trans with (1e10 * 3 ^ 300); [| exact Hd3].
      apply Rmult_le_compat; lra. }
  destruct (Hscale _ Ha0 Ha) as (Ha1 & Ha2 & Ha3).
  destruct (Hscale _ Hb0 Hb) as (Hb1 & Hb2 & Hb3).
  rewrite (overflows_false (Cabs (alpha w) * d)) by exact Ha1.
  rewrite (overflows_false (Cabs (beta w) * d)) by exact Hb1.
  cbn [orb].
  rewrite normalize_checked_completes; [reflexivity | | |];
    cbn [alpha beta]; rewrite ?Cabs_Cmul, ?Hf; try assumption.
  lra.
Qed.

Lemma apply_decoherence_checked_raises (w : QuantumWavefunction)
    (rate dt u : R) :
  Rabs rate <= float_max -> Rabs dt <= float_max ->
  Rabs (rate * dt) <= float_max -> float_max < exp (- rate * dt) ->
  apply_decoherence_checked w rate dt u = Raised "OverflowError" w.
Proof.
  intros Hrate Hdt Hrd Hexp. unfold apply_decoherence_checked.
  rewrite (overflows_false rate) by exact Hrate.
  rewrite (overflows_false dt) by exact Hdt.
  rewrite (overflows_false (rate * dt)) by exact Hrd.
  cbn [orb].
  rewrite overflows_true; [reflexivity |].
  rewrite Rabs_right; [exact Hexp |].
  left. apply exp_pos.
Qed.

(** A normalized pair has magnitudes of at most 1. *)
Lemma unit_magnitudes (w : QuantumWavefunction) :
  norm_squared w = 1 -> Cabs (alpha w) <= 1 /\ Cabs (beta w) <= 1.
Proof.
  unfold norm_squared. intros H.
  pose proof (Cabs_nonneg (alpha w)). pose proof (Cabs_nonneg (beta w)).
  split; nra.
Qed.

(** ** The value drawn by a collapse *)

Lemma quantum_random_formula (e : entropy_reading) :
  quantum_random e = IZR (quantum_random_micros e) / 1000000.
Proof.
  unfold quantum_random, quantum_random_micros, entropy_sources.
  cbn [fold_left]. rewrite Z.lxor_0_l. reflexivity.
Qed.

Lemma quantum_random_micros_range (e : entropy_reading) :
  (0 <= quantum_random_micros e < 1000000)%Z.
Proof.
  unfold quantum_random_micros. apply Z.mod_pos_bound. lia.
Qed.

Lemma quantum_random_micros_onto (k : Z) :
  (0 <= k < 1000000)%Z -> quantum_random_micros (mkEntropy 0 0 k) = k.
Proof.
  intros Hk. unfold quantum_random_micros.
  cbn [clock_micros clock_hash random_bits].
  change (Z.lxor (0 mod 1000000) ((0 mod 1000000) mod 1000000)) with 0%Z.
  rewrite Z.lxor_0_l, Z.mod_mod by lia. apply Z.mod_small, Hk.
Qed.

Lemma lxor_below_pow2_20 (c : Z) :
  (0 <= c < 1000000)%Z -> (0 <= Z.lxor 524288 c < 1048576)%Z.
Proof.
  intros Hc.
  assert (Hnonneg : (0 <= Z.lxor 524288 c)%Z) by (apply Z.lxor_nonneg; lia).
  split; [exact Hnonneg |].
  destruct (Z.eq_dec (Z.lxor 524288 c) 0) as [-> | Hnz]; [lia |].
  change 1048576%Z with (2 ^ 20)%Z.
  apply Z.log2_lt_pow2; [lia |].
  pose proof (Z.log2_lxor 524288 c ltac:(lia) ltac:(lia)) as Hlog.
  change (Z.log2 524288) with 19%Z in Hlog.
  assert (Hc20 : (Z.log2 c < 20)%Z).
  { destruct (Z.eq_dec c 0) as [-> | Hcnz]; [cbn; lia |].
    apply Z.log2_lt_pow2; [lia |]. change (2 ^ 20)%Z with 1048576%Z. lia. }
  lia.
Qed.

Lemma quantum_random_micros_misses_half (bits : Z) :
  quantum_random_micros (mkEntropy 1700000000524288 8123456000000 bits)
  <> 500000%Z.
Proof.
  unfold quantum_random_micros. cbn [clock_micros clock_hash random_bits].
  change (Z.lxor (1700000000524288 mod 1000000)
                 ((8123456000000 mod 1000000) mod 1000000))
    with 524288%Z.
  pose proof (Z.mod_pos_bound bits 1000000 ltac:(lia)) as Hc.
  set (c := (bits mod 1000000)%Z) in *.
  pose proof (lxor_below_pow2_20 c Hc) as Hx.
  intros Hm.
  assert (Hx5 : Z.lxor 524288 c = 500000%Z).
  { revert Hm Hx. generalize (Z.lxor 524288 c). intros x Hm Hx.
    pose proof (Z.div_mod x 1000000 ltac:(lia)) as Hdm.
    rewrite Hm in Hdm. lia. }
  assert (Hback : c = Z.lxor 524288 (Z.lxor 524288 c))
    by (rewrite <- Z.lxor_assoc, Z.lxor_nilpotent, Z.lxor_0_l; reflexivity).
  rewrite Hx5 in Hback.
  change (Z.lxor 524288 500000) with 1024288%Z in Hback. lia.
Qed.

(** C2, where it fails.  The value drawn is not uniform.  With the clock
    at 1700000000.524288 s (524288 modulo 1000000 in microseconds) and a
    clock hash that is 0 modulo 1000000, two values of the random bits,
    524288 and 475712, both give 0, while no value of the random bits at all
    gives 0.5. *)
Lemma quantum_random_not_uniform :
  quantum_random (mkEntropy 1700000000524288 8123456000000 524288) = 0
  /\ quantum_random (mkEntropy 1700000000524288 8123456000000 475712) = 0
  /\ (forall bits : Z,
        quantum_random (mkEntropy 1700000000524288 8123456000000 bits)
        <> 0.5).
Proof.
  split; [unfold quantum_random; cbn; lra |].
  split; [unfold quantum_random; cbn; lra |].
  intros bits H. rewrite quantum_random_formula in H.
  apply (quantum_random_micros_misses_half bits).
  apply eq_IZR. lra.
Qed.

(** C2, amended.  The value [collapse] compares with the left probability
    is [((t xor h xor b) mod 1000000) / 1000000], for the clock microseconds
    [t], the clock hash [h] and the random bits [b], each reduced modulo
    1000000 first: a multiple of 1e-6 in [0, 1), every one of which is given
    by some reading.  The call returns LEFT and installs (1+0i, 0+0i) when
    that value is below the left probability, and returns RIGHT and installs
    (0+0i, 1+0i) otherwise, so afterwards one magnitude is 1 and the other
    is 0; [initialize(1.0, 0.0, 1.0, 0)] completes, the probabilities are
    then (1.0, 0.0) and every one of any number of successive collapses
    returns LEFT. *)
Theorem collapse_spec :
  (forall e,
     quantum_random e = IZR (quantum_random_micros e) / 1000000
     /\ (0 <= quantum_random_micros e < 1000000)%Z
     /\ 0 <= quantum_random e < 1)
  /\ (forall k : Z,
        (0 <= k < 1000000)%Z ->
        quantum_random (mkEntropy 0 0 k) = IZR k / 1000000)
  /\ (forall w e,
        let r := quantum_random e in
        let p_left := fst (get_probabilities w) in
        collapse w e
        = if Rlt_dec r p_left
          then ("LEFT"%string, mkWavefunction (mkC 1 0) (mkC 0 0))
          else ("RIGHT"%string, mkWavefunction (mkC 0 0) (mkC 1 0)))
  /\ (forall w e,
        let w' := snd (collapse w e) in
        (Cabs (alpha w') = 1 /\ Cabs (beta w') = 0)
        \/ (Cabs (alpha w') = 0 /\ Cabs (beta w') = 1))
  /\ (forall sim es,
        let s := initialize sim 1.0 0.0 1.0 0 in
        initialize_checked sim 1.0 0.0 1.0 0 = Completed s
        /\ get_probabilities (wavefunction s) = (1.0, 0.0)
        /\ Forall (eq "LEFT"%string) (collapse_all (wavefunction s) es)).
Proof.
  split.
  { intros e. split; [apply quantum_random_formula |].
    split; [apply quantum_random_micros_range | apply quantum_random_range]. }
  split.
  { intros k Hk.
    rewrite quantum_random_formula, quantum_random_micros_onto by exact Hk.
    reflexivity. }
  split; [exact collapse_cases |].
  split.
  - intros w e w'. subst w'. rewrite collapse_cases.
    destruct (Rlt_dec _ _); cbn [snd alpha beta];
      rewrite Cabs_one, Cabs_zero; auto.
  - intros sim es s. subst s. split.
    { apply initialize_checked_completes.
      - right. rewrite Rabs_right; lra.
      - left. lra.
      - right. lra. }
    rewrite initialize_left_certain. split.
    + unfold get_probabilities; cbn [alpha beta].
      rewrite Cabs_one, Cabs_zero. f_equal; lra.
    + apply collapse_all_left_certain.
Qed.

Lemma collapse_spec_witness :
  (0 <= 250000 < 1000000)%Z
  /\ quantum_random (mkEntropy 0 0 250000) = IZR 250000 / 1000000.
Proof.
  assert (H : (0 <= 250000 < 1000000)%Z) by lia.
  split; [exact H |].
  exact (proj1 (proj2 collapse_spec) 250000%Z H).
Defined.

(** ** Decoherence inside the float range *)

Lemma exp_ge_pow2 (n : nat) : 2 ^ n <= exp (INR n).
Proof.
  induction n as [| n IH].
  - cbn [INR pow]. rewrite exp_0. lra.
  - rewrite S_INR, exp_plus. change (2 ^ S n) with (2 * 2 ^ n).
    pose proof (exp_ineq1 1 ltac:(lra)) as H1.
    pose proof (pow_lt 2 n ltac:(lra)) as Hp. nra.
Qed.

Lemma exp_1024_overflows : float_max < exp 1024.
Proof.
  assert (H : INR 1024 = 1024) by (rewrite INR_IZR_INZ; reflexivity).
  pose proof (exp_ge_pow2 1024) as Hge. rewrite H in Hge.
  apply Rlt_le_trans with (2 ^ 1024); [| exact Hge].
  unfold float_max. lra.
Qed.


Lemma unit_pair_magnitudes (w : QuantumWavefunction) :
  norm_squared w = 1 ->
  Cabs (alpha w) = 0 \/ 1e-10 <= Cabs (alpha w) ->
  Cabs (beta w) = 0 \/ 1e-10 <= Cabs (beta w) ->
  (Cabs (alpha w) = 0 \/ 1e-10 <= Cabs (alpha w) <= 1e10)
  /\ (Cabs (beta w) = 0 \/ 1e-10 <= Cabs (beta w) <= 1e10).
Proof.
  intros Hn Ha Hb. destruct (unit_magnitudes w Hn) as [Ha1 Hb1].
  split.
  - destruct Ha as [Ha | Ha]; [left; exact Ha | right; lra].
  - destruct Hb as [Hb | Hb]; [left; exact Hb | right; lra].
Qed.

(** C10, where it fails.  The pair (0.707, 0.707), which every
    [make_quantum_decision] leaves behind, has nonzero norm and the
    probabilities (0.499849, 0.499849); [apply_decoherence] completes on it
    and afterwards they are (0.5, 0.5). *)
Lemma decoherence_changes_unnormalized_probabilities :
  wavefunction (snd (make_quantum_decision new_simulator (mkEntropy 0 0 0) 0))
  = mkWavefunction (mkC 0.707 0) (mkC 0.707 0)
  /\ norm_squared (mkWavefunction (mkC 0.707 0) (mkC 0.707 0)) <> 0
  /\ get_probabilities (mkWavefunction (mkC 0.707 0) (mkC 0.707 0))
     = (0.499849, 0.499849)
  /\ apply_decoherence_checked
       (mkWavefunction (mkC 0.707 0) (mkC 0.707 0)) 1 0.05 0.25
     = Completed
         (apply_decoherence
            (mkWavefunction (mkC 0.707 0) (mkC 0.707 0)) 1 0.05 0.25)
  /\ get_probabilities
       (apply_decoherence (mkWavefunction (mkC 0.707 0) (mkC 0.707 0)) 1 0.05 0.25)
     = (0.5, 0.5)
  /\ get_probabilities
       (apply_decoherence (mkWavefunction (mkC 0.707 0) (mkC 0.707 0)) 1 0.05 0.25)
     <> get_probabilities (mkWavefunction (mkC 0.707 0) (mkC 0.707 0)).
Proof.
  assert (Hnz : norm_squared (mkWavefunction (mkC 0.707 0) (mkC 0.707 0)) <> 0)
    by (rewrite reset_pair_norm_squared; lra).
  assert (Hbefore : get_probabilities (mkWavefunction (mkC 0.707 0) (mkC 0.707 0))
                    = (0.499849, 0.499849)).
  { unfold get_probabilities; cbn [alpha beta]. rewrite Cabs_pow2.
    cbn [real imag]. f_equal; lra. }
  assert (Hafter : get_probabilities
                     (apply_decoherence
                        (mkWavefunction (mkC 0.707 0) (mkC 0.707 0)) 1 0.05 0.25)
                   = (0.5, 0.5)).
  { rewrite (apply_decoherence_probabilities _ 1 0.05 0.25 Hnz).
    rewrite reset_pair_norm_squared. cbn [alpha beta]. rewrite Cabs_pow2.
    cbn [real imag]. f_equal; lra. }
  split; [apply make_quantum_decision_wavefunction |].
  split; [exact Hnz |].
  split; [exact Hbefore |].
  split.
  { destruct float_bounds as (_ & _ & Hmax).
    apply apply_decoherence_checked_completes; cbn [alpha beta];
      rewrite ?Cabs_real, ?Rabs_right; try lra; right; lra. }
  split; [exact Hafter |].
  rewrite Hafter, Hbefore. intros H.
  apply (f_equal fst) in H. cbn [fst] in H. lra.
Qed.

(** C10, amended.  Inside the float range [apply_decoherence] leaves the
    measurement probabilities of a normalized pair as they were.  For a
    pair of nonzero norm whose nonzero magnitudes lie between 1e-10 and
    1e10, a rate of magnitude at most 1e300, a float [dt] with |rate * dt|
    at most 300 and a phase draw in [0, 1), the call completes and each
    probability afterwards is the one before divided by
    |alpha|^2 + |beta|^2: both amplitudes are multiplied by the same decay
    and phase factors and the pair is then renormalized.  So the
    probabilities are unchanged when |alpha|^2 + |beta|^2 = 1.  When, for
    floats [rate], [dt] and [rate * dt], [exp(-rate * dt)] exceeds the float
    range, the call raises OverflowError and the pair is left as it was. *)
Theorem apply_decoherence_preserves_probabilities :
  forall (w : QuantumWavefunction) (rate dt u : R),
    ((Cabs (alpha w) = 0 \/ 1e-10 <= Cabs (alpha w) <= 1e10) ->
     (Cabs (beta w) = 0 \/ 1e-10 <= Cabs (beta w) <= 1e10) ->
     norm_squared w <> 0 ->
     Rabs dt <= float_max ->
     Rabs (rate * dt) <= 300 -> Rabs rate <= 1e300 -> 0 <= u < 1 ->
     exists w',
       apply_decoherence_checked w rate dt u = Completed w'
       /\ get_probabilities w'
          = (Cabs (alpha w) ^ 2 / norm_squared w,
             Cabs (beta w) ^ 2 / norm_squared w)
       /\ (norm_squared w = 1 -> get_probabilities w' = get_probabilities w))
    /\ (Rabs rate <= float_max -> Rabs dt <= float_max ->
        Rabs (rate * dt) <= float_max -> float_max < exp (- rate * dt) ->
        apply_decoherence_checked w rate dt u = Raised "OverflowError" w).
Proof.
  intros w rate dt u. split.
  - intros Ha Hb Hnz Hdt Hrd Hrate Hu.
    exists (apply_decoherence w rate dt u).
    split; [apply apply_decoherence_checked_completes; assumption |].
    split; [apply apply_decoherence_probabilities, Hnz |].
    intros Hone. rewrite apply_decoherence_probabilities by exact Hnz.
    rewrite Hone. unfold get_probabilities. f_equal; field.
  - apply apply_decoherence_checked_raises.
Qed.

Lemma apply_decoherence_preserves_probabilities_witness :
  (((Cabs (alpha (mkWavefunction (mkC 0.6 0) (mkC 0.8 0))) = 0
     \/ 1e-10 <= Cabs (alpha (mkWavefunction (mkC 0.6 0) (mkC 0.8 0))) <= 1e10)
    /\ (Cabs (beta (mkWavefunction (mkC 0.6 0) (mkC 0.8 0))) = 0
        \/ 1e-10 <= Cabs (beta (mkWavefunction (mkC 0.6 0) (mkC 0.8 0)))
           <= 1e10)
    /\ norm_squared (mkWavefunction (mkC 0.6 0) (mkC 0.8 0)) <> 0
    /\ Rabs 0.05 <= float_max
    /\ Rabs (1 * 0.05) <= 300 /\ Rabs 1 <= 1e300 /\ 0 <= 0.25 < 1
    /\ norm_squared (mkWavefunction (mkC 0.6 0) (mkC 0.8 0)) = 1)
   /\ exists w',
        apply_decoherence_checked (mkWavefunction (mkC 0.6 0) (mkC 0.8 0))
                                  1 0.05 0.25 = Completed w'
        /\ get_probabilities w'
           = get_probabilities (mkWavefunction (mkC 0.6 0) (mkC 0.8 0)))
  /\ ((Rabs (-1024) <= float_max /\ Rabs 1 <= float_max
       /\ Rabs (-1024 * 1) <= float_max /\ float_max < exp (- -1024 * 1))
      /\ apply_decoherence_checked (mkWavefunction (mkC 0.6 0) (mkC 0.8 0))
                                   (-1024) 1 0.25
         = Raised "OverflowError" (mkWavefunction (mkC 0.6 0) (mkC 0.8 0))).
Proof.
  set (w := mkWavefunction (mkC 0.6 0) (mkC 0.8 0)).
  assert (Ha : Cabs (alpha w) = 0 \/ 1e-10 <= Cabs (alpha w) <= 1e10).
  { right. cbn [w alpha]. rewrite Cabs_real, Rabs_right; lra. }
  assert (Hb : Cabs (beta w) = 0 \/ 1e-10 <= Cabs (beta w) <= 1e10).
  { right. cbn [w beta]. rewrite Cabs_real, Rabs_right; lra. }
  assert (Hone : norm_squared w = 1).
  { unfold norm_squared. cbn [w alpha beta]. rewrite !Cabs_pow2.
    cbn [real imag]. lra. }
  assert (Hnz : norm_squared w <> 0) by (rewrite Hone; lra).
  assert (Hrd : Rabs (1 * 0.05) <= 300) by (rewrite Rabs_right; lra).
  assert (Hrate : Rabs 1 <= 1e300) by (rewrite Rabs_right; lra).
  assert (Hu : 0 <= 0.25 < 1) by lra.
  assert (Hfin : Rabs (-1024 * 1) <= float_max).
  { rewrite Rabs_left by lra. unfold float_max. lra. }
  assert (Hexp : float_max < exp (- -1024 * 1)).
  { replace (- -1024 * 1) with 1024 by lra. exact exp_1024_overflows. }
  assert (Hdt : Rabs 0.05 <= float_max).
  { rewrite Rabs_right by lra. unfold float_max. lra. }
  assert (Hfr : Rabs (-1024) <= float_max).
  { rewrite Rabs_left by lra. unfold float_max. lra. }
  assert (Hfd : Rabs 1 <= float_max).
  { rewrite Rabs_right by lra. unfold float_max. lra. }
  split.
  - split; [repeat split; try assumption; lra |].
    destruct (proj1 (apply_decoherence_preserves_probabilities w 1 0.05 0.25)
                    Ha Hb Hnz Hdt Hrd Hrate Hu) as (w' & Hw' & _ & Hsame).
    exists w'. split; [exact Hw' | exact (Hsame Hone)].
  - split; [repeat split; assumption |].
    exact (proj2 (apply_decoherence_preserves_probabilities w (-1024) 1 0.25)
                 Hfr Hfd Hfin Hexp).
Defined.

(** ** Normalization inside the float range *)





(** X6.  Inside the float range the decay factor of [apply_decoherence]
    cancels in the final normalization.  For a pair whose nonzero
    magnitudes lie between 1e-10 and 1e10, a rate of magnitude at most
    1e300, a float [dt] with |rate * dt| at most 300 and a phase draw [u] in
    [0, 1), the call completes with the normalized pair, both amplitudes
    multiplied by [exp(i * 2 * pi * u * rate * dt)] and nothing else; with
    [dt = 0] the result is the normalized pair itself. *)
Theorem apply_decoherence_is_phase_rotation :
  forall (w : QuantumWavefunction) (rate u : R),
    (Cabs (alpha w) = 0 \/ 1e-10 <= Cabs (alpha w) <= 1e10) ->
    (Cabs (beta w) = 0 \/ 1e-10 <= Cabs (beta w) <= 1e10) ->
    Rabs rate <= 1e300 -> 0 <= u < 1 ->
    (forall dt : R,
       Rabs dt <= float_max ->
       Rabs (rate * dt) <= 300 ->
       let phase := Cexp (Cmul Ci (of_float (2 * PI * u * rate * dt))) in
       apply_decoherence_checked w rate dt u
       = Completed (mkWavefunction (Cmul (alpha (normalize w)) phase)
                                   (Cmul (beta (normalize w)) phase)))
    /\ apply_decoherence_checked w rate 0 u = Completed (normalize w).
Proof.
  intros w rate u Ha Hb Hrate Hu. split.
  - intros dt Hdt Hrd phase. subst phase.
    rewrite apply_decoherence_checked_completes by assumption.
    f_equal. apply (proj1 apply_decoherence_rotates).
  - destruct float_bounds as (_ & _ & Hmax).
    rewrite apply_decoherence_checked_completes; try assumption.
    + f_equal. apply (proj2 apply_decoherence_rotates).
    + rewrite Rabs_R0. lra.
    + rewrite Rmult_0_r, Rabs_R0. lra.
Qed.

Lemma apply_decoherence_is_phase_rotation_witness :
  ((Cabs (alpha (mkWavefunction (mkC 3 0) (mkC 4 0))) = 0
    \/ 1e-10 <= Cabs (alpha (mkWavefunction (mkC 3 0) (mkC 4 0))) <= 1e10)
   /\ (Cabs (beta (mkWavefunction (mkC 3 0) (mkC 4 0))) = 0
       \/ 1e-10 <= Cabs (beta (mkWavefunction (mkC 3 0) (mkC 4 0))) <= 1e10)
   /\ Rabs 2 <= 1e300 /\ 0 <= 0.25 < 1)
  /\ apply_decoherence_checked (mkWavefunction (mkC 3 0) (mkC 4 0)) 2 0 0.25
     = Completed (normalize (mkWavefunction (mkC 3 0) (mkC 4 0))).
Proof.
  assert (Ha : Cabs (alpha (mkWavefunction (mkC 3 0) (mkC 4 0))) = 0
               \/ 1e-10 <= Cabs (alpha (mkWavefunction (mkC 3 0) (mkC 4 0)))
                  <= 1e10).
  { right. cbn [alpha]. rewrite Cabs_real, Rabs_right; lra. }
  assert (Hb : Cabs (beta (mkWavefunction (mkC 3 0) (mkC 4 0))) = 0
               \/ 1e-10 <= Cabs (beta (mkWavefunction (mkC 3 0) (mkC 4 0)))
                  <= 1e10).
  { right. cbn [beta]. rewrite Cabs_real, Rabs_right; lra. }
  assert (Hrate : Rabs 2 <= 1e300) by (rewrite Rabs_right; lra).
  assert (Hu : 0 <= 0.25 < 1) by lra.
  split; [repeat split; try assumption; lra |].
  exact (proj2 (apply_decoherence_is_phase_rotation _ 2 0.25 Ha Hb Hrate Hu)).
Defined.

(** ** Evolution inside the float range *)

Lemma evolve_checked_noiseless (sim : QuantumWalkSimulator) (dt : R)
    (d : evolution_draws) :
  noise_level sim <= 0 ->
  (Cabs (alpha (wavefunction sim)) = 0
   \/ 1e-10 <= Cabs (alpha (wavefunction sim)) <= 1e10) ->
  (Cabs (beta (wavefunction sim)) = 0
   \/ 1e-10 <= Cabs (beta (wavefunction sim)) <= 1e10) ->
  Rabs dt <= float_max ->
  Rabs (decoherence_rate sim * dt) <= 300 ->
  Rabs (decoherence_rate sim) <= 1e300 ->
  0 <= phase_draw d < 1 ->
  evolve_checked sim dt d = Completed (evolve_quantum_state sim dt d).
Proof.
  intros Hnoise Ha Hb Hdt Hrd Hrate Hu.
  unfold evolve_checked, evolve_quantum_state.
  rewrite apply_decoherence_checked_completes by assumption.
  destruct (Rlt_dec 0 (noise_level sim)); [lra | reflexivity].
Qed.

(** X7.  On a simulator with [noise_level <= 0] and a normalized pair whose
    nonzero magnitudes are at least 1e-10, [evolve_quantum_state] completes
    and leaves the measurement probabilities, the entropy and the coherence
    unchanged, for every float time step with |decoherence_rate * dt| at
    most 300, the rate being of magnitude at most 1e300. *)
Theorem noiseless_evolution_preserves_observables :
  forall (sim : QuantumWalkSimulator) (dt : R) (d : evolution_draws),
    noise_level sim <= 0 ->
    norm_squared (wavefunction sim) = 1 ->
    (Cabs (alpha (wavefunction sim)) = 0
     \/ 1e-10 <= Cabs (alpha (wavefunction sim))) ->
    (Cabs (beta (wavefunction sim)) = 0
     \/ 1e-10 <= Cabs (beta (wavefunction sim))) ->
    Rabs dt <= float_max ->
    Rabs (decoherence_rate sim * dt) <= 300 ->
    Rabs (decoherence_rate sim) <= 1e300 ->
    0 <= phase_draw d < 1 ->
    exists sim',
      evolve_checked sim dt d = Completed sim'
      /\ get_probabilities (wavefunction sim')
         = get_probabilities (wavefunction sim)
      /\ calculate_entropy sim' = calculate_entropy sim
      /\ calculate_coherence sim' = calculate_coherence sim.
Proof.
  intros sim dt d Hnoise Hone Ha Hb Hdt Hrd Hrate Hu.
  destruct (unit_pair_magnitudes _ Hone Ha Hb) as [Ha' Hb'].
  exists (evolve_quantum_state sim dt d).
  split; [apply evolve_checked_noiseless; assumption |].
  apply noiseless_evolution_observables; assumption.
Qed.

Lemma noiseless_evolution_preserves_observables_witness :
  (noise_level (initialize new_simulator 1 0 1 0) <= 0
   /\ norm_squared (wavefunction (initialize new_simulator 1 0 1 0)) = 1
   /\ Rabs 0.05 <= float_max
   /\ Rabs (decoherence_rate (initialize new_simulator 1 0 1 0) * 0.05) <= 300)
  /\ exists sim',
       evolve_checked (initialize new_simulator 1 0 1 0) 0.05
                      (mkDraws 0.25 0 0 0 0) = Completed sim'
       /\ get_probabilities (wavefunction sim')
          = get_probabilities (wavefunction (initialize new_simulator 1 0 1 0)).
Proof.
  assert (Hw : wavefunction (initialize new_simulator 1 0 1 0)
               = mkWavefunction (mkC 1 0) (mkC 0 0)).
  { rewrite <- (initialize_left_certain new_simulator).
    replace 1.0 with 1 by lra. replace 0.0 with 0 by lra. reflexivity. }
  assert (Hrate : decoherence_rate (initialize new_simulator 1 0 1 0) = 1).
  { unfold initialize; cbn [decoherence_rate].
    destruct (Rlt_dec 0 1); lra. }
  assert (Hnoise : noise_level (initialize new_simulator 1 0 1 0) <= 0)
    by (cbn; lra).
  assert (Hone : norm_squared (wavefunction (initialize new_simulator 1 0 1 0))
                 = 1).
  { rewrite Hw. unfold norm_squared; cbn [alpha beta].
    rewrite Cabs_one, Cabs_zero. ring. }
  assert (Ha : Cabs (alpha (wavefunction (initialize new_simulator 1 0 1 0))) = 0
               \/ 1e-10
                  <= Cabs (alpha (wavefunction (initialize new_simulator 1 0 1 0)))).
  { right. rewrite Hw; cbn [alpha]. rewrite Cabs_one. lra. }
  assert (Hb : Cabs (beta (wavefunction (initialize new_simulator 1 0 1 0))) = 0
               \/ 1e-10
                  <= Cabs (beta (wavefunction (initialize new_simulator 1 0 1 0)))).
  { left. rewrite Hw; cbn [beta]. apply Cabs_zero. }
  assert (Hrd : Rabs (decoherence_rate (initialize new_simulator 1 0 1 0) * 0.05)
                <= 300)
    by (rewrite Hrate, Rabs_right; lra).
  assert (Hr : Rabs (decoherence_rate (initialize new_simulator 1 0 1 0))
               <= 1e300)
    by (rewrite Hrate, Rabs_right; lra).
  assert (Hu : 0 <= phase_draw (mkDraws 0.25 0 0 0 0) < 1) by (cbn; lra).
  assert (Hdt : Rabs 0.05 <= float_max).
  { rewrite Rabs_right by lra. unfold float_max. lra. }
  split; [repeat split; assumption |].
  destruct (noiseless_evolution_preserves_observables
              (initialize new_simulator 1 0 1 0) 0.05 (mkDraws 0.25 0 0 0 0)
              Hnoise Hone Ha Hb Hdt Hrd Hr Hu) as (sim' & Hs & Hp & _).
  exists sim'. split; assumption.
Defined.

Lemma zero_or_within_widen (low high low' high' x : R) :
  low' <= low -> high <= high' ->
  zero_or_within low high x -> zero_or_within low' high' x.
Proof.
  intros Hl Hh [-> | H]; [left; reflexivity | right; lra].
Qed.

Lemma zero_or_within_opp (low high x : R) :
  zero_or_within low high x -> zero_or_within low high (- x).
Proof.
  intros [-> | H]; [left; ring | right; rewrite Rabs_Ropp; exact H].
Qed.

Lemma evolve_noiseless_wavefunction (sim : QuantumWalkSimulator) (dt : R)
    (d : evolution_draws) :
  noise_level sim <= 0 ->
  wavefunction (evolve_quantum_state sim dt d)
  = apply_decoherence (wavefunction sim) (decoherence_rate sim) dt
                      (phase_draw d).
Proof.
  intros Hnoise. unfold evolve_quantum_state.
  destruct (Rlt_dec 0 (noise_level sim)); [lra | reflexivity].
Qed.

(** X8.  Where normalization is established, inside the float range.
    [normalize] and the constructor, on a pair whose nonzero magnitudes lie
    between 1e-150 and 1e150, complete with |alpha|^2 + |beta|^2 = 1, or
    with the zero pair when given the zero pair.  [initialize], on
    amplitudes in that range and a coherence time that is non-positive or
    between 1e-300 and 1e300, completes with norm 1, or with the zero pair
    when both amplitudes are zero.  A noiseless [evolve_quantum_state], on
    a pair of nonzero norm whose nonzero magnitudes lie between 1e-10 and
    1e10, with a float [dt], |decoherence_rate * dt| at most 300 and the
    rate of magnitude at most 1e300, completes with norm 1; so it restores
    norm 1 on the pair left by [make_quantum_decision]. *)
Theorem normalization_established :
  (forall w : QuantumWavefunction,
     (Cabs (alpha w) = 0 \/ 1e-150 <= Cabs (alpha w) <= 1e150) ->
     (Cabs (beta w) = 0 \/ 1e-150 <= Cabs (beta w) <= 1e150) ->
     exists w',
       normalize_checked w = Completed w'
       /\ new_wavefunction_checked (alpha w) (beta w) = Completed w'
       /\ (norm_squared w' = 1
           \/ (w = mkWavefunction (mkC 0 0) (mkC 0 0) /\ w' = w)))
  /\ (forall (sim : QuantumWalkSimulator) (l r ct nl : R),
        zero_or_within 1e-150 1e150 l ->
        zero_or_within 1e-150 1e150 r ->
        ct <= 0 \/ 1e-300 <= ct <= 1e300 ->
        exists s,
          initialize_checked sim l r ct nl = Completed s
          /\ (norm_squared (wavefunction s) = 1
              \/ (l = 0 /\ r = 0
                  /\ wavefunction s = mkWavefunction (mkC 0 0) (mkC 0 0))))
  /\ (forall (sim : QuantumWalkSimulator) (dt : R) (d : evolution_draws),
        noise_level sim <= 0 ->
        (Cabs (alpha (wavefunction sim)) = 0
         \/ 1e-10 <= Cabs (alpha (wavefunction sim)) <= 1e10) ->
        (Cabs (beta (wavefunction sim)) = 0
         \/ 1e-10 <= Cabs (beta (wavefunction sim)) <= 1e10) ->
        norm_squared (wavefunction sim) <> 0 ->
        Rabs dt <= float_max ->
        Rabs (decoherence_rate sim * dt) <= 300 ->
        Rabs (decoherence_rate sim) <= 1e300 ->
        0 <= phase_draw d < 1 ->
        exists s,
          evolve_checked sim dt d = Completed s
          /\ norm_squared (wavefunction s) = 1)
  /\ (forall (sim : QuantumWalkSimulator) (e : entropy_reading) (now dt : R)
             (d : evolution_draws),
        noise_level sim <= 0 ->
        Rabs dt <= float_max ->
        Rabs (decoherence_rate sim * dt) <= 300 ->
        Rabs (decoherence_rate sim) <= 1e300 ->
        0 <= phase_draw d < 1 ->
        exists s,
          evolve_checked (snd (make_quantum_decision sim e now)) dt d
          = Completed s
          /\ norm_squared (wavefunction s) = 1).
Proof.
  assert (Hevolve :
    forall (sim : QuantumWalkSimulator) (dt : R) (d : evolution_draws),
      noise_level sim <= 0 ->
      (Cabs (alpha (wavefunction sim)) = 0
       \/ 1e-10 <= Cabs (alpha (wavefunction sim)) <= 1e10) ->
      (Cabs (beta (wavefunction sim)) = 0
       \/ 1e-10 <= Cabs (beta (wavefunction sim)) <= 1e10) ->
      norm_squared (wavefunction sim) <> 0 ->
      Rabs dt <= float_max ->
      Rabs (decoherence_rate sim * dt) <= 300 ->
      Rabs (decoherence_rate sim) <= 1e300 ->
      0 <= phase_draw d < 1 ->
      exists s,
        evolve_checked sim dt d = Completed s
        /\ norm_squared (wavefunction s) = 1).
  { intros sim dt d Hnoise Ha Hb Hnz Hdt Hrd Hrate Hu.
    exists (evolve_quantum_state sim dt d).
    split; [apply evolve_checked_noiseless; assumption |].
    rewrite evolve_noiseless_wavefunction by exact Hnoise.
    apply apply_decoherence_unit, Hnz. }
  split; [| split; [| split; [exact Hevolve |]]].
  - intros w Ha Hb. exists (normalize w).
    assert (Hc : normalize_checked w = Completed (normalize w))
      by (apply normalize_checked_moderate; assumption).
    split; [exact Hc |].
    split; [unfold new_wavefunction_checked; destruct w; exact Hc |].
    apply normalize_unit_or_unchanged.
  - intros sim l r ct nl Hl Hr Hct. exists (initialize sim l r ct nl).
    split; [apply initialize_checked_completes; assumption |].
    apply initialize_unit_or_zero.
  - intros sim e now dt d Hnoise Hdt Hrd Hrate Hu.
    rewrite make_quantum_decision_unfold. cbn [snd].
    apply Hevolve; cbn [noise_level wavefunction decoherence_rate alpha beta];
      try assumption.
    + right. rewrite Cabs_real, Rabs_right; lra.
    + right. rewrite Cabs_real, Rabs_right; lra.
    + rewrite reset_pair_norm_squared. lra.
Qed.

Lemma normalization_established_witness :
  ((Cabs (alpha (mkWavefunction (mkC 3 0) (mkC 4 0))) = 0
    \/ 1e-150 <= Cabs (alpha (mkWavefunction (mkC 3 0) (mkC 4 0))) <= 1e150)
   /\ (Cabs (beta (mkWavefunction (mkC 3 0) (mkC 4 0))) = 0
       \/ 1e-150 <= Cabs (beta (mkWavefunction (mkC 3 0) (mkC 4 0))) <= 1e150))
  /\ exists w',
       normalize_checked (mkWavefunction (mkC 3 0) (mkC 4 0)) = Completed w'
       /\ norm_squared w' = 1.
Proof.
  assert (Ha : Cabs (alpha (mkWavefunction (mkC 3 0) (mkC 4 0))) = 0
               \/ 1e-150 <= Cabs (alpha (mkWavefunction (mkC 3 0) (mkC 4 0)))
                  <= 1e150).
  { right. cbn [alpha]. rewrite Cabs_real, Rabs_right; lra. }
  assert (Hb : Cabs (beta (mkWavefunction (mkC 3 0) (mkC 4 0))) = 0
               \/ 1e-150 <= Cabs (beta (mkWavefunction (mkC 3 0) (mkC 4 0)))
                  <= 1e150).
  { right. cbn [beta]. rewrite Cabs_real, Rabs_right; lra. }
  split; [split; assumption |].
  destruct (proj1 normalization_established _ Ha Hb)
    as (w' & Hw' & _ & [Hone | [Hzero _]]).
  - exists w'. split; assumption.
  - exfalso. apply (f_equal (fun w => real (alpha w))) in Hzero.
    cbn [alpha real] in Hzero. lra.
Defined.

(** X22.  After [initialize] with amplitudes [l], [r] not both zero, each
    zero or of magnitude between 1e-70 and 1e70 (and a coherence time that
    is non-positive or between 1e-300 and 1e300), the call completes and
    [get_probabilities] returns (l^2/(l^2+r^2), r^2/(l^2+r^2)): the
    probabilities add up to 1 and do not depend on the sign of an
    amplitude. *)
Theorem initialize_probabilities :
  forall (sim : QuantumWalkSimulator) (l r ct nl : R),
    l <> 0 \/ r <> 0 ->
    zero_or_within 1e-70 1e70 l ->
    zero_or_within 1e-70 1e70 r ->
    ct <= 0 \/ 1e-300 <= ct <= 1e300 ->
    exists s s',
      initialize_checked sim l r ct nl = Completed s
      /\ initialize_checked sim (- l) r ct nl = Completed s'
      /\ get_probabilities (wavefunction s)
         = (l ^ 2 / (l ^ 2 + r ^ 2), r ^ 2 / (l ^ 2 + r ^ 2))
      /\ get_probabilities (wavefunction s')
         = get_probabilities (wavefunction s)
      /\ fst (get_probabilities (wavefunction s))
         + snd (get_probabilities (wavefunction s)) = 1.
Proof.
  intros sim l r ct nl Hnz Hl Hr Hct.
  apply (zero_or_within_widen 1e-70 1e70 1e-150 1e150) in Hl; [| lra | lra].
  apply (zero_or_within_widen 1e-70 1e70 1e-150 1e150) in Hr; [| lra | lra].
  exists (initialize sim l r ct nl), (initialize sim (- l) r ct nl).
  split; [apply initialize_checked_completes; assumption |].
  split; [apply initialize_checked_completes;
          [apply zero_or_within_opp | |]; assumption |].
  apply initialize_probabilities_real, Hnz.
Qed.

Lemma initialize_probabilities_witness :
  ((3 <> 0 \/ 4 <> 0)
   /\ zero_or_within 1e-70 1e70 3 /\ zero_or_within 1e-70 1e70 4
   /\ (1 <= 0 \/ 1e-300 <= 1 <= 1e300))
  /\ exists s,
       initialize_checked new_simulator 3 4 1 0.1 = Completed s
       /\ get_probabilities (wavefunction s)
          = (3 ^ 2 / (3 ^ 2 + 4 ^ 2), 4 ^ 2 / (3 ^ 2 + 4 ^ 2)).
Proof.
  assert (Hnz : 3 <> 0 \/ 4 <> 0) by (left; lra).
  assert (Hl : zero_or_within 1e-70 1e70 3)
    by (right; rewrite Rabs_right; lra).
  assert (Hr : zero_or_within 1e-70 1e70 4)
    by (right; rewrite Rabs_right; lra).
  assert (Hct : 1 <= 0 \/ 1e-300 <= 1 <= 1e300) by (right; lra).
  split; [repeat split; assumption |].
  destruct (initialize_probabilities new_simulator 3 4 1 0.1 Hnz Hl Hr Hct)
    as (s & s' & Hs & _ & Hp & _).
  exists s. split; assumption.
Defined.
